(** * Verification of the standalone prompt-tsx sources

    A shallow embedding of the standalone tokenizers, the standalone chat
    message conversion, the cancellation source, the cooperative file
    expansion example and the render pipeline, with the properties that the
    specification states about them. *)

From Stdlib Require Import ZArith String Ascii Bool Lia List Permutation.
Import ListNotations.

Local Open Scope Z_scope.

(** ** JavaScript values used by the sources *)

(** A JavaScript string is a sequence of UTF-16 code units; [length] counts
    code units, exactly as [String.prototype.length] does. *)
Module Js.

Definition char := N.
Definition str := list char.

(** ASCII literals of the sources. *)
Definition lit (s : string) : str := map N_of_ascii (list_ascii_of_string s).

Definition LF : char := 10%N.

(** The class [\s] of regular expressions, which is also the set of code
    units removed by [String.prototype.trim]: WhiteSpace and LineTerminator. *)
Definition is_space (c : char) : bool :=
  ((9 <=? c) && (c <=? 13) || (c =? 32) || (c =? 160) || (c =? 5760)
   || (8192 <=? c) && (c <=? 8202) || (c =? 8232) || (c =? 8233)
   || (c =? 8239) || (c =? 8287) || (c =? 12288) || (c =? 65279))%N.

Fixpoint drop_space (s : str) : str :=
  match s with
  | c :: s' => if is_space c then drop_space s' else s
  | [] => []
  end.

(** [s.trim()] *)
Definition trim (s : str) : str := rev (drop_space (rev (drop_space s))).

(** [s.split(/\s+/)]: [cur] is the piece being read (reversed), [in_sep]
    tells that the previous code unit belonged to a separator, which the
    greedy [\s+] extends as far as it can. *)
Fixpoint split_space_from (in_sep : bool) (cur : str) (s : str) : list str :=
  match s with
  | [] => [rev cur]
  | c :: s' =>
      if is_space c
      then if in_sep then split_space_from true cur s'
           else rev cur :: split_space_from true [] s'
      else split_space_from false (c :: cur) s'
  end.

Definition split_space (s : str) : list str := split_space_from false [] s.

(** [s.split('\n')] *)
Fixpoint split_lines_from (cur : str) (s : str) : list str :=
  match s with
  | [] => [rev cur]
  | c :: s' =>
      if (c =? LF)%N then rev cur :: split_lines_from [] s'
      else split_lines_from (c :: cur) s'
  end.

Definition split_lines (s : str) : list str := split_lines_from [] s.

(** [Math.ceil(a / b)] for integers [a] and positive [b]. *)
Definition ceil_div (a b : Z) : Z := - ((- a) / b).

(** The result of a call that may throw. *)
Inductive completion (A : Type) : Type :=
| Normal (a : A)
| Throw (message : string).
Arguments Normal {A} a.
Arguments Throw {A} message.

End Js.

(** ** output/mode: [OutputMode] *)

Module OutputMode.
Definition Raw : Z := 1.
Definition OpenAI : Z := Z.shiftl 1 1.
Definition VSCode : Z := Z.shiftl 1 2.
End OutputMode.

(** ** standalone-types: roles and chat messages *)

Inductive LanguageModelChatMessageRole : Type :=
| RoleUser
| RoleAssistant
| RoleSystem.

(** The numeric values the enum declares. *)
Definition role_value (r : LanguageModelChatMessageRole) : Z :=
  match r with
  | RoleUser => 1
  | RoleAssistant => 2
  | RoleSystem => 3
  end.

Record LanguageModelChatMessage : Type := mkMessage {
  role : LanguageModelChatMessageRole;
  content : Js.str;
  name : option Js.str
}.

(** ** output/rawTypes, as far as the sources at hand use it

    The declarations of [Raw.ChatCompletionContentPart] and [Raw.ChatRole] are
    imported from a module outside the sources at hand. A content part carries a
    numeric [type] tag and, for text parts, a [text]; the unit test fixes the
    tag of text parts to 1. A raw role is one of the four the conversion names,
    or any other run-time value. *)
Module Raw.

Definition ChatCompletionContentPartKind_Text : Z := 1.

Record ChatCompletionContentPart : Type := mkPart {
  type : Z;
  text : Js.str
}.

Inductive ChatRole : Type :=
| System
| User
| Assistant
| Tool
| Unlisted (tag : Z).

Record ChatMessage : Type := mkChatMessage {
  role : ChatRole;
  content : list ChatCompletionContentPart;
  name : option Js.str
}.

End Raw.

(** ** tokenizer/standalone-tokenizer *)

Module Tokenizer.

(** [StandaloneTokenizer]: the injected counting function and the [mode]
    field, which the class initialises to [OutputMode.VSCode]. *)
Record StandaloneTokenizer : Type := mkStandalone {
  st_countTokens : Js.str + LanguageModelChatMessage -> Z;
  st_mode : Z
}.

Definition new_StandaloneTokenizer
    (countTokens : Js.str + LanguageModelChatMessage -> Z) (mode : Z)
  : Js.completion StandaloneTokenizer :=
  if negb (mode =? OutputMode.VSCode)
  then Js.Throw "`mode` must be set to vscode when using LanguageModelChat as the tokenizer"
  else Js.Normal (mkStandalone countTokens OutputMode.VSCode).

Record VSCodeTokenizer : Type := mkVSCode {
  vs_countTokens : Js.str + LanguageModelChatMessage -> Z;
  vs_mode : Z
}.

Definition new_VSCodeTokenizer
    (countTokens : Js.str + LanguageModelChatMessage -> Z) (mode : Z)
  : Js.completion VSCodeTokenizer :=
  if negb (mode =? OutputMode.VSCode)
  then Js.Throw "`mode` must be set to vscode when using vscode.LanguageModelChat as the tokenizer"
  else Js.Normal (mkVSCode countTokens OutputMode.VSCode).

(** [SimpleTokenizer] has the [mode] field only. Its methods are embedded in
    state-passing style: they take the receiver and return the result together
    with the receiver after the call. *)
Record SimpleTokenizer : Type := mkSimple {
  mode : Z
}.

Definition new_SimpleTokenizer : SimpleTokenizer := mkSimple OutputMode.VSCode.

Definition estimateTokenCount (text : Js.str) : Z :=
  match text with
  | [] => 0
  | _ =>
      let words := Z.of_nat (length (Js.split_space (Js.trim text))) in
      let chars := Z.of_nat (length text) in
      Z.max words (Js.ceil_div chars 4)
  end.

Definition tokenLength (this : SimpleTokenizer) (part : Raw.ChatCompletionContentPart)
  : Z * SimpleTokenizer :=
  if Raw.type part =? Raw.ChatCompletionContentPartKind_Text
  then (estimateTokenCount (Raw.text part), this)
  else (0, this).

Definition countMessageTokens (this : SimpleTokenizer) (message : LanguageModelChatMessage)
  : Z * SimpleTokenizer :=
  (estimateTokenCount (content message), this).

(** The words of a text as the specification counts them: the maximal runs
    of code units that are not white space. [inside] tells that the previous
    code unit belonged to a word. *)
Fixpoint count_words_from (inside : bool) (s : Js.str) : nat :=
  match s with
  | [] => O
  | c :: s' =>
      if Js.is_space c then count_words_from false s'
      else if inside then count_words_from true s'
           else S (count_words_from true s')
  end.

Definition count_words (s : Js.str) : nat := count_words_from false s.

(** A text that does not end in white space. *)
Fixpoint ends_in_word (s : Js.str) : bool :=
  match s with
  | [] => true
  | c :: s' =>
      match s' with
      | [] => negb (Js.is_space c)
      | _ => ends_in_word s'
      end
  end.

End Tokenizer.

(** ** output/standalone: conversion of raw messages *)

Module Standalone.

Definition onlyStringContent (content : list Raw.ChatCompletionContentPart) : Js.str :=
  concat
    (map Raw.text
       (filter (fun part => Raw.type part =? Raw.ChatCompletionContentPartKind_Text)
          content)).

Definition toStandaloneChatMessage (m : Raw.ChatMessage)
  : option LanguageModelChatMessage :=
  match Raw.role m with
  | Raw.Assistant =>
      Some (mkMessage RoleAssistant (onlyStringContent (Raw.content m)) (Raw.name m))
  | Raw.User =>
      Some (mkMessage RoleUser (onlyStringContent (Raw.content m)) (Raw.name m))
  | Raw.System =>
      Some (mkMessage RoleSystem (onlyStringContent (Raw.content m)) (Raw.name m))
  | Raw.Tool =>
      Some (mkMessage RoleUser
              (Js.lit "Tool result: " ++ onlyStringContent (Raw.content m))
              (Raw.name m))
  | Raw.Unlisted _ => None
  end.

(** [!!r] for a value that is an object or [undefined]. *)
Definition truthy {A : Type} (r : option A) : bool :=
  match r with
  | Some _ => true
  | None => false
  end.

(** The cast [as LanguageModelChatMessage[]] of an array of defined values. *)
Definition as_defined {A : Type} (l : list (option A)) : list A :=
  flat_map (fun r => match r with Some a => [a] | None => [] end) l.

Definition toStandaloneChatMessages (messages : list Raw.ChatMessage)
  : list LanguageModelChatMessage :=
  as_defined (filter truthy (map toStandaloneChatMessage messages)).

(** The concatenation of the text parts of a message content, part by
    part. *)
Fixpoint text_parts (content : list Raw.ChatCompletionContentPart) : Js.str :=
  match content with
  | [] => []
  | part :: rest =>
      if Raw.type part =? Raw.ChatCompletionContentPartKind_Text
      then Raw.text part ++ text_parts rest
      else text_parts rest
  end.

Definition vocabulary : list LanguageModelChatMessageRole :=
  [RoleSystem; RoleUser; RoleAssistant].

(** The raw roles the conversion has a case for. *)
Definition listed (r : Raw.ChatRole) : bool :=
  match r with
  | Raw.Unlisted _ => false
  | _ => true
  end.

End Standalone.

(** ** standalone-types: [CancellationTokenSource]

    A listener is a callback. The source compares callbacks by identity
    ([indexOf]) and calls them, so a callback is represented by its identity;
    what it does when called is given by [body]: the calls it makes on the
    source, which may depend on the state it finds. Every call of a listener is
    recorded in [calls], oldest first. *)

Module Cancellation.

Definition listener := nat.

Record CancellationTokenSource : Type := mkSource {
  isCancellationRequested : bool;   (* _token.isCancellationRequested *)
  _isCancelled : bool;
  _listeners : list listener;
  calls : list listener
}.

Definition new_CancellationTokenSource : CancellationTokenSource :=
  mkSource false false [] [].

(** The calls a client, or a listener, can make on a source and its token. *)
Inductive call : Type :=
| OnCancellationRequested (l : listener)
| DisposeRegistration (l : listener)
| Cancel
| Dispose.

(** [token.onCancellationRequested(listener)] *)
Definition onCancellationRequested (l : listener) (s : CancellationTokenSource)
  : CancellationTokenSource :=
  mkSource (isCancellationRequested s) (_isCancelled s) (_listeners s ++ [l]) (calls s).

(** [indexOf] followed by [splice(index, 1)] when the index is not negative:
    the first occurrence goes. *)
Fixpoint remove_first (l : listener) (ls : list listener) : list listener :=
  match ls with
  | [] => []
  | x :: ls' => if Nat.eqb x l then ls' else x :: remove_first l ls'
  end.

(** [dispose()] of the object that [onCancellationRequested(listener)]
    returned. *)
Definition dispose_registration (l : listener) (s : CancellationTokenSource)
  : CancellationTokenSource :=
  mkSource (isCancellationRequested s) (_isCancelled s)
           (remove_first l (_listeners s)) (calls s).

Definition set_listeners (ls : list listener) (s : CancellationTokenSource)
  : CancellationTokenSource :=
  mkSource (isCancellationRequested s) (_isCancelled s) ls (calls s).

(** A call on a source that is cancelled already: [cancel()] returns at
    once, and [dispose()] only replaces the array of listeners. This is what
    a call made by a running listener does, since [cancel()] sets
    [_isCancelled] before it calls the listeners. *)
Definition step_cancelled (s : CancellationTokenSource) (c : call)
  : CancellationTokenSource :=
  match c with
  | OnCancellationRequested l => onCancellationRequested l s
  | DisposeRegistration l => dispose_registration l s
  | Cancel => s
  | Dispose => set_listeners [] s
  end.

(** The state of [this._listeners.forEach(...)]. [forEach] walks the array
    object that [_listeners] referred to when it began. While [detached] is
    [None], [_listeners] still is that array, and what listeners push to or
    splice from it is seen by the walk; once a listener has called
    [dispose()], [_listeners] is a new array and the array walked, kept in
    [detached], changes no more. *)
Record iteration : Type := mkIteration {
  source : CancellationTokenSource;
  detached : option (list listener)
}.

Definition walked (it : iteration) : list listener :=
  match detached it with
  | Some a => a
  | None => _listeners (source it)
  end.

Definition is_dispose (c : call) : bool :=
  match c with
  | Dispose => true
  | _ => false
  end.

Definition listener_step (it : iteration) (c : call) : iteration :=
  mkIteration (step_cancelled (source it) c)
              (if is_dispose c then Some (walked it) else detached it).

Section Listeners.

Variable body : listener -> CancellationTokenSource -> list call.

(** [listener(undefined)] *)
Definition notify (it : iteration) (l : listener) : iteration :=
  let s := source it in
  let called :=
    mkSource (isCancellationRequested s) (_isCancelled s) (_listeners s) (calls s ++ [l]) in
  fold_left listener_step (body l called) (mkIteration called (detached it)).

(** [forEach] from index [k], with [todo] indices to go up to the length
    the array had at the start; an index that is no longer in the array is
    skipped. *)
Fixpoint forEach (k todo : nat) (it : iteration) : iteration :=
  match todo with
  | O => it
  | S todo' =>
      match nth_error (walked it) k with
      | Some l => forEach (S k) todo' (notify it l)
      | None => forEach (S k) todo' it
      end
  end.

Definition cancel (s : CancellationTokenSource) : CancellationTokenSource :=
  if negb (_isCancelled s)
  then
    source
      (forEach 0 (length (_listeners s))
         (mkIteration (mkSource true true (_listeners s) (calls s)) None))
  else s.

Definition dispose (s : CancellationTokenSource) : CancellationTokenSource :=
  set_listeners [] (cancel s).

Definition step (s : CancellationTokenSource) (c : call) : CancellationTokenSource :=
  match c with
  | OnCancellationRequested l => onCancellationRequested l s
  | DisposeRegistration l => dispose_registration l s
  | Cancel => cancel s
  | Dispose => dispose s
  end.

Definition run (s : CancellationTokenSource) (cs : list call) : CancellationTokenSource :=
  fold_left step cs s.

End Listeners.

(** A call that may fire the event. *)
Definition fires (c : call) : bool :=
  match c with
  | Cancel | Dispose => true
  | _ => false
  end.

Definition times_called (l : listener) (s : CancellationTokenSource) : nat :=
  count_occ Nat.eq_dec (calls s) l.

Definition quiet (cs : list call) : bool := forallb (fun c => negb (fires c)) cs.

Definition unregisters (c : call) : bool :=
  match c with
  | DisposeRegistration _ => true
  | _ => false
  end.

(** A listener that, whatever state it finds, unregisters no listener. *)
Definition keeps_registrations
    (body : listener -> CancellationTokenSource -> list call) (l : listener) : Prop :=
  forall s, forallb (fun c => negb (unregisters c)) (body l s) = true.

(** Listeners that do nothing to the source. *)
Definition idle : listener -> CancellationTokenSource -> list call :=
  fun _ _ => [].

(** A listener that registers another listener and disposes the source
    when it is called. *)
Definition eager : listener -> CancellationTokenSource -> list call :=
  fun l _ =>
    match l with
    | O => [OnCancellationRequested 5%nat; Cancel; Dispose]
    | _ => []
    end.

(** A listener that unregisters itself when called. *)
Definition once : listener -> CancellationTokenSource -> list call :=
  fun l _ =>
    match l with
    | O => [DisposeRegistration 0%nat]
    | _ => []
    end.

(** What the specification says of a listener [l] that is registered after
    the first [cancel()]: it is notified. [before] are the calls made before
    the first [cancel()], [after] the calls made after the registration. *)
Definition late_listener_is_notified
    (body : listener -> CancellationTokenSource -> list call)
    (before after : list call) (l : listener) : Prop :=
  (1 <= times_called l
          (run body new_CancellationTokenSource
               (before ++ Cancel :: OnCancellationRequested l :: after)))%nat.

End Cancellation.

(** ** Listeners that throw *)

Module Throwing.

Import Cancellation.

(** What a listener does when it is called: the calls it makes on the
    source and its token, and whether it then throws instead of returning. A
    listener runs while [_isCancelled] is set, so the calls it makes are those
    of [step_cancelled] and none of them throws. *)
Record reaction : Type := mkReaction {
  made : list call;
  throws : bool
}.

Section Listeners.

Variable body : listener -> CancellationTokenSource -> reaction.

(** [listener(undefined)], with whether the listener threw. *)
Definition notify (it : iteration) (l : listener) : iteration * bool :=
  let s := source it in
  let called :=
    mkSource (isCancellationRequested s) (_isCancelled s) (_listeners s) (calls s ++ [l]) in
  let r := body l called in
  (fold_left listener_step (made r) (mkIteration called (detached it)), throws r).

(** [forEach] from index [k], with [todo] indices to go. The callback
    catches nothing: a listener that throws ends the walk, and the listeners
    after it are not called. *)
Fixpoint forEach (k todo : nat) (it : iteration) : iteration * bool :=
  match todo with
  | O => (it, false)
  | S todo' =>
      match nth_error (walked it) k with
      | Some l =>
          let (it', threw) := notify it l in
          if threw then (it', true) else forEach (S k) todo' it'
      | None => forEach (S k) todo' it
      end
  end.

(** [cancel()], with whether it threw. The two flags are set before the
    listeners are called, and stay set when a listener throws. *)
Definition cancel (s : CancellationTokenSource) : CancellationTokenSource * bool :=
  if negb (_isCancelled s)
  then
    let (it, threw) :=
      forEach 0 (length (_listeners s))
              (mkIteration (mkSource true true (_listeners s) (calls s)) None) in
    (source it, threw)
  else (s, false).

(** [dispose()]: when [this.cancel()] throws, the assignment to
    [_listeners] is not reached. *)
Definition dispose (s : CancellationTokenSource) : CancellationTokenSource * bool :=
  let (s', threw) := cancel s in
  if threw then (s', true) else (set_listeners [] s', false).

Definition step (s : CancellationTokenSource) (c : call)
  : CancellationTokenSource * bool :=
  match c with
  | OnCancellationRequested l => (onCancellationRequested l s, false)
  | DisposeRegistration l => (dispose_registration l s, false)
  | Cancel => cancel s
  | Dispose => dispose s
  end.

(** A client that makes the calls one after the other, and goes on with the
    next call when one has thrown. *)
Definition run (s : CancellationTokenSource) (cs : list call) : CancellationTokenSource :=
  fold_left (fun s c => fst (step s c)) cs s.

End Listeners.

(** A listener that, whatever state it finds, unregisters no listener. *)
Definition keeps_registrations
    (body : listener -> CancellationTokenSource -> reaction) (l : listener) : Prop :=
  forall s, forallb (fun c => negb (unregisters c)) (made (body l s)) = true.

(** A listener that, whatever state it finds, returns. *)
Definition returns
    (body : listener -> CancellationTokenSource -> reaction) (l : listener) : Prop :=
  forall s, throws (body l s) = false.

(** Listeners that always return: those of [Cancellation]. *)
Definition returning (body : listener -> CancellationTokenSource -> list call)
  : listener -> CancellationTokenSource -> reaction :=
  fun l s => mkReaction (body l s) false.

(** Listener 0 registers listener 9, then cancels and disposes the source;
    listener 9 throws; the others do nothing. *)
Definition faulty : listener -> CancellationTokenSource -> reaction :=
  fun l _ =>
    match l with
    | 0%nat => mkReaction [OnCancellationRequested 9%nat; Cancel; Dispose] false
    | 9%nat => mkReaction [] true
    | _ => mkReaction [] false
    end.

End Throwing.

(** ** examples/standalone-file-contents *)

(** [PromptSizing], as far as the example uses it: the budget granted to
    the element and the counting function bound to the tokenizer. Token
    counts and budgets are integers; the counting function is deterministic,
    so awaiting it is applying it. *)
Record PromptSizing : Type := mkSizing {
  tokenBudget : Z;
  countTokens : Js.str -> Z
}.

Module FileContext.

(** A file to include; [focusLine], when given, is an integer. *)
Record IFilesToInclude : Type := mkFile {
  filename : Js.str;
  content : Js.str;
  focusLine : option Z
}.

Inductive NextLineIs : Type :=
| above
| below
| none.

(** An element of [lines] is what [allLines[i]] evaluated to: a string, or
    [undefined] ([None]) when [i] is not an index of the array. *)
Record FileContextTracker : Type := mkTracker {
  prefix : Js.str;
  suffix : Js.str;
  lines : list (option Js.str);
  allLines : list Js.str;
  aboveLine : Z;
  belowLine : Z;
  nextLineIs : NextLineIs
}.

(** [a[i]] for an integer [i]. *)
Definition index (a : list Js.str) (i : Z) : option Js.str :=
  if (0 <=? i) && (i <? Z.of_nat (length a)) then nth_error a (Z.to_nat i) else None.

(** [v + s] where [v] is a string or [undefined]. *)
Definition plus (v : option Js.str) (s : Js.str) : Js.str :=
  match v with
  | Some x => x ++ s
  | None => Js.lit "undefined" ++ s
  end.

Definition new_FileContextTracker (file : IFilesToInclude) : FileContextTracker :=
  let allLines := Js.split_lines (content file) in
  let focusLine :=
    match focusLine file with
    | Some f => f
    | None => Z.of_nat (length allLines) / 2
    end in
  mkTracker (Js.lit "# " ++ filename file ++ [Js.LF] ++ Js.lit "```" ++ [Js.LF])
            ([Js.LF] ++ Js.lit "```" ++ [Js.LF])
            [] allLines focusLine focusLine above.

Definition tokenCount (this : FileContextTracker) (sizing : PromptSizing) : Z :=
  let before := countTokens sizing (prefix this) in
  let after := countTokens sizing (suffix this) in
  before + after.

Definition nextLine (this : FileContextTracker) : option Js.str :=
  match nextLineIs this with
  | above =>
      if aboveLine this >=? 0
      then Some (plus (index (allLines this) (aboveLine this)) [Js.LF])
      else None
  | below =>
      if belowLine this <? Z.of_nat (length (allLines this))
      then Some (plus (index (allLines this) (belowLine this)) [Js.LF])
      else None
  | none => None
  end.

Definition is_above (n : NextLineIs) : bool :=
  match n with above => true | _ => false end.

Definition is_below (n : NextLineIs) : bool :=
  match n with below => true | _ => false end.

Definition set_cursor (this : FileContextTracker) (lines' : list (option Js.str))
    (aboveLine' belowLine' : Z) (next : NextLineIs) : FileContextTracker :=
  mkTracker (prefix this) (suffix this) lines' (allLines this) aboveLine' belowLine' next.

Definition expand (this : FileContextTracker) : FileContextTracker :=
  let len := Z.of_nat (length (allLines this)) in
  if is_above (nextLineIs this) && (aboveLine this >=? 0) then
    let lines' := index (allLines this) (aboveLine this) :: lines this in
    if belowLine this <? len - 1 then
      set_cursor this lines' (aboveLine this) (belowLine this + 1) below
    else if aboveLine this >? 0 then
      set_cursor this lines' (aboveLine this - 1) (belowLine this) above
    else
      set_cursor this lines' (aboveLine this) (belowLine this) none
  else if is_below (nextLineIs this) && (belowLine this <? len) then
    let lines' := lines this ++ [index (allLines this) (belowLine this)] in
    if aboveLine this >? 0 then
      set_cursor this lines' (aboveLine this - 1) (belowLine this) above
    else if belowLine this <? len - 1 then
      set_cursor this lines' (aboveLine this) (belowLine this + 1) below
    else
      set_cursor this lines' (aboveLine this) (belowLine this) none
  else this.

(** [Array.prototype.join]: an [undefined] element contributes the empty
    string. *)
Fixpoint join (sep : Js.str) (l : list (option Js.str)) : Js.str :=
  match l with
  | [] => []
  | [v] => match v with Some x => x | None => [] end
  | v :: l' => match v with Some x => x | None => [] end ++ sep ++ join sep l'
  end.

Definition toString (this : FileContextTracker) : Js.str :=
  prefix this ++ join [Js.LF] (lines this) ++ suffix this.

(** The index of [allLines] that the next [expand] call reads, if it reads
    one. *)
Definition expand_index (this : FileContextTracker) : option Z :=
  let len := Z.of_nat (length (allLines this)) in
  if is_above (nextLineIs this) && (aboveLine this >=? 0) then Some (aboveLine this)
  else if is_below (nextLineIs this) && (belowLine this <? len) then Some (belowLine this)
  else None.

(** *** [FileContext.getExpandedFiles] *)

(** How one run of the [for] loop over the files ends: with the [return] in
    its body, or by reaching the end of the array. *)
Inductive pass_end : Type :=
| Return (files : list FileContextTracker)
| Done (files : list FileContextTracker) (tokenCount : Z) (anyHadLinesToExpand : bool).

Definition visited (file : FileContextTracker) (e : pass_end) : pass_end :=
  match e with
  | Return files => Return (file :: files)
  | Done files tc any => Done (file :: files) tc any
  end.

Fixpoint for_files (sizing : PromptSizing) (files : list FileContextTracker)
    (tokenCount : Z) (anyHadLinesToExpand : bool) : pass_end :=
  match files with
  | [] => Done [] tokenCount anyHadLinesToExpand
  | file :: rest =>
      match nextLine file with
      | None => visited file (for_files sizing rest tokenCount anyHadLinesToExpand)
      | Some nextLine =>
          let nextTokenCount := countTokens sizing nextLine in
          if tokenCount + nextTokenCount >? tokenBudget sizing
          then Return (file :: rest)
          else visited (expand file)
                 (for_files sizing rest (tokenCount + nextTokenCount) true)
      end
  end.

(** The [while (true)] loop, with a bound on the number of its rounds. *)
Fixpoint while_true (rounds : nat) (sizing : PromptSizing)
    (files : list FileContextTracker) (tokenCount : Z)
  : option (list FileContextTracker) :=
  match rounds with
  | O => None
  | S rounds' =>
      match for_files sizing files tokenCount false with
      | Return files' => Some files'
      | Done files' tokenCount' any =>
          if negb any then Some files'
          else while_true rounds' sizing files' tokenCount'
      end
  end.

Definition header_tokens (sizing : PromptSizing) (files : list FileContextTracker) : Z :=
  fold_left (fun count file => count + tokenCount file sizing) files 0.

(** The lines a tracker can still take: an upper bound on the [expand]
    calls that change it. *)
Definition lines_left (this : FileContextTracker) : nat :=
  match nextLineIs this with
  | none => O
  | _ =>
      S (Z.to_nat (Z.max (aboveLine this) 0)
         + Z.to_nat (Z.max (Z.of_nat (length (allLines this)) - 1 - belowLine this) 0))
  end.

Definition rounds_bound (files : list FileContextTracker) : nat :=
  S (list_sum (map lines_left files)).

Definition getExpandedFiles (files : list IFilesToInclude) (sizing : PromptSizing)
  : option (list FileContextTracker) :=
  let files := map new_FileContextTracker files in
  let tokenCount := header_tokens sizing files in
  while_true (rounds_bound files) sizing files tokenCount.

(** The token cost of the content of a list of trackers: for every file its
    header and footer, and every line it holds, each measured by
    [sizing.countTokens] as [getExpandedFiles] measures it (a line is
    measured with its line break). *)
Definition line_tokens (sizing : PromptSizing) (v : option Js.str) : Z :=
  countTokens sizing (plus v [Js.LF]).

Definition file_tokens (sizing : PromptSizing) (file : FileContextTracker) : Z :=
  tokenCount file sizing
  + fold_right Z.add 0 (map (line_tokens sizing) (lines file)).

Definition content_tokens (sizing : PromptSizing) (files : list FileContextTracker) : Z :=
  fold_right Z.add 0 (map (file_tokens sizing) files).

(** [has_grown t t']: [t'] holds the lines of [t] and possibly more around
    them. *)
Definition has_grown (t t' : FileContextTracker) : Prop :=
  exists before after, lines t' = before ++ lines t ++ after.

(** The slice [a.slice(lo, lo + n)]. *)
Definition slice (a : list Js.str) (lo n : nat) : list (option Js.str) :=
  map Some (firstn n (skipn lo a)).

(** A sequence of [nextLine] and [expand] calls on a tracker; [added]
    collects the indices that the [expand] calls read, oldest first. *)
Inductive tracker_call : Type :=
| CallNextLine
| CallExpand.

Definition tracker_step (st : FileContextTracker * list Z) (c : tracker_call)
  : FileContextTracker * list Z :=
  match c with
  | CallNextLine => st
  | CallExpand =>
      (expand (fst st),
       match expand_index (fst st) with
       | Some i => snd st ++ [i]
       | None => snd st
       end)
  end.

Definition tracker_run (t : FileContextTracker) (cs : list tracker_call)
  : FileContextTracker * list Z :=
  fold_left tracker_step cs (t, []).

(** The trackers a run of the [for] loop leaves. *)
Definition files_of (e : pass_end) : list FileContextTracker :=
  match e with
  | Return files => files
  | Done files _ _ => files
  end.

Definition lines_left_sum (files : list FileContextTracker) : nat :=
  list_sum (map lines_left files).

(** The focus line of a file: the one given, or the middle line. *)
Definition focus_of (file : IFilesToInclude) : Z :=
  aboveLine (new_FileContextTracker file).

(** What holds of a tracker with focus line [f] and of the indices [added]
    so far: the lines are the slice of [n] lines from index [lo], the indices
    added are those of the slice, and the two cursors sit at its ends as the
    pending direction requires. *)
Definition tracker_inv (f : Z) (st : FileContextTracker * list Z) : Prop :=
  let t := fst st in
  let len := Z.of_nat (length (allLines t)) in
  exists (lo : Z) (n : nat),
    lines t = slice (allLines t) (Z.to_nat lo) n
    /\ lo + Z.of_nat n <= len
    /\ (n <> O -> 0 <= lo <= f /\ f < lo + Z.of_nat n)
    /\ NoDup (snd st)
    /\ (forall i, In i (snd st) <-> lo <= i < lo + Z.of_nat n)
    /\ match nextLineIs t with
       | above =>
           aboveLine t = lo - 1 /\ belowLine t = lo + Z.of_nat n - 1
           /\ (n = O -> lo = f + 1)
       | below =>
           aboveLine t = lo /\ belowLine t = lo + Z.of_nat n
           /\ n <> O /\ lo + Z.of_nat n < len
       | none => n <> O
       end.

(** What the specification says of the lines of a tracker: they are a
    contiguous slice of the original lines of the file. *)
Definition lines_are_slice (t : FileContextTracker) : Prop :=
  exists lo n : nat, lines t = slice (allLines t) lo n.

End FileContext.

(** ** The render engine

    The tests and the examples import [renderPrompt] from the base module,
    whose implementation (element tree, evaluator, budget allocator, pruner,
    flattener) is not among the sources at hand. This module models it from
    sections 3, 4, 6 and 7 of the specification. *)

Module Engine.

#[local] Set Warnings "-register-all".

(** Modelled from the spec: the four kinds of failure of a render call
    (section 7); the engine that raises them is missing from the sources. *)
Inductive RenderError : Type :=
| ConfigurationError
| EvaluationError
| BudgetInvariantViolation
| CancellationError.

Definition outcome (A : Type) : Type := (RenderError + A)%type.

Definition bind {A B : Type} (o : outcome A) (k : A -> outcome B) : outcome B :=
  match o with
  | inl e => inl e
  | inr a => k a
  end.

Notation "x <- o ;; k" := (bind o (fun x => k))
  (at level 61, o at next level, right associativity).

(** Modelled from the spec: the attributes every Element Node carries
    (section 3). *)
Record Attributes : Type := mkAttributes {
  priority : Z;
  flexGrow : option Z;
  flexBasis : option Z
}.

(** Modelled from the spec: the Element Node (section 3). The render step of
    a Component receives the Sizing Context and returns a new sub-tree, or
    fails ([None]). *)
Inductive ElementNode : Type :=
| MessageContainer (a : Attributes) (role : LanguageModelChatMessageRole)
    (children : list ElementNode)
| TextLeaf (a : Attributes) (text : Js.str)
| Fragment (a : Attributes) (children : list ElementNode)
| Component (a : Attributes) (step : PromptSizing -> option ElementNode).

(** Modelled from the spec: the Piece Node (section 3), with its priority
    and its token cost, measured once. *)
Inductive PieceNode : Type :=
| PieceText (priority : Z) (tokenCost : Z) (text : Js.str)
| PieceMessage (priority : Z) (tokenCost : Z) (role : LanguageModelChatMessageRole)
    (children : list PieceNode).

Definition piece_priority (p : PieceNode) : Z :=
  match p with
  | PieceText pr _ _ => pr
  | PieceMessage pr _ _ _ => pr
  end.

Definition tokenCost (p : PieceNode) : Z :=
  match p with
  | PieceText _ c _ => c
  | PieceMessage _ c _ _ => c
  end.

Definition total_cost (pieces : list PieceNode) : Z :=
  fold_right Z.add 0 (map tokenCost pieces).

(** The text below a piece, in declaration order. *)
Fixpoint piece_text (p : PieceNode) : Js.str :=
  match p with
  | PieceText _ _ text => text
  | PieceMessage _ _ _ children => flat_map piece_text children
  end.

(** *** Budget Allocator (section 4.2) *)

(** Modelled from the spec: a sibling of a group (the allocator is missing
    from the sources): its attributes and its evaluation, which waits for
    the Sizing Context it is granted. *)
Definition sibling : Type :=
  (Attributes * (PromptSizing -> outcome (list PieceNode)))%type.

Definition with_budget (ctx : PromptSizing) (budget : Z) : PromptSizing :=
  mkSizing budget (countTokens ctx).

Definition basis (a : Attributes) : Z :=
  match flexBasis a with
  | Some b => b
  | None => 0
  end.

(** Modelled from the spec: the state of a sibling during allocation (the
    allocator is missing from the sources): evaluated as a fixed sibling,
    or flexible with its weight, its current target and, once it was invoked,
    its pieces. *)
Inductive entry : Type :=
| Fixed (pieces : list PieceNode)
| Flexible (weight : Z) (run : PromptSizing -> outcome (list PieceNode))
    (target : Z) (pieces : list PieceNode).

Definition entry_pieces (e : entry) : list PieceNode :=
  match e with
  | Fixed pieces => pieces
  | Flexible _ _ _ pieces => pieces
  end.

(** Modelled from the spec: steps 1 and 2 of the allocator, which is
    missing from the sources. The fixed siblings are evaluated first, in declaration
    order, each against the budget that remains; a sibling with weight 0 is
    treated as fixed and granted its [flexBasis] only. A negative weight is a
    malformed tree. *)
Fixpoint evaluate_fixed (ctx : PromptSizing) (remaining : Z) (group : list sibling)
  : outcome (list entry * Z) :=
  match group with
  | [] => inr ([], remaining)
  | (a, run) :: rest =>
      match flexGrow a with
      | None =>
          pieces <- run (with_budget ctx remaining) ;;
          r <- evaluate_fixed ctx (remaining - total_cost pieces) rest ;;
          inr (Fixed pieces :: fst r, snd r)
      | Some w =>
          if w <? 0 then inl ConfigurationError
          else if w =? 0 then
            pieces <- run (with_budget ctx (basis a)) ;;
            r <- evaluate_fixed ctx (remaining - total_cost pieces) rest ;;
            inr (Fixed pieces :: fst r, snd r)
          else
            r <- evaluate_fixed ctx remaining rest ;;
            inr (Flexible w run (basis a) [] :: fst r, snd r)
      end
  end.

Definition weight_of (e : entry) : Z :=
  match e with
  | Fixed _ => 0
  | Flexible w _ _ _ => w
  end.

Definition total_weight (entries : list entry) : Z :=
  fold_right Z.add 0 (map weight_of entries).

(** Modelled from the spec: the invocation of the render step of a
    flexible sibling with its target (the allocator is missing from the
    sources); a cost that is negative or exceeds the budget granted is
    rejected. *)
Definition invoke (ctx : PromptSizing)
    (run : PromptSizing -> outcome (list PieceNode)) (target : Z)
  : outcome (list PieceNode) :=
  pieces <- run (with_budget ctx target) ;;
  if (total_cost pieces <? 0) || (target <? total_cost pieces)
  then inl BudgetInvariantViolation
  else inr pieces.

(** Modelled from the spec: steps 3 and 4 of the allocator, which is
    missing from the sources. The target of a flexible sibling is its [flexBasis] plus
    its share of the remaining budget by weight, floored; the siblings are
    invoked in declaration order. *)
Fixpoint evaluate_flexible (ctx : PromptSizing) (remaining total : Z)
    (entries : list entry) : outcome (list entry) :=
  match entries with
  | [] => inr []
  | Fixed pieces :: rest =>
      r <- evaluate_flexible ctx remaining total rest ;;
      inr (Fixed pieces :: r)
  | Flexible w run b _ :: rest =>
      let target := b + (remaining * w) / total in
      pieces <- invoke ctx run target ;;
      r <- evaluate_flexible ctx remaining total rest ;;
      inr (Flexible w run target pieces :: r)
  end.

(** Modelled from the spec: step 5 of the allocator, which is missing from
    the sources. The unused part of a target, and the flexible siblings that did
    not consume theirs. *)
Definition unused (e : entry) : Z :=
  match e with
  | Fixed _ => 0
  | Flexible _ _ target pieces => target - total_cost pieces
  end.

Definition leftover (entries : list entry) : Z :=
  fold_right Z.add 0 (map unused entries).

Definition candidate (e : entry) : bool := 0 <? unused e.

Definition candidate_weight (entries : list entry) : Z :=
  total_weight (filter candidate entries).

(** Modelled from the spec: one round of step 5 of the allocator, which is
    missing from the sources. Every candidate is invoked again with what it consumed plus
    its share of the unused amount. The flag tells whether a cost increased. *)
Fixpoint redistribute (ctx : PromptSizing) (amount weights : Z) (entries : list entry)
  : outcome (list entry * bool) :=
  match entries with
  | [] => inr ([], false)
  | e :: rest =>
      match e with
      | Flexible w run target pieces =>
          if candidate e then
            let target' := total_cost pieces + (amount * w) / weights in
            pieces' <- invoke ctx run target' ;;
            r <- redistribute ctx amount weights rest ;;
            inr (Flexible w run target' pieces' :: fst r,
                 (total_cost pieces <? total_cost pieces') || snd r)
          else
            r <- redistribute ctx amount weights rest ;;
            inr (e :: fst r, snd r)
      | Fixed _ =>
          r <- redistribute ctx amount weights rest ;;
          inr (e :: fst r, snd r)
      end
  end.

(** Modelled from the spec: the rounds of step 5 of the allocator, which
    is missing from the sources. They go on while budget is left over and some
    cost increased; each such round uses at least one token more, which bounds
    their number. *)
Fixpoint cooperative_growth (rounds : nat) (ctx : PromptSizing) (entries : list entry)
  : outcome (list entry) :=
  match rounds with
  | O => inr entries
  | S rounds' =>
      if (leftover entries <=? 0) || (candidate_weight entries <=? 0)
      then inr entries
      else
        r <- redistribute ctx (leftover entries) (candidate_weight entries) entries ;;
        if snd r then cooperative_growth rounds' ctx (fst r) else inr (fst r)
  end.

(** Modelled from the spec: the Budget Allocator, missing from the
    sources: the fixed siblings first, then the flexible ones with their
    targets, then the rounds of cooperative growth; the pieces come out in
    declaration order. A group whose weights sum to 0 has no flexible
    sibling. *)
Definition allocate (ctx : PromptSizing) (group : list sibling)
  : outcome (list PieceNode) :=
  fixed <- evaluate_fixed ctx (tokenBudget ctx) group ;;
  let entries := fst fixed in
  let remaining := snd fixed in
  if total_weight entries =? 0 then inr (flat_map entry_pieces entries)
  else
    first <- evaluate_flexible ctx remaining (total_weight entries) entries ;;
    final <- cooperative_growth (Z.to_nat remaining) ctx first ;;
    inr (flat_map entry_pieces final).

(** *** Evaluator (section 4.1) *)

(** Modelled from the spec: the Evaluator, missing from the sources.
    [siblings node] is what [node] contributes to the group of its parent: a
    Fragment splices its children into it, any other node is one sibling. *)
Fixpoint siblings (node : ElementNode) : list sibling :=
  match node with
  | TextLeaf a text =>
      [(a, fun ctx => inr [PieceText (priority a) (countTokens ctx text) text])]
  | MessageContainer a role children =>
      [(a, fun ctx =>
             pieces <- allocate ctx (flat_map siblings children) ;;
             inr [PieceMessage (priority a) (total_cost pieces) role pieces])]
  | Fragment _ children => flat_map siblings children
  | Component a step =>
      [(a, fun ctx =>
             match step ctx with
             | None => inl EvaluationError
             | Some tree => allocate ctx (siblings tree)
             end)]
  end.

(** Modelled from the spec: the evaluation of a whole tree by the
    Evaluator, missing from the sources. *)
Definition evaluate (ctx : PromptSizing) (root : ElementNode) : outcome (list PieceNode) :=
  allocate ctx (siblings root).

(** *** Pruner (section 4.3) *)

(** Modelled from the spec: step 1 of the Pruner, missing from the sources.
    The prunable units are the top-level pieces, each with its place in
    declaration order. A top-level piece that is no message is kept or
    dropped like one. *)
Definition prunable_unit : Type := (nat * PieceNode)%type.

Fixpoint number_from (i : nat) (pieces : list PieceNode) : list prunable_unit :=
  match pieces with
  | [] => []
  | p :: rest => (i, p) :: number_from (S i) rest
  end.

Definition prunable_units (pieces : list PieceNode) : list prunable_unit :=
  number_from 0 pieces.

(** Modelled from the spec: step 2 of the Pruner, missing from the
    sources: by priority, descending; units of equal priority stay in
    declaration order. *)
Fixpoint insert_unit (u : prunable_unit) (sorted : list prunable_unit)
  : list prunable_unit :=
  match sorted with
  | [] => [u]
  | v :: rest =>
      if piece_priority (snd v) <=? piece_priority (snd u)
      then u :: v :: rest
      else v :: insert_unit u rest
  end.

Definition sort_units (units : list prunable_unit) : list prunable_unit :=
  fold_right insert_unit [] units.

(** Modelled from the spec: step 3 of the Pruner, missing from the
    sources: units are accepted in sorted order while the running total
    stays within the budget; the first unit that would exceed it is rejected
    with all the units after it. *)
Fixpoint accept (budget running : Z) (sorted : list prunable_unit)
  : list prunable_unit :=
  match sorted with
  | [] => []
  | u :: rest =>
      if running + tokenCost (snd u) <=? budget
      then u :: accept budget (running + tokenCost (snd u)) rest
      else []
  end.

Definition is_accepted (accepted : list prunable_unit) (u : prunable_unit) : bool :=
  existsb (Nat.eqb (fst u)) (map fst accepted).

Definition units_cost (units : list prunable_unit) : Z :=
  total_cost (map snd units).

(** Modelled from the spec: the Pruner, missing from the sources; it
    returns the surviving pieces, whole, in declaration order. *)
Definition prune (budget : Z) (pieces : list PieceNode) : list PieceNode :=
  let units := prunable_units pieces in
  map snd (filter (is_accepted (accept budget 0 (sort_units units))) units).

(** *** Flattener (section 4.4) and Render Result (section 3) *)

(** Modelled from the spec: the Render Result of the engine, missing from
    the sources. The metadata and references of the result are passed
    through and not part of this model. *)
Record RenderResult : Type := mkResult {
  messages : list LanguageModelChatMessage;
  tokenCount : Z
}.

Definition message_of (p : PieceNode) : list LanguageModelChatMessage :=
  match p with
  | PieceMessage _ _ role _ => [mkMessage role (piece_text p) None]
  | PieceText _ _ _ => []
  end.

(** Modelled from the spec: the Flattener, missing from the sources: the
    messages of the surviving pieces in declaration order, and the sum of the
    costs of everything retained. *)
Definition flatten (pieces : list PieceNode) : RenderResult :=
  mkResult (flat_map message_of pieces) (total_cost pieces).

(** *** Render entry point (sections 6 and 7) *)

(** Modelled from the spec: [renderPrompt], missing from the sources. It
    fails when the budget is not positive, when the cancellation signal of the
    call fires ([cancelled]) and when the tree fails to evaluate. *)
Definition renderPrompt (tree : ElementNode) (modelMaxPromptTokens : Z)
    (count : Js.str -> Z) (cancelled : bool) : outcome RenderResult :=
  if modelMaxPromptTokens <=? 0 then inl ConfigurationError
  else if cancelled then inl CancellationError
  else
    pieces <- evaluate (mkSizing modelMaxPromptTokens count) tree ;;
    inr (flatten (prune modelMaxPromptTokens pieces)).

(** The prompt of the unit test on budgets: a system message of priority
    100, a context message of priority 80 and a question of priority 90. *)
Definition message (role : LanguageModelChatMessageRole) (priority : Z)
    (texts : list Js.str) : ElementNode :=
  MessageContainer (mkAttributes priority None None) role
    (map (TextLeaf (mkAttributes priority None None)) texts).

Definition ComplexPrompt (query context : Js.str) : ElementNode :=
  Component (mkAttributes 0 None None)
    (fun _ =>
       Some (Fragment (mkAttributes 0 None None)
               [message RoleSystem 100
                  [Js.lit "You are a helpful AI assistant. Use the provided context to answer questions."];
                message RoleUser 80 [Js.lit "Context: "; context];
                message RoleUser 90 [Js.lit "Question: "; query]])).

End Engine.

(** ** standalone-types: positions, ranges, markdown strings and URIs *)

Module Types.

(** The result of a call that may throw an [Error] whose message is built
    from a JavaScript string. *)
Inductive outcome (A : Type) : Type :=
| Returned (a : A)
| Thrown (message : Js.str).
Arguments Returned {A} a.
Arguments Thrown {A} message.

(** *** [Position]; lines and characters are integers. *)
Record Position : Type := mkPosition {
  line : Z;
  character : Z
}.

Definition isBefore (this other : Position) : bool :=
  (line this <? line other)
  || ((line this =? line other) && (character this <? character other)).

Definition isEqual (this other : Position) : bool :=
  (line this =? line other) && (character this =? character other).

(** *** [Range] *)
Record Range : Type := mkRange {
  start : Position;
  end_ : Position
}.

(** The two overloads of the constructor: two positions, or four numbers. *)
Inductive RangeArguments : Type :=
| FromPositions (start end_ : Position)
| FromNumbers (startLine startCharacter endLine endCharacter : Z).

Definition new_Range (args : RangeArguments) : Range :=
  let this :=
    match args with
    | FromNumbers startLine startCharacter endLine endCharacter =>
        mkRange (mkPosition startLine startCharacter) (mkPosition endLine endCharacter)
    | FromPositions start end_ => mkRange start end_
    end in
  if isBefore (start this) (end_ this) || isEqual (start this) (end_ this)
  then this
  else mkRange (end_ this) (start this).

Definition isEmpty (this : Range) : bool := isEqual (start this) (end_ this).

Definition isSingleLine (this : Range) : bool :=
  line (start this) =? line (end_ this).

(** The positions a constructor call is given. *)
Definition given (args : RangeArguments) : Position * Position :=
  match args with
  | FromPositions a b => (a, b)
  | FromNumbers a b c d => (mkPosition a b, mkPosition c d)
  end.

(** *** [MarkdownString] *)
Record MarkdownString : Type := mkMarkdown {
  value : Js.str;
  isTrusted : option bool;
  supportHtml : option bool;
  supportThemeIcons : option bool
}.

Definition new_MarkdownString (value : option Js.str) (supportThemeIcons : option bool)
  : MarkdownString :=
  mkMarkdown (match value with Some v => v | None => [] end) None None supportThemeIcons.

Definition appendText (this : MarkdownString) (v : Js.str) : MarkdownString :=
  mkMarkdown (value this ++ v) (isTrusted this) (supportHtml this) (supportThemeIcons this).

Definition appendMarkdown (this : MarkdownString) (v : Js.str) : MarkdownString :=
  mkMarkdown (value this ++ v) (isTrusted this) (supportHtml this) (supportThemeIcons this).

(** A call of one of the two append methods. *)
Inductive append_call : Type :=
| AppendText (v : Js.str)
| AppendMarkdown (v : Js.str).

Definition appended (c : append_call) : Js.str :=
  match c with
  | AppendText v => v
  | AppendMarkdown v => v
  end.

Definition append (this : MarkdownString) (c : append_call) : MarkdownString :=
  match c with
  | AppendText v => appendText this v
  | AppendMarkdown v => appendMarkdown this v
  end.

(** *** [Uri] *)
Record Uri : Type := mkUri {
  scheme : Js.str;
  authority : Js.str;
  path : Js.str;
  query : Js.str;
  fragment : Js.str
}.

Definition colon : Js.char := 58%N.
Definition slash : Js.char := 47%N.
Definition backslash : Js.char := 92%N.
Definition question : Js.char := 63%N.
Definition hash : Js.char := 35%N.

(** A code unit of a negated class [[^...]]. *)
Definition not_in (excluded : list Js.char) (c : Js.char) : bool :=
  negb (existsb (N.eqb c) excluded).

(** What [.] does not match: the line terminators. *)
Definition is_line_terminator (c : Js.char) : bool :=
  ((c =? 10) || (c =? 13) || (c =? 8232) || (c =? 8233))%N.

Fixpoint take_while (p : Js.char -> bool) (s : Js.str) : Js.str :=
  match s with
  | c :: s' => if p c then c :: take_while p s' else []
  | [] => []
  end.

Fixpoint drop_while (p : Js.char -> bool) (s : Js.str) : Js.str :=
  match s with
  | c :: s' => if p c then drop_while p s' else s
  | [] => []
  end.

(** The capture groups 2, 4, 5, 7 and 9 of a match; [None] is a group that
    did not take part in the match. *)
Record uri_match : Type := mkMatch {
  group2 : option Js.str;
  group4 : option Js.str;
  group5 : Js.str;
  group7 : option Js.str;
  group9 : option Js.str
}.

(** [value.match(...)] with the regular expression of [Uri.parse]: anchored
    at both ends, an optional scheme (one or more code units other than
    [: / ? #], then a colon), an optional authority (two slashes, then code
    units other than [/ ? #]), the path (code units other than [? #]), an
    optional query (a question mark, then code units other than [#]) and an
    optional fragment (a hash, then any code units that [.] matches).
    Every class of the expression excludes the delimiter that follows it, so
    each greedy group can only end where its class ends: the scheme is the
    run before the first of [: / ? #] when that run is not empty and a colon
    follows it; the authority follows the two slashes; the path runs to the
    first question mark or hash; the query to the first hash; the fragment
    to the end of the value, which [.] reaches only when no line terminator
    is on the way. That is the one way the match can fail. *)
Definition scheme_group (value : Js.str) : option Js.str * Js.str :=
  match take_while (not_in [colon; slash; question; hash]) value,
        drop_while (not_in [colon; slash; question; hash]) value with
  | c0 :: run, c :: rest =>
      if (c =? colon)%N then (Some (c0 :: run), rest) else (None, value)
  | _, _ => (None, value)
  end.

Definition authority_group (rest1 : Js.str) : option Js.str * Js.str :=
  match rest1 with
  | a :: b :: rest =>
      if ((a =? slash) && (b =? slash))%N
      then (Some (take_while (not_in [slash; question; hash]) rest),
            drop_while (not_in [slash; question; hash]) rest)
      else (None, rest1)
  | _ => (None, rest1)
  end.

Definition query_group (rest3 : Js.str) : option Js.str * Js.str :=
  match rest3 with
  | c :: rest =>
      if (c =? question)%N
      then (Some (take_while (not_in [hash]) rest), drop_while (not_in [hash]) rest)
      else (None, rest3)
  | [] => (None, [])
  end.

(** The fragment group and the final anchor: [None] when the match fails. *)
Definition fragment_group (rest4 : Js.str) : option (option Js.str) :=
  match rest4 with
  | [] => Some None
  | c :: rest =>
      if (c =? hash)%N && forallb (fun d => negb (is_line_terminator d)) rest
      then Some (Some rest)
      else None
  end.

Definition match_uri (value : Js.str) : option uri_match :=
  let (g2, rest1) := scheme_group value in
  let (g4, rest2) := authority_group rest1 in
  let g5 := take_while (not_in [question; hash]) rest2 in
  let rest3 := drop_while (not_in [question; hash]) rest2 in
  let (g7, rest4) := query_group rest3 in
  match fragment_group rest4 with
  | Some g9 => Some (mkMatch g2 g4 g5 g7 g9)
  | None => None
  end.

(** [group || ''] *)
Definition or_empty (group : option Js.str) : Js.str :=
  match group with
  | Some s => s
  | None => []
  end.

(** [Uri.parse(value, strict)]; a missing [strict] is [false]. *)
Definition parse (value : Js.str) (strict : bool) : outcome Uri :=
  match match_uri value with
  | None =>
      if strict then Thrown (Js.lit "Invalid URI: " ++ value)
      else Returned (mkUri [] [] value [] [])
  | Some m =>
      Returned (mkUri (or_empty (group2 m)) (or_empty (group4 m)) (group5 m)
                      (or_empty (group7 m)) (or_empty (group9 m)))
  end.

(** [path.replace] of every backslash by a slash. *)
Definition replace_backslashes (path : Js.str) : Js.str :=
  map (fun c => if (c =? backslash)%N then slash else c) path.

(** [Uri.file(path)] *)
Definition file (path : Js.str) : Uri :=
  mkUri (Js.lit "file") [] (replace_backslashes path) [] [].

Definition fsPath (this : Uri) : Js.str :=
  if list_eq_dec N.eq_dec (scheme this) (Js.lit "file") then path this
  else path this.

(** A delimited component as the value holds it: nothing for a group that
    did not take part in the match. *)
Definition written (before : Js.str) (group : option Js.str) (after : Js.str) : Js.str :=
  match group with
  | Some s => before ++ s ++ after
  | None => []
  end.

(** A component between its delimiters as [toString] writes it: nothing
    for the empty string. *)
Definition delimited (before s after : Js.str) : Js.str :=
  match s with
  | [] => []
  | _ => before ++ s ++ after
  end.

(** A string whose first code unit, if any, fails [p]. *)
Definition stops (p : Js.char -> bool) (s : Js.str) : Prop :=
  match s with
  | [] => True
  | c :: _ => p c = false
  end.

(** A string that is empty or begins with a question mark or a hash. *)
Definition begins_query_or_fragment (s : Js.str) : Prop :=
  match s with
  | [] => True
  | c :: _ => c = question \/ c = hash
  end.

(** [result += part] when [guard] is not the empty string. *)
Definition add_if (guard : Js.str) (part : Js.str) (result : Js.str) : Js.str :=
  match guard with
  | [] => result
  | _ => result ++ part
  end.

Definition toString (this : Uri) : Js.str :=
  let result := [] in
  let result := add_if (scheme this) (scheme this ++ [colon]) result in
  let result := add_if (authority this) ([slash; slash] ++ authority this) result in
  let result := add_if (path this) (path this) result in
  let result := add_if (query this) ([question] ++ query this) result in
  let result := add_if (fragment this) ([hash] ++ fragment this) result in
  result.

(** A path that begins like a scheme: a non-empty run without [:/?#], then
    a colon. *)
Definition begins_like_scheme (path : Js.str) : bool :=
  match take_while (not_in [colon; slash; question; hash]) path,
        drop_while (not_in [colon; slash; question; hash]) path with
  | _ :: _, c :: _ => (c =? colon)%N
  | _, _ => false
  end.

Definition begins_with_two_slashes (path : Js.str) : bool :=
  match path with
  | a :: b :: _ => ((a =? slash) && (b =? slash))%N
  | _ => false
  end.

Definition begins_with_slash (path : Js.str) : bool :=
  match path with
  | a :: _ => (a =? slash)%N
  | [] => true
  end.

Definition is_empty (s : Js.str) : bool :=
  match s with
  | [] => true
  | _ => false
  end.

(** The components that [toString] writes without ambiguity: no component
    holds a delimiter that ends it, a path after an authority is empty or
    begins with a slash, a path without authority does not begin with two
    slashes, and a path without scheme and authority does not begin like a
    scheme. *)
Definition unambiguous (u : Uri) : bool :=
  forallb (not_in [colon; slash; question; hash]) (scheme u)
  && forallb (not_in [slash; question; hash]) (authority u)
  && forallb (not_in [question; hash]) (path u)
  && forallb (not_in [hash]) (query u)
  && forallb (fun d => negb (is_line_terminator d)) (fragment u)
  && (if is_empty (authority u)
      then negb (begins_with_two_slashes (path u))
      else begins_with_slash (path u))
  && (if is_empty (scheme u) && is_empty (authority u)
      then negb (begins_like_scheme (path u))
      else true).

Definition is_some_empty (group : option Js.str) : bool :=
  match group with
  | Some [] => true
  | _ => false
  end.

(** A value in which two slashes, a question mark or a hash is followed by
    an empty authority, query or fragment. *)
Definition delimits_nothing (value : Js.str) : bool :=
  match match_uri value with
  | Some m =>
      is_some_empty (group4 m) || is_some_empty (group7 m) || is_some_empty (group9 m)
  | None => false
  end.

End Types.

(** ** More on the file context tracker and on the expansion of files *)

Module FileContextMore.

Import FileContext.

(** [k] calls of [expand()] in a row. *)
Definition expand_times (k : nat) (t : FileContextTracker) : FileContextTracker :=
  Nat.iter k expand t.

(** What holds of a tracker with focus line [f] after [k] calls of
    [expand()]: it holds the [n] lines from index [lo], as many as there were
    calls until the file is exhausted; the cursors sit at the ends of the
    slice; the lines are taken below and above the focus line in turn until
    one end of the file is reached; and the tracker is done exactly when it
    holds the whole file. *)
Definition progress_inv (f : Z) (k : nat) (t : FileContextTracker) : Prop :=
  let len := Z.of_nat (length (allLines t)) in
  exists (lo : Z) (n : nat),
    lines t = slice (allLines t) (Z.to_nat lo) n
    /\ 0 <= lo /\ lo + Z.of_nat n <= len
    /\ n = Nat.min k (length (allLines t))
    /\ (n <> O -> lo <= f < lo + Z.of_nat n)
    /\ match nextLineIs t with
       | above =>
           aboveLine t = lo - 1 /\ belowLine t = lo + Z.of_nat n - 1
           /\ (n = O -> lo = f + 1)
           /\ (n <> O -> 1 <= lo
                         /\ (lo + Z.of_nat n - 1 - f = f - lo + 1
                             \/ lo + Z.of_nat n = len))
       | below =>
           aboveLine t = lo /\ belowLine t = lo + Z.of_nat n
           /\ n <> O /\ lo + Z.of_nat n < len
           /\ (lo + Z.of_nat n - 1 - f = f - lo \/ lo = 0)
       | none => lo = 0 /\ Z.of_nat n = len
       end.

(** The header, the whole content and the footer of a file. *)
Definition whole_file (file : IFilesToInclude) : Js.str :=
  prefix (new_FileContextTracker file) ++ content file
  ++ suffix (new_FileContextTracker file).

(** The cost of the whole of a file, measured as [getExpandedFiles]
    measures: header, footer and every line with its line break. *)
Definition whole_file_tokens (sizing : PromptSizing) (file : IFilesToInclude) : Z :=
  tokenCount (new_FileContextTracker file) sizing
  + fold_right Z.add 0
      (map (fun l => countTokens sizing (l ++ [Js.LF])) (Js.split_lines (content file))).

Definition whole_tokens (sizing : PromptSizing) (files : list IFilesToInclude) : Z :=
  fold_right Z.add 0 (map (whole_file_tokens sizing) files).

(** A file whose focus line is one of its lines. *)
Definition focus_in_file (file : IFilesToInclude) : Prop :=
  0 <= focus_of file < Z.of_nat (length (Js.split_lines (content file))).

(** [t] is the tracker of [file] after some calls of [expand()]. *)
Definition tracks (file : IFilesToInclude) (t : FileContextTracker) : Prop :=
  exists k, t = expand_times k (new_FileContextTracker file).

(** [t] comes from [t0] by some calls of [expand()]. *)
Definition expanded_from (t0 t : FileContextTracker) : Prop :=
  exists k, t = expand_times k t0.

(** How [getExpandedFiles] can stop: no file has a line left to take, or
    the next line of some file does not fit on top of the content. *)
Definition exhausted (fs : list FileContextTracker) : Prop :=
  Forall (fun t => nextLine t = None) fs.

Definition blocked (sizing : PromptSizing) (fs : list FileContextTracker) : Prop :=
  exists t s,
    In t fs /\ nextLine t = Some s
    /\ content_tokens sizing fs + countTokens sizing s > tokenBudget sizing.

(** A tracker in round [r] of the loop of [getExpandedFiles]: it holds [r]
    lines, or it has no line left and holds at most [r]. *)
Definition level (r : nat) (t : FileContextTracker) : Prop :=
  length (lines t) = r \/ (nextLine t = None /\ (length (lines t) <= r)%nat).

(** The trackers as a round leaves them: those visited are one round ahead
    of those not visited yet. *)
Definition in_round (r : nat) (fs : list FileContextTracker) : Prop :=
  exists visited waiting,
    fs = visited ++ waiting
    /\ Forall (level (S r)) visited /\ Forall (level r) waiting.

End FileContextMore.

(** * Properties *)

(** ** The simple tokenizer *)

Section TokenizerFacts.

Import Tokenizer.

Lemma ceil_div_is_ceiling (a : Z) :
  4 * (Js.ceil_div a 4 - 1) < a <= 4 * Js.ceil_div a 4.
Proof.
  unfold Js.ceil_div.
  pose proof (Z.div_mod (- a) 4 ltac:(discriminate)) as E.
  pose proof (Z.mod_pos_bound (- a) 4 ltac:(reflexivity)) as B.
  lia.
Qed.

Lemma ceil_div_pos (a : Z) : 1 <= a -> 1 <= Js.ceil_div a 4.
Proof.
  intros Ha. pose proof (ceil_div_is_ceiling a). lia.
Qed.

Lemma ceil_div_nonneg (a : Z) : 0 <= a -> 0 <= Js.ceil_div a 4.
Proof.
  intros Ha. pose proof (ceil_div_is_ceiling a). lia.
Qed.

Lemma split_length_cur in_sep cur cur' s :
  length (Js.split_space_from in_sep cur s) = length (Js.split_space_from in_sep cur' s).
Proof.
  revert in_sep cur cur'.
  induction s as [|c s IH]; intros in_sep cur cur'; simpl; [reflexivity|].
  destruct (Js.is_space c), in_sep; simpl; auto.
Qed.

Lemma ends_in_word_cons c s :
  ends_in_word (c :: s) = true -> s = [] \/ (s <> [] /\ ends_in_word s = true).
Proof.
  destruct s as [|d s]; [now left|]. intros H. right. split; [discriminate|exact H].
Qed.

Lemma split_counts_words s :
  ends_in_word s = true ->
  (forall cur, length (Js.split_space_from false cur s) = S (count_words_from true s))
  /\ (s <> [] -> forall cur,
        length (Js.split_space_from true cur s) = count_words_from false s).
Proof.
  induction s as [|c s IH]; intros Hend.
  - split; [reflexivity|]. intros H; now elim H.
  - destruct (ends_in_word_cons _ _ Hend) as [-> | [Hne Hs]].
    + simpl in Hend. simpl. destruct (Js.is_space c); [discriminate|].
      split; reflexivity.
    + destruct (IH Hs) as [IHa IHb]. specialize (IHb Hne).
      split; [|intros _]; intros cur; simpl; destruct (Js.is_space c); simpl;
        rewrite ?IHa, ?IHb; reflexivity.
Qed.

Lemma drop_space_split s :
  exists p, s = p ++ Js.drop_space s /\ forallb Js.is_space p = true.
Proof.
  induction s as [|c s [p [E F]]]; simpl.
  - exists []. split; reflexivity.
  - destruct (Js.is_space c) eqn:Hc.
    + exists (c :: p). simpl. rewrite Hc, F. split; [now f_equal|reflexivity].
    + exists []. split; reflexivity.
Qed.

Lemma drop_space_head s :
  match Js.drop_space s with
  | [] => True
  | c :: _ => Js.is_space c = false
  end.
Proof.
  induction s as [|c s IH]; simpl; [exact I|].
  destruct (Js.is_space c) eqn:Hc; [exact IH|exact Hc].
Qed.

Lemma ends_in_word_snoc s c :
  ends_in_word (s ++ [c]) = negb (Js.is_space c).
Proof.
  induction s as [|d s IH]; simpl; [reflexivity|].
  destruct (s ++ [c]) eqn:E; [now destruct s|exact IH].
Qed.

Lemma trim_ends_in_word s : ends_in_word (Js.trim s) = true.
Proof.
  unfold Js.trim.
  pose proof (drop_space_head (rev (Js.drop_space s))) as H.
  destruct (Js.drop_space (rev (Js.drop_space s))) as [|c u]; [reflexivity|].
  simpl. rewrite ends_in_word_snoc, H. reflexivity.
Qed.

Lemma trim_head s :
  match Js.trim s with
  | [] => True
  | c :: _ => Js.is_space c = false
  end.
Proof.
  unfold Js.trim.
  destruct (drop_space_split (rev (Js.drop_space s))) as [p [E F]].
  pose proof (drop_space_head s) as H.
  apply (f_equal (@rev _)) in E. rewrite rev_involutive, rev_app_distr in E.
  destruct (rev (Js.drop_space (rev (Js.drop_space s)))) as [|c u] eqn:Eu; [exact I|].
  rewrite E in H. exact H.
Qed.

Lemma split_trim_words s :
  Js.trim s <> [] ->
  length (Js.split_space (Js.trim s)) = count_words (Js.trim s).
Proof.
  intros Hne. pose proof (trim_head s) as Hh. pose proof (trim_ends_in_word s) as He.
  unfold Js.split_space, count_words.
  destruct (Js.trim s) as [|c u]; [now elim Hne|].
  destruct (ends_in_word_cons _ _ He) as [-> | [Hu Hs]].
  - simpl. rewrite Hh. reflexivity.
  - simpl. rewrite Hh. apply (split_counts_words u Hs).
Qed.

Lemma estimateTokenCount_words c s :
  estimateTokenCount (c :: s)
  = Z.max (Z.of_nat (count_words (Js.trim (c :: s))))
          (Js.ceil_div (Z.of_nat (length (c :: s))) 4).
Proof.
  unfold estimateTokenCount.
  assert (Hc : 1 <= Js.ceil_div (Z.of_nat (length (c :: s))) 4).
  { apply ceil_div_pos. simpl length. lia. }
  set (q := Js.ceil_div (Z.of_nat (length (c :: s))) 4) in *.
  destruct (Js.trim (c :: s)) as [|d u] eqn:Et.
  - cbn [Js.split_space Js.split_space_from rev length count_words count_words_from].
    lia.
  - rewrite <- Et. rewrite split_trim_words; [reflexivity|].
    rewrite Et. discriminate.
Qed.

End TokenizerFacts.

Section TokenizerClaims.

Import Tokenizer.

(** C6. [SimpleTokenizer.tokenLength] and [SimpleTokenizer.countMessageTokens]
    are pure and deterministic: on equal parts, respectively equal messages,
    two calls return equal counts, whether on one instance or on two, and a
    call leaves its receiver as it was. *)
Theorem simple_tokenizer_pure_deterministic
    (t1 t2 : SimpleTokenizer)
    (p1 p2 : Raw.ChatCompletionContentPart)
    (m1 m2 : LanguageModelChatMessage) :
  p1 = p2 -> m1 = m2 ->
  fst (tokenLength t1 p1) = fst (tokenLength t2 p2)
  /\ fst (countMessageTokens t1 m1) = fst (countMessageTokens t2 m2)
  /\ snd (tokenLength t1 p1) = t1
  /\ snd (countMessageTokens t1 m1) = t1.
Proof.
  intros -> ->. unfold tokenLength, countMessageTokens.
  destruct (Raw.type p2 =? Raw.ChatCompletionContentPartKind_Text); simpl; auto.
Qed.

Lemma simple_tokenizer_pure_deterministic_witness :
  let p := Raw.mkPart 1 (Js.lit "Hello world") in
  let m := mkMessage RoleUser (Js.lit "Test message for token counting") None in
  fst (tokenLength new_SimpleTokenizer p) = fst (tokenLength (mkSimple OutputMode.VSCode) p)
  /\ fst (countMessageTokens new_SimpleTokenizer m)
     = fst (countMessageTokens (mkSimple OutputMode.VSCode) m)
  /\ snd (tokenLength new_SimpleTokenizer p) = new_SimpleTokenizer
  /\ snd (countMessageTokens new_SimpleTokenizer m) = new_SimpleTokenizer.
Proof.
  intros p m.
  apply (simple_tokenizer_pure_deterministic
           new_SimpleTokenizer (mkSimple OutputMode.VSCode) p p m m);
    reflexivity.
Defined.

(** C7. [SimpleTokenizer.tokenLength(p)] is a nonnegative integer: 0 when
    [p] is not a text part or its text is empty, and otherwise
    [max(w, ceil(c / 4))], where [w] is the number of words of the trimmed
    text, words being separated by white space, and [c] is the length of the
    text; this is at least 1. *)
Theorem tokenLength_is_max_words_quarter_chars
    (this : SimpleTokenizer) (p : Raw.ChatCompletionContentPart) :
  let n := fst (tokenLength this p) in
  let w := Z.of_nat (count_words (Js.trim (Raw.text p))) in
  let c := Z.of_nat (length (Raw.text p)) in
  0 <= n
  /\ (Raw.type p <> Raw.ChatCompletionContentPartKind_Text \/ Raw.text p = [] -> n = 0)
  /\ (Raw.type p = Raw.ChatCompletionContentPartKind_Text -> Raw.text p <> [] ->
      n = Z.max w (Js.ceil_div c 4) /\ 1 <= n).
Proof.
  cbv zeta. unfold tokenLength.
  destruct (Z.eqb_spec (Raw.type p) Raw.ChatCompletionContentPartKind_Text) as [E|E];
    cbn [fst].
  - destruct (Raw.text p) as [|c s] eqn:Et.
    + simpl. split; [lia|]. split; [reflexivity|]. intros _ H. now elim H.
    + rewrite estimateTokenCount_words.
      assert (Hq : 1 <= Js.ceil_div (Z.of_nat (length (c :: s))) 4).
      { apply ceil_div_pos. simpl length. lia. }
      split; [lia|]. split.
      * intros [H|H]; [now elim H|discriminate].
      * intros _ _. split; [reflexivity|lia].
  - split; [lia|]. split; [reflexivity|]. intros H. now elim E.
Qed.

Lemma tokenLength_is_max_words_quarter_chars_witness :
  let p := Raw.mkPart Raw.ChatCompletionContentPartKind_Text (Js.lit "Hello world") in
  fst (tokenLength new_SimpleTokenizer p) = Z.max 2 3
  /\ 1 <= fst (tokenLength new_SimpleTokenizer p).
Proof.
  intros p.
  apply (tokenLength_is_max_words_quarter_chars new_SimpleTokenizer p);
    [reflexivity|discriminate].
Defined.

(** C10. The constructors of [StandaloneTokenizer] and of [VSCodeTokenizer]
    throw exactly when [mode] is not [OutputMode.VSCode], and an instance
    that was constructed has [OutputMode.VSCode] in its [mode] field. *)
Theorem tokenizer_constructors_require_vscode
    (countTokens : Js.str + LanguageModelChatMessage -> Z) (mode : Z) :
  match new_StandaloneTokenizer countTokens mode with
  | Js.Throw _ => mode <> OutputMode.VSCode
  | Js.Normal t => mode = OutputMode.VSCode /\ st_mode t = OutputMode.VSCode
  end
  /\ match new_VSCodeTokenizer countTokens mode with
     | Js.Throw _ => mode <> OutputMode.VSCode
     | Js.Normal t => mode = OutputMode.VSCode /\ vs_mode t = OutputMode.VSCode
     end.
Proof.
  unfold new_StandaloneTokenizer, new_VSCodeTokenizer.
  destruct (Z.eqb_spec mode OutputMode.VSCode) as [E|E]; simpl; auto.
Qed.

End TokenizerClaims.

(** ** The conversion to standalone chat messages *)

Section StandaloneClaims.

Import Standalone.

Lemma onlyStringContent_text_parts content :
  onlyStringContent content = text_parts content.
Proof.
  unfold onlyStringContent.
  induction content as [|part rest IH]; simpl; [reflexivity|].
  destruct (Raw.type part =? Raw.ChatCompletionContentPartKind_Text); simpl;
    now rewrite IH.
Qed.

Lemma converted_role_in_vocabulary m r :
  toStandaloneChatMessage m = Some r ->
  In (role r) vocabulary /\ In (role_value (role r)) [1; 2; 3].
Proof.
  unfold toStandaloneChatMessage, vocabulary.
  destruct (Raw.role m); intros [= <-]; simpl; auto 6.
Qed.

Lemma as_defined_filter_map {A B : Type} (f : A -> option B) (l : list A) :
  map Some (as_defined (filter truthy (map f l)))
  = map f (filter (fun a => truthy (f a)) l).
Proof.
  induction l as [|a l IH]; simpl; [reflexivity|].
  destruct (f a) eqn:E; simpl; rewrite ?E, IH; reflexivity.
Qed.

Lemma in_toStandaloneChatMessages r ms :
  In r (toStandaloneChatMessages ms) ->
  exists m, In m ms /\ toStandaloneChatMessage m = Some r.
Proof.
  unfold toStandaloneChatMessages. intros H.
  apply (in_map Some) in H. rewrite as_defined_filter_map in H.
  apply in_map_iff in H. destruct H as [m [E Hm]].
  apply filter_In in Hm. exists m. tauto.
Qed.

(** C4. The role vocabulary has exactly the three roles System, User and
    Assistant, which are pairwise distinct, as are their numeric values;
    every message that [toStandaloneChatMessage] returns, and so every
    element of the result of [toStandaloneChatMessages], has one of them as
    its role. *)
Theorem standalone_roles_are_the_three_roles :
  (forall r : LanguageModelChatMessageRole, In r vocabulary)
  /\ length vocabulary = 3%nat
  /\ NoDup vocabulary
  /\ NoDup (map role_value vocabulary)
  /\ (forall m : Raw.ChatMessage,
        match toStandaloneChatMessage m with
        | Some r => In (role r) vocabulary /\ In (role_value (role r)) [1; 2; 3]
        | None => True
        end)
  /\ (forall ms : list Raw.ChatMessage,
        Forall (fun r => In (role r) vocabulary /\ In (role_value (role r)) [1; 2; 3])
               (toStandaloneChatMessages ms)).
Proof.
  split; [intros []; unfold vocabulary; simpl; auto|].
  split; [reflexivity|].
  split.
  { unfold vocabulary. repeat constructor; simpl; intuition discriminate. }
  split.
  { unfold vocabulary. repeat constructor; simpl; intuition discriminate. }
  split.
  - intros m. destruct (toStandaloneChatMessage m) as [r|] eqn:E; [|exact I].
    exact (converted_role_in_vocabulary m r E).
  - intros ms. apply Forall_forall. intros r Hr.
    destruct (in_toStandaloneChatMessages r ms Hr) as [m [_ E]].
    exact (converted_role_in_vocabulary m r E).
Qed.

(** C8. A raw message with role Tool is converted to a User message whose
    content is "Tool result: " followed by the concatenation of the text
    parts of the raw message; a raw message whose role is none of Assistant,
    User, System and Tool is converted to [undefined];
    [toStandaloneChatMessages] drops exactly these and keeps the other
    converted messages in their order. *)
Theorem tool_messages_and_dropped_messages
    (m : Raw.ChatMessage) (ms : list Raw.ChatMessage) :
  (Raw.role m = Raw.Tool ->
   toStandaloneChatMessage m
   = Some (mkMessage RoleUser
             (Js.lit "Tool result: " ++ text_parts (Raw.content m)) (Raw.name m)))
  /\ (Raw.role m <> Raw.Assistant -> Raw.role m <> Raw.User ->
      Raw.role m <> Raw.System -> Raw.role m <> Raw.Tool ->
      toStandaloneChatMessage m = None)
  /\ (toStandaloneChatMessage m = None -> listed (Raw.role m) = false)
  /\ map Some (toStandaloneChatMessages ms)
     = map toStandaloneChatMessage (filter (fun m' => listed (Raw.role m')) ms).
Proof.
  split; [|split; [|split]].
  - unfold toStandaloneChatMessage. intros ->.
    now rewrite onlyStringContent_text_parts.
  - unfold toStandaloneChatMessage. destruct (Raw.role m); congruence.
  - unfold toStandaloneChatMessage. destruct (Raw.role m); simpl; congruence.
  - unfold toStandaloneChatMessages. rewrite as_defined_filter_map.
    f_equal. apply filter_ext. intros a.
    unfold toStandaloneChatMessage. now destruct (Raw.role a).
Qed.

Lemma tool_messages_and_dropped_messages_witness :
  let tool :=
    Raw.mkChatMessage Raw.Tool
      [Raw.mkPart 1 (Js.lit "4"); Raw.mkPart 0 []; Raw.mkPart 1 (Js.lit "2")] None in
  let odd := Raw.mkChatMessage (Raw.Unlisted 7) [Raw.mkPart 1 (Js.lit "x")] None in
  let user := Raw.mkChatMessage Raw.User [Raw.mkPart 1 (Js.lit "hi")] None in
  toStandaloneChatMessage tool
  = Some (mkMessage RoleUser (Js.lit "Tool result: 42") None)
  /\ toStandaloneChatMessage odd = None
  /\ toStandaloneChatMessages [odd; tool; odd; user]
     = [mkMessage RoleUser (Js.lit "Tool result: 42") None;
        mkMessage RoleUser (Js.lit "hi") None].
Proof.
  intros tool odd user.
  split; [|split].
  - apply (proj1 (tool_messages_and_dropped_messages tool [])). reflexivity.
  - apply (proj1 (proj2 (tool_messages_and_dropped_messages odd []))); discriminate.
  - reflexivity.
Defined.

End StandaloneClaims.


(** ** The file context tracker *)

Section TrackerFacts.

Import FileContext.

Lemma skipn_nth_error {A : Type} (a : list A) (i : nat) :
  (i < length a)%nat ->
  exists x, nth_error a i = Some x /\ skipn i a = x :: skipn (S i) a.
Proof.
  revert i. induction a as [|y a IH]; intros i Hi; simpl in Hi; [lia|].
  destruct i as [|i]; simpl.
  - exists y. split; reflexivity.
  - apply IH. lia.
Qed.

Lemma slice_cons a i n :
  (i < length a)%nat ->
  slice a i (S n) = nth_error a i :: slice a (S i) n.
Proof.
  intros Hi. unfold slice.
  destruct (skipn_nth_error a i Hi) as [x [E1 E2]].
  rewrite E2, E1. reflexivity.
Qed.

Lemma firstn_snoc {A : Type} (l : list A) (n : nat) :
  (n < length l)%nat ->
  exists x, nth_error l n = Some x /\ firstn (S n) l = firstn n l ++ [x].
Proof.
  revert n. induction l as [|y l IH]; intros n Hn; simpl in Hn; [lia|].
  destruct n as [|n].
  - exists y. split; reflexivity.
  - destruct (IH n ltac:(lia)) as [x [E1 E2]].
    exists x. split; [exact E1|].
    change (firstn (S (S n)) (y :: l)) with (y :: firstn (S n) l).
    rewrite E2. reflexivity.
Qed.

Lemma slice_snoc a lo n :
  (lo + n < length a)%nat ->
  slice a lo (S n) = slice a lo n ++ [nth_error a (lo + n)].
Proof.
  intros H. unfold slice.
  destruct (firstn_snoc (skipn lo a) n) as [x [E1 E2]].
  { rewrite length_skipn. lia. }
  rewrite E2, map_app. simpl. rewrite nth_error_skipn in E1. now rewrite E1.
Qed.

Lemma index_nth_error a i :
  0 <= i < Z.of_nat (length a) -> index a i = nth_error a (Z.to_nat i).
Proof.
  intros H. unfold index.
  destruct (Z.leb_spec 0 i), (Z.ltb_spec i (Z.of_nat (length a))); simpl;
    try reflexivity; lia.
Qed.

Lemma index_defined a i :
  0 <= i < Z.of_nat (length a) -> exists x, index a i = Some x /\ In x a.
Proof.
  intros H. rewrite (index_nth_error a i H).
  destruct (nth_error a (Z.to_nat i)) as [x|] eqn:E.
  - exists x. split; [reflexivity|]. now apply nth_error_In with (n := Z.to_nat i).
  - apply nth_error_None in E. lia.
Qed.

(** What one [expand] call does, told by the index it reads. *)
Lemma expand_reads t i :
  expand_index t = Some i ->
  nextLine t = Some (plus (index (allLines t) i) [Js.LF])
  /\ lines (expand t)
     = (if is_above (nextLineIs t)
        then index (allLines t) i :: lines t
        else lines t ++ [index (allLines t) i])
  /\ allLines (expand t) = allLines t
  /\ prefix (expand t) = prefix t
  /\ suffix (expand t) = suffix t.
Proof.
  unfold expand_index, expand, nextLine.
  destruct (nextLineIs t) eqn:En; simpl.
  - destruct (aboveLine t >=? 0) eqn:Ea; [|discriminate].
    intros [= <-].
    destruct (belowLine t <? Z.of_nat (length (allLines t)) - 1);
      [|destruct (aboveLine t >? 0)]; simpl; auto.
  - destruct (belowLine t <? Z.of_nat (length (allLines t))) eqn:Eb; [|discriminate].
    intros [= <-].
    destruct (aboveLine t >? 0);
      [|destruct (belowLine t <? Z.of_nat (length (allLines t)) - 1)]; simpl; auto.
  - discriminate.
Qed.

Lemma expand_reads_nothing t :
  expand_index t = None -> nextLine t = None /\ expand t = t.
Proof.
  unfold expand_index, expand, nextLine.
  destruct (nextLineIs t) eqn:En; simpl.
  - destruct (aboveLine t >=? 0); [discriminate|auto].
  - destruct (belowLine t <? Z.of_nat (length (allLines t))); [discriminate|auto].
  - auto.
Qed.

Lemma nextLine_expand_index t :
  nextLine t = None <-> expand_index t = None.
Proof.
  split.
  - destruct (expand_index t) as [i|] eqn:E; [|reflexivity].
    destruct (expand_reads t i E) as [H _]. congruence.
  - intros E. apply (expand_reads_nothing t E).
Qed.

End TrackerFacts.

Section TrackerInvariant.

Import FileContext.

Lemma NoDup_snoc {A : Type} (l : list A) (x : A) :
  NoDup l -> ~ In x l -> NoDup (l ++ [x]).
Proof.
  intros Hl Hx. apply NoDup_rev in Hl.
  rewrite <- (rev_involutive (l ++ [x])). apply NoDup_rev.
  rewrite rev_app_distr. simpl. constructor; [|exact Hl].
  now rewrite <- in_rev.
Qed.

Lemma tracker_inv_new file :
  focus_of file < Z.of_nat (length (allLines (new_FileContextTracker file))) ->
  tracker_inv (focus_of file) (new_FileContextTracker file, []).
Proof.
  intros Hf. unfold focus_of in *. unfold tracker_inv.
  set (t := new_FileContextTracker file) in *.
  exists (aboveLine t + 1), O. cbn [fst snd].
  assert (El : lines t = []) by reflexivity.
  assert (En : nextLineIs t = above) by reflexivity.
  assert (Eb : belowLine t = aboveLine t) by reflexivity.
  rewrite El, En, Eb. clearbody t.
  split; [reflexivity|]. split; [lia|]. split; [intros H; now elim H|].
  split; [constructor|]. split; [|lia].
  intros i. simpl. lia.
Qed.

Lemma tracker_inv_expand f t added :
  tracker_inv f (t, added) ->
  tracker_inv f (tracker_step (t, added) CallExpand).
Proof.
  unfold tracker_inv, tracker_step. cbn [fst snd].
  intros (lo & n & Hl & Hle & Hf & Hnd & Hin & Hc).
  destruct (expand_index t) as [i|] eqn:Ei.
  2:{ rewrite (proj2 (expand_reads_nothing t Ei)). exists lo, n. auto 10. }
  destruct (expand_reads t i Ei) as (_ & Hlines & Hall & _).
  rewrite Hall, Hlines.
  assert (Hfresh : NoDup (added ++ [i]) <-> ~ (lo <= i < lo + Z.of_nat n)).
  { split.
    - intros H Hi. apply Hin in Hi.
      apply NoDup_remove_2 with (l' := []) in H. rewrite app_nil_r in H. tauto.
    - intros Hi. apply NoDup_snoc; [exact Hnd|]. now rewrite Hin. }
  unfold expand_index in Ei. unfold expand.
  destruct (nextLineIs t) eqn:En; cbn [is_above is_below andb] in *.
  - (* above *)
    destruct Hc as (Ha & Hb & Hn0).
    destruct (Z.geb_spec (aboveLine t) 0) as [Hge|]; [|discriminate].
    injection Ei as <-.
    assert (Hslice : index (allLines t) (aboveLine t) :: lines t
                     = slice (allLines t) (Z.to_nat (lo - 1)) (S n)).
    { rewrite slice_cons by lia. rewrite index_nth_error by lia.
      rewrite Hl, Ha. do 2 f_equal. lia. }
    exists (lo - 1), (S n).
    split; [exact Hslice|]. split; [lia|].
    split. { intros _. destruct n; [specialize (Hn0 eq_refl)|]; lia. }
    split. { apply Hfresh. lia. }
    split. { intros j. rewrite in_app_iff, Hin. simpl. lia. }
    destruct (Z.ltb_spec (belowLine t) (Z.of_nat (length (allLines t)) - 1));
      [|destruct (Z.gtb_spec (aboveLine t) 0)]; cbn; repeat split; lia.
  - (* below *)
    destruct Hc as (Ha & Hb & Hn0 & Hlt).
    destruct (Z.ltb_spec (belowLine t) (Z.of_nat (length (allLines t)))) as [Hb'|];
      [|discriminate].
    injection Ei as <-.
    specialize (Hf Hn0).
    assert (Hslice : lines t ++ [index (allLines t) (belowLine t)]
                     = slice (allLines t) (Z.to_nat lo) (S n)).
    { rewrite slice_snoc by lia. rewrite index_nth_error by lia.
      rewrite Hl, Hb. do 3 f_equal. lia. }
    exists lo, (S n).
    split; [exact Hslice|]. split; [lia|].
    split; [lia|].
    split. { apply Hfresh. lia. }
    split. { intros j. rewrite in_app_iff, Hin. simpl. lia. }
    destruct (Z.gtb_spec (aboveLine t) 0);
      [|destruct (Z.ltb_spec (belowLine t) (Z.of_nat (length (allLines t)) - 1))];
      cbn; repeat split; lia.
  - discriminate.
Qed.

Lemma tracker_step_allLines st c :
  allLines (fst (tracker_step st c)) = allLines (fst st).
Proof.
  destruct c; simpl; [reflexivity|].
  destruct (expand_index (fst st)) as [i|] eqn:Ei.
  - apply (expand_reads _ i Ei).
  - now rewrite (proj2 (expand_reads_nothing _ Ei)).
Qed.

Lemma tracker_inv_run f cs st :
  tracker_inv f st ->
  tracker_inv f (fold_left tracker_step cs st)
  /\ allLines (fst (fold_left tracker_step cs st)) = allLines (fst st).
Proof.
  revert st. induction cs as [|c cs IH]; intros st Hst; simpl; [auto|].
  assert (Hstep : tracker_inv f (tracker_step st c)).
  { destruct c; [exact Hst|]. destruct st as [t added].
    now apply tracker_inv_expand. }
  destruct (IH _ Hstep) as [H1 H2]. split; [exact H1|].
  now rewrite H2, tracker_step_allLines.
Qed.

End TrackerInvariant.

Section TrackerClaims.

Import FileContext.

Lemma split_lines_from_nonempty cur s : Js.split_lines_from cur s <> [].
Proof.
  revert cur. induction s as [|c s IH]; intros cur; simpl; [discriminate|].
  destruct (c =? Js.LF)%N; [discriminate|apply IH].
Qed.

(** X12. The default focus line, the middle line, is a line of the file. *)
Lemma default_focus_in_file file :
  focusLine file = None ->
  0 <= focus_of file < Z.of_nat (length (Js.split_lines (content file))).
Proof.
  intros E. unfold focus_of, new_FileContextTracker. rewrite E. cbn [aboveLine].
  pose proof (split_lines_from_nonempty [] (content file)) as H.
  unfold Js.split_lines.
  destruct (Js.split_lines_from [] (content file)) as [|l ls]; [now elim H|].
  set (n := Z.of_nat (length (l :: ls))).
  assert (1 <= n) by (unfold n; simpl length; lia).
  split; [apply Z.div_pos; lia|apply Z.div_lt_upper_bound; lia].
Qed.

Lemma slice_length a lo n :
  (lo + n <= length a)%nat -> length (slice a lo n) = n.
Proof.
  intros H. unfold slice. rewrite length_map, length_firstn, length_skipn. lia.
Qed.

(** C9, for a focus line that is not past the end of the file. After any
    sequence of [nextLine()] and [expand()] calls, the lines of the tracker are
    a contiguous slice of the lines of the file which, once it is not empty,
    holds the focus line; no index was added twice; when [nextLine()] returns
    a line (the text of the line and a line break), the next [expand()] adds
    that line of the file, at the front or at the back, and when it returns
    [undefined], [expand()] changes nothing. *)
Theorem tracker_lines_slice_around_focus
    (file : IFilesToInclude) (cs : list tracker_call) :
  let all := Js.split_lines (content file) in
  let t := fst (tracker_run (new_FileContextTracker file) cs) in
  let added := snd (tracker_run (new_FileContextTracker file) cs) in
  focus_of file < Z.of_nat (length all) ->
  (exists lo n : nat,
      lines t = slice all lo n
      /\ length (lines t) = n
      /\ (lo + n <= length all)%nat
      /\ (n <> O -> Z.of_nat lo <= focus_of file < Z.of_nat (lo + n)))
  /\ NoDup added
  /\ match nextLine t with
     | Some s =>
         exists line,
           s = line ++ [Js.LF] /\ In line all
           /\ (lines (expand t) = Some line :: lines t
               \/ lines (expand t) = lines t ++ [Some line])
     | None => expand t = t
     end.
Proof.
  intros all t added Hf.
  destruct (tracker_inv_run (focus_of file) cs (new_FileContextTracker file, [])
              (tracker_inv_new file Hf)) as [Hinv Hall].
  fold (tracker_run (new_FileContextTracker file) cs) in Hinv, Hall.
  change (allLines (fst (new_FileContextTracker file, []))) with all in Hall.
  fold t in Hall. unfold tracker_inv in Hinv. fold t added in Hinv.
  rewrite Hall in Hinv.
  destruct Hinv as (lo & n & Hl & Hle & Hfoc & Hnd & Hin & Hc).
  split.
  { exists (Z.to_nat lo), n.
    assert (Hlen : (Z.to_nat lo + n <= length all)%nat) by lia.
    split; [exact Hl|]. split; [rewrite Hl; now apply slice_length|].
    split; [exact Hlen|]. intros Hn. specialize (Hfoc Hn). lia. }
  split; [exact Hnd|].
  destruct (expand_index t) as [i|] eqn:Ei.
  - destruct (expand_reads t i Ei) as (Hnext & Hlines & _).
    rewrite Hnext, Hlines, Hall.
    assert (Hi : 0 <= i < Z.of_nat (length all)).
    { unfold expand_index in Ei. rewrite Hall in Ei.
      destruct (nextLineIs t); cbn [is_above is_below andb] in Ei.
      - destruct (Z.geb_spec (aboveLine t) 0); [|discriminate].
        injection Ei as <-. lia.
      - destruct (Z.ltb_spec (belowLine t) (Z.of_nat (length all))); [|discriminate].
        injection Ei as <-.
        destruct Hc as (_ & Hb & Hn & _). specialize (Hfoc Hn). lia.
      - discriminate. }
    destruct (index_defined all i Hi) as [line [E Hline]].
    rewrite E. exists line. split; [reflexivity|]. split; [exact Hline|].
    destruct (is_above (nextLineIs t)); auto.
  - destruct (expand_reads_nothing t Ei) as [Hnext Hexp].
    rewrite Hnext. exact Hexp.
Qed.

Lemma tracker_lines_slice_around_focus_witness :
  let file :=
    mkFile (Js.lit "a.ts")
      (Js.lit "one" ++ [Js.LF] ++ Js.lit "two" ++ [Js.LF] ++ Js.lit "three"
       ++ [Js.LF] ++ Js.lit "four")
      (Some 1) in
  let cs := [CallNextLine; CallExpand; CallExpand; CallNextLine; CallExpand] in
  let t := fst (tracker_run (new_FileContextTracker file) cs) in
  lines t = [Some (Js.lit "one"); Some (Js.lit "two"); Some (Js.lit "three")]
  /\ NoDup (snd (tracker_run (new_FileContextTracker file) cs))
  /\ lines (expand t)
     = [Some (Js.lit "one"); Some (Js.lit "two"); Some (Js.lit "three");
        Some (Js.lit "four")].
Proof.
  intros file cs t.
  destruct (tracker_lines_slice_around_focus file cs) as (_ & Hnd & _).
  { vm_compute. reflexivity. }
  split; [reflexivity|]. split; [exact Hnd|reflexivity].
Defined.

(** C9 as stated, for every tracker, fails: with a focus line past the end
    of the file, [expand()] adds [undefined], which is no line of the file. *)
Lemma focus_past_end_breaks_slice :
  let file := mkFile (Js.lit "a.ts") (Js.lit "x") (Some 1) in
  let t := fst (tracker_run (new_FileContextTracker file) [CallNextLine; CallExpand]) in
  nextLine (new_FileContextTracker file) = Some (Js.lit "undefined" ++ [Js.LF])
  /\ lines t = [None]
  /\ ~ lines_are_slice t.
Proof.
  intros file t. split; [reflexivity|]. split; [reflexivity|].
  intros (lo & n & H). change (lines t) with (@None Js.str :: []) in H.
  unfold slice in H.
  destruct (firstn n (skipn lo (allLines t))); discriminate H.
Qed.

End TrackerClaims.

(** ** The cooperative expansion of files *)

Section ExpansionFacts.

Import FileContext.

Variable sizing : PromptSizing.

Lemma sum_app (l1 l2 : list Z) :
  fold_right Z.add 0 (l1 ++ l2) = fold_right Z.add 0 l1 + fold_right Z.add 0 l2.
Proof.
  induction l1 as [|x l1 IH]; simpl; [reflexivity|]. rewrite IH. lia.
Qed.

Lemma file_tokens_expand t s :
  nextLine t = Some s ->
  file_tokens sizing (expand t) = file_tokens sizing t + countTokens sizing s.
Proof.
  intros Hs.
  destruct (expand_index t) as [i|] eqn:Ei.
  - destruct (expand_reads t i Ei) as (Hnext & Hlines & _ & Hp & Hq).
    rewrite Hnext in Hs. injection Hs as <-.
    unfold file_tokens, tokenCount. rewrite Hlines, Hp, Hq.
    destruct (is_above (nextLineIs t)); simpl.
    + unfold line_tokens at 1. lia.
    + rewrite map_app, sum_app. simpl. unfold line_tokens at 2. lia.
  - apply nextLine_expand_index in Ei. congruence.
Qed.

Lemma header_tokens_sum files acc :
  fold_left (fun count file => count + tokenCount file sizing) files acc
  = acc + fold_right Z.add 0 (map (fun file => tokenCount file sizing) files).
Proof.
  revert acc. induction files as [|f files IH]; intros acc; simpl; [lia|].
  rewrite IH. lia.
Qed.

Lemma header_tokens_new (files : list IFilesToInclude) :
  header_tokens sizing (map new_FileContextTracker files)
  = content_tokens sizing (map new_FileContextTracker files).
Proof.
  unfold header_tokens, content_tokens. rewrite header_tokens_sum.
  rewrite !map_map. simpl. f_equal. apply map_ext. intros f.
  unfold file_tokens. simpl. lia.
Qed.

(** The counter of [getExpandedFiles] follows the cost of the content, and
    stays within the budget once it is within it. *)
Lemma for_files_tokens files tc any :
  let e := for_files sizing files tc any in
  let grown := content_tokens sizing (files_of e) - content_tokens sizing files in
  (tc <= tokenBudget sizing -> tc + grown <= tokenBudget sizing)
  /\ match e with
     | Done _ tc' _ => tc' = tc + grown
     | Return _ => True
     end.
Proof.
  revert tc any. induction files as [|file rest IH]; intros tc any; cbn zeta.
  - simpl. split; [lia|lia].
  - cbn [for_files].
    destruct (nextLine file) as [s|] eqn:Hs.
    + destruct (Z.gtb_spec (tc + countTokens sizing s) (tokenBudget sizing)) as [Hgt|Hle].
      * simpl. split; [lia|exact I].
      * specialize (IH (tc + countTokens sizing s) true). cbn zeta in IH.
        pose proof (file_tokens_expand file s Hs) as He.
        destruct (for_files sizing rest (tc + countTokens sizing s) true) as [fs|fs tc' a];
          unfold content_tokens in *; simpl in *; destruct IH as [IH1 IH2];
          split; lia.
    + specialize (IH tc any). cbn zeta in IH.
      destruct (for_files sizing rest tc any) as [fs|fs tc' a];
        unfold content_tokens in *; simpl in *; destruct IH as [IH1 IH2];
        split; lia.
Qed.

Lemma while_true_tokens rounds files tc fs :
  while_true rounds sizing files tc = Some fs ->
  tc <= tokenBudget sizing ->
  tc + (content_tokens sizing fs - content_tokens sizing files) <= tokenBudget sizing.
Proof.
  revert files tc. induction rounds as [|rounds IH]; intros files tc; [discriminate|].
  cbn [while_true].
  pose proof (for_files_tokens files tc false) as H. cbn zeta in H.
  destruct (for_files sizing files tc false) as [fs'|fs' tc' a]; simpl in H.
  - intros [= <-]. tauto.
  - destruct H as [H1 H2]. destruct a; simpl.
    + intros Hw Htc. specialize (IH fs' tc' Hw). lia.
    + intros [= <-]. tauto.
Qed.

(** An [expand] call that reads a line leaves one line less to take. *)
Lemma lines_left_expand t :
  nextLine t <> None -> (lines_left (expand t) < lines_left t)%nat.
Proof.
  intros Hn. rewrite nextLine_expand_index in Hn.
  unfold expand_index in Hn. unfold expand, lines_left.
  destruct (nextLineIs t); cbn [is_above is_below andb] in *.
  - destruct (Z.geb_spec (aboveLine t) 0); [|congruence].
    destruct (Z.ltb_spec (belowLine t) (Z.of_nat (length (allLines t)) - 1));
      [|destruct (Z.gtb_spec (aboveLine t) 0)]; simpl; lia.
  - destruct (Z.ltb_spec (belowLine t) (Z.of_nat (length (allLines t)))); [|congruence].
    destruct (Z.gtb_spec (aboveLine t) 0);
      [|destruct (Z.ltb_spec (belowLine t) (Z.of_nat (length (allLines t)) - 1))];
      simpl; lia.
  - congruence.
Qed.

Lemma for_files_lines_left files tc any :
  match for_files sizing files tc any with
  | Return _ => True
  | Done fs _ any' =>
      (lines_left_sum fs <= lines_left_sum files)%nat
      /\ (any' = true -> any = true \/ (lines_left_sum fs < lines_left_sum files)%nat)
  end.
Proof.
  revert tc any. induction files as [|file rest IH]; intros tc any.
  - simpl. split; [lia|auto].
  - cbn [for_files].
    destruct (nextLine file) as [s|] eqn:Hs.
    + destruct (tc + countTokens sizing s >? tokenBudget sizing); [exact I|].
      specialize (IH (tc + countTokens sizing s) true).
      assert (Hlt : (lines_left (expand file) < lines_left file)%nat).
      { apply lines_left_expand. congruence. }
      destruct (for_files sizing rest (tc + countTokens sizing s) true) as [fs|fs tc' a];
        [exact I|].
      unfold lines_left_sum in *. simpl. destruct IH as [IH1 IH2].
      split; [lia|]. intros _. right. lia.
    + specialize (IH tc any).
      destruct (for_files sizing rest tc any) as [fs|fs tc' a]; [exact I|].
      unfold lines_left_sum in *. simpl. destruct IH as [IH1 IH2].
      split; [lia|]. intros Ha. destruct (IH2 Ha); [now left|right; lia].
Qed.

(** The loop ends within the rounds it is given. *)
Lemma while_true_ends rounds files tc :
  (lines_left_sum files < rounds)%nat ->
  exists fs, while_true rounds sizing files tc = Some fs.
Proof.
  revert files tc. induction rounds as [|rounds IH]; intros files tc Hlt; [lia|].
  cbn [while_true].
  pose proof (for_files_lines_left files tc false) as H.
  destruct (for_files sizing files tc false) as [fs|fs tc' a].
  - now exists fs.
  - destruct H as [H1 H2]. destruct a; simpl.
    + apply IH. destruct (H2 eq_refl) as [H|H]; [discriminate|lia].
    + now exists fs.
Qed.

Lemma getExpandedFiles_returns (files : list IFilesToInclude) :
  exists fs, getExpandedFiles files sizing = Some fs.
Proof.
  unfold getExpandedFiles, rounds_bound. apply while_true_ends.
  unfold lines_left_sum. lia.
Qed.

End ExpansionFacts.

Section ExpansionMonotone.

Import FileContext.

Lemma has_grown_refl t : has_grown t t.
Proof. exists [], []. now rewrite app_nil_r. Qed.

Lemma has_grown_trans t1 t2 t3 :
  has_grown t1 t2 -> has_grown t2 t3 -> has_grown t1 t3.
Proof.
  intros (b1 & a1 & E1) (b2 & a2 & E2).
  exists (b2 ++ b1), (a1 ++ a2). rewrite E2, E1, <- !app_assoc. reflexivity.
Qed.

Lemma expand_has_grown t : has_grown t (expand t).
Proof.
  destruct (expand_index t) as [i|] eqn:Ei.
  - destruct (expand_reads t i Ei) as (_ & Hlines & _).
    destruct (is_above (nextLineIs t)).
    + exists [index (allLines t) i], []. now rewrite Hlines, app_nil_r.
    + exists [], [index (allLines t) i]. now rewrite Hlines.
  - rewrite (proj2 (expand_reads_nothing t Ei)). apply has_grown_refl.
Qed.

Lemma all_grown_refl fs : Forall2 has_grown fs fs.
Proof. induction fs; constructor; auto using has_grown_refl. Qed.

Lemma all_grown_trans fs1 fs2 fs3 :
  Forall2 has_grown fs1 fs2 -> Forall2 has_grown fs2 fs3 -> Forall2 has_grown fs1 fs3.
Proof.
  intros H. revert fs3. induction H as [|t1 t2 l1 l2 Ht Hl IH]; intros fs3 H3.
  - inversion H3. constructor.
  - inversion H3; subst. constructor; [eapply has_grown_trans; eauto|auto].
Qed.

Lemma files_of_visited file e : files_of (visited file e) = file :: files_of e.
Proof. now destruct e. Qed.

Lemma for_files_grows sizing files tc any :
  Forall2 has_grown files (files_of (for_files sizing files tc any)).
Proof.
  revert tc any. induction files as [|file rest IH]; intros tc any; cbn [for_files].
  - constructor.
  - destruct (nextLine file) as [s|].
    + destruct (tc + countTokens sizing s >? tokenBudget sizing).
      * apply all_grown_refl.
      * rewrite files_of_visited. constructor; [apply expand_has_grown|apply IH].
    + rewrite files_of_visited. constructor; [apply has_grown_refl|apply IH].
Qed.

Lemma while_true_grows rounds sizing files tc fs :
  while_true rounds sizing files tc = Some fs -> Forall2 has_grown files fs.
Proof.
  revert files tc. induction rounds as [|rounds IH]; intros files tc; [discriminate|].
  cbn [while_true].
  pose proof (for_files_grows sizing files tc false) as H.
  destruct (for_files sizing files tc false) as [fs'|fs' tc' a]; simpl in H.
  - now intros [= <-].
  - destruct a; simpl.
    + intros Hw. eapply all_grown_trans; [exact H|]. eapply IH; eauto.
    + now intros [= <-].
Qed.

Variable count : Js.str -> Z.
Variables B1 B2 : Z.
Hypothesis budgets : B1 <= B2.

(** One run of the [for] loop under the two budgets, from the same state:
    either both reach the end in the same state, or the smaller budget returns
    and the larger one only expands further. *)
Lemma for_files_budgets files tc any :
  match for_files (mkSizing B1 count) files tc any with
  | Done fs tc' any' => for_files (mkSizing B2 count) files tc any = Done fs tc' any'
  | Return fs1 =>
      Forall2 has_grown fs1 (files_of (for_files (mkSizing B2 count) files tc any))
  end.
Proof.
  revert tc any. induction files as [|file rest IH]; intros tc any; cbn [for_files].
  - reflexivity.
  - destruct (nextLine file) as [s|]; cbn [countTokens tokenBudget].
    + destruct (Z.gtb_spec (tc + count s) B1) as [H1|H1].
      * destruct (Z.gtb_spec (tc + count s) B2) as [H2|H2].
        -- apply all_grown_refl.
        -- rewrite files_of_visited.
           constructor; [apply expand_has_grown|apply for_files_grows].
      * destruct (Z.gtb_spec (tc + count s) B2) as [H2|H2]; [lia|].
        specialize (IH (tc + count s) true).
        destruct (for_files (mkSizing B1 count) rest (tc + count s) true)
          as [fs|fs tc' a]; simpl.
        -- rewrite files_of_visited.
           constructor; [apply has_grown_refl|exact IH].
        -- now rewrite IH.
    + specialize (IH tc any).
      destruct (for_files (mkSizing B1 count) rest tc any) as [fs|fs tc' a]; simpl.
      * rewrite files_of_visited. constructor; [apply has_grown_refl|exact IH].
      * now rewrite IH.
Qed.

Lemma while_true_budgets rounds1 rounds2 files tc fs1 fs2 :
  while_true rounds1 (mkSizing B1 count) files tc = Some fs1 ->
  while_true rounds2 (mkSizing B2 count) files tc = Some fs2 ->
  Forall2 has_grown fs1 fs2.
Proof.
  revert rounds2 files tc.
  induction rounds1 as [|rounds1 IH]; intros rounds2 files tc; [discriminate|].
  destruct rounds2 as [|rounds2]; [discriminate|].
  cbn [while_true].
  pose proof (for_files_budgets files tc false) as H.
  destruct (for_files (mkSizing B1 count) files tc false) as [f1|f1 tc1 a1].
  - intros [= <-].
    destruct (for_files (mkSizing B2 count) files tc false) as [f2|f2 tc2 a2];
      simpl in H.
    + now intros [= <-].
    + destruct a2; simpl.
      * intros Hw. eapply all_grown_trans; [exact H|].
        eapply while_true_grows; eauto.
      * now intros [= <-].
  - rewrite H. destruct a1; simpl.
    + apply IH.
    + intros [= <-] [= <-]. apply all_grown_refl.
Qed.

End ExpansionMonotone.

Section ExpansionClaims.

Import FileContext.

(** X17. The content stays within the budget whenever the headers and footers of
    the files do. *)
Theorem getExpandedFiles_within_budget
    (files : list IFilesToInclude) (sizing : PromptSizing)
    (fs : list FileContextTracker) :
  getExpandedFiles files sizing = Some fs ->
  header_tokens sizing (map new_FileContextTracker files) <= tokenBudget sizing ->
  content_tokens sizing fs <= tokenBudget sizing.
Proof.
  unfold getExpandedFiles. intros Hw Hh.
  pose proof (while_true_tokens sizing _ _ _ _ Hw Hh) as H.
  rewrite header_tokens_new in H. lia.
Qed.

(** A larger budget expands every file at least as far as a smaller one. *)
Theorem getExpandedFiles_monotone
    (files : list IFilesToInclude) (count : Js.str -> Z) (B1 B2 : Z) :
  B1 <= B2 ->
  exists fs1 fs2,
    getExpandedFiles files (mkSizing B1 count) = Some fs1
    /\ getExpandedFiles files (mkSizing B2 count) = Some fs2
    /\ Forall2 has_grown fs1 fs2.
Proof.
  intros HB.
  destruct (getExpandedFiles_returns (mkSizing B1 count) files) as [fs1 H1].
  destruct (getExpandedFiles_returns (mkSizing B2 count) files) as [fs2 H2].
  exists fs1, fs2. split; [exact H1|]. split; [exact H2|].
  unfold getExpandedFiles in H1, H2.
  assert (Eh : header_tokens (mkSizing B1 count) (map new_FileContextTracker files)
               = header_tokens (mkSizing B2 count) (map new_FileContextTracker files))
    by reflexivity.
  rewrite Eh in H1.
  exact (while_true_budgets count B1 B2 HB _ _ _ _ _ _ H1 H2).
Qed.

(** C2. The content that [getExpandedFiles] returns is meant to cost at most
    [sizing.tokenBudget]; the headers and footers are counted before the loop
    and never checked, so here, with the simple tokenizer and a budget of 4,
    the content returned for one file of one line costs 5. *)
Theorem headers_exceed_granted_budget :
  let sizing := mkSizing 4 Tokenizer.estimateTokenCount in
  let files := [mkFile (Js.lit "a.ts") (Js.lit "x") None] in
  exists fs,
    getExpandedFiles files sizing = Some fs
    /\ map lines fs = [[]]
    /\ content_tokens sizing fs = 5
    /\ tokenBudget sizing < content_tokens sizing fs.
Proof.
  intros sizing files.
  exists (map new_FileContextTracker files).
  split; [vm_compute; reflexivity|].
  split; [reflexivity|].
  split; vm_compute; reflexivity.
Qed.

(** C3. A larger budget is meant to give a superset of the lines and content
    within the larger budget. The lines do grow with the budget (see
    [getExpandedFiles_monotone]), but the content can exceed the budget: here
    the budgets are 1 and 4, and the content returned under 4 costs 5. *)
Theorem larger_budget_still_exceeded :
  let count := Tokenizer.estimateTokenCount in
  let files := [mkFile (Js.lit "a.ts") (Js.lit "x") None] in
  exists fs1 fs2,
    getExpandedFiles files (mkSizing 1 count) = Some fs1
    /\ getExpandedFiles files (mkSizing 4 count) = Some fs2
    /\ Forall2 has_grown fs1 fs2
    /\ 4 < content_tokens (mkSizing 4 count) fs2.
Proof.
  intros count files.
  destruct (getExpandedFiles_monotone files count 1 4 ltac:(lia))
    as (fs1 & fs2 & H1 & H2 & H3).
  exists fs1, fs2. split; [exact H1|]. split; [exact H2|]. split; [exact H3|].
  vm_compute in H2. injection H2 as <-. vm_compute. reflexivity.
Qed.

Lemma getExpandedFiles_within_budget_witness :
  let sizing := mkSizing 8 Tokenizer.estimateTokenCount in
  let files :=
    [mkFile (Js.lit "a.ts")
       (Js.lit "one" ++ [Js.LF] ++ Js.lit "two" ++ [Js.LF] ++ Js.lit "three") None] in
  exists fs,
    getExpandedFiles files sizing = Some fs
    /\ map lines fs = [[Some (Js.lit "two"); Some (Js.lit "three")]]
    /\ content_tokens sizing fs <= 8.
Proof.
  intros sizing files.
  destruct (getExpandedFiles_returns sizing files) as [fs Hfs].
  exists fs. split; [exact Hfs|]. split.
  - vm_compute in Hfs. injection Hfs as <-. reflexivity.
  - apply (getExpandedFiles_within_budget files sizing fs Hfs).
    vm_compute. discriminate.
Defined.

End ExpansionClaims.

(** ** The render engine *)

Section EngineClaims.

Import Engine.

Lemma NoDup_app_disjoint {A : Type} (l1 l2 : list A) (x : A) :
  NoDup (l1 ++ l2) -> In x l1 -> ~ In x l2.
Proof.
  induction l1 as [|y l1 IH]; simpl; intros Hnd H1 H2; [contradiction|].
  apply NoDup_cons_iff in Hnd. destruct Hnd as [Hy Hnd].
  destruct H1 as [->|H1].
  - apply Hy. apply in_or_app. now right.
  - exact (IH Hnd H1 H2).
Qed.

Lemma accept_within_budget budget running sorted :
  running <= budget ->
  running + units_cost (accept budget running sorted) <= budget.
Proof.
  revert running. induction sorted as [|u rest IH]; intros running Hr; simpl.
  - unfold units_cost, total_cost. simpl. lia.
  - destruct (Z.leb_spec (running + tokenCost (snd u)) budget) as [Hle|Hgt].
    + specialize (IH _ Hle). unfold units_cost, total_cost in *. simpl. lia.
    + unfold units_cost, total_cost. simpl. lia.
Qed.

Lemma accept_is_prefix budget running sorted :
  exists rejected, sorted = accept budget running sorted ++ rejected.
Proof.
  revert running. induction sorted as [|u rest IH]; intros running; simpl.
  - now exists [].
  - destruct (running + tokenCost (snd u) <=? budget).
    + destruct (IH (running + tokenCost (snd u))) as [rej E].
      exists rej. simpl. now rewrite <- E.
    + now exists (u :: rest).
Qed.

Lemma insert_unit_perm u sorted : Permutation (u :: sorted) (insert_unit u sorted).
Proof.
  induction sorted as [|v rest IH]; simpl; [reflexivity|].
  destruct (piece_priority (snd v) <=? piece_priority (snd u)); [reflexivity|].
  rewrite perm_swap. now constructor.
Qed.

Lemma sort_units_perm units : Permutation units (sort_units units).
Proof.
  induction units as [|u units IH]; simpl; [constructor|].
  rewrite <- insert_unit_perm. now constructor.
Qed.

Lemma filter_perm {A : Type} (f : A -> bool) (l l' : list A) :
  Permutation l l' -> Permutation (filter f l) (filter f l').
Proof.
  induction 1 as [|x l l' H IH|x y l|l l' l'' H1 IH1 H2 IH2]; simpl.
  - constructor.
  - destruct (f x); [now constructor|exact IH].
  - destruct (f x), (f y); try reflexivity. apply perm_swap.
  - now transitivity (filter f l').
Qed.

Lemma units_cost_perm units units' :
  Permutation units units' -> units_cost units = units_cost units'.
Proof.
  unfold units_cost, total_cost.
  induction 1; simpl; lia.
Qed.

Lemma number_from_fst i pieces :
  map fst (number_from i pieces) = seq i (length pieces).
Proof.
  revert i. induction pieces as [|p rest IH]; intros i; simpl; [reflexivity|].
  now rewrite IH.
Qed.

Lemma is_accepted_in accepted u :
  is_accepted accepted u = true <-> In (fst u) (map fst accepted).
Proof.
  unfold is_accepted. rewrite existsb_exists. split.
  - intros [i [Hi E]]. apply Nat.eqb_eq in E. now subst.
  - intros H. exists (fst u). split; [exact H|apply Nat.eqb_refl].
Qed.

(** Among units with distinct indices, the accepted ones are found again by
    their indices, and no other. *)
Lemma filter_accepted (accepted : list prunable_unit) :
  forall front rejected,
    NoDup (map fst (front ++ rejected)) ->
    (forall u, In u front -> In (fst u) (map fst accepted)) ->
    (forall u, In u rejected -> ~ In (fst u) (map fst accepted)) ->
    filter (is_accepted accepted) (front ++ rejected) = front.
Proof.
  induction front as [|u front IH]; intros rejected Hnd Hf Hr; simpl.
  - induction rejected as [|v rejected IHr]; simpl; [reflexivity|].
    destruct (is_accepted accepted v) eqn:E.
    + apply is_accepted_in in E. elim (Hr v (or_introl eq_refl) E).
    + apply IHr.
      * simpl in Hnd. now inversion Hnd.
      * intros w Hw. apply Hr. now right.
  - assert (E : is_accepted accepted u = true).
    { apply is_accepted_in. apply Hf. now left. }
    rewrite E. f_equal. apply IH.
    + simpl in Hnd. now inversion Hnd.
    + intros w Hw. apply Hf. now right.
    + exact Hr.
Qed.

Lemma prune_cost budget pieces :
  0 <= budget -> total_cost (prune budget pieces) <= budget.
Proof.
  intros Hb. unfold prune.
  set (units := prunable_units pieces).
  set (sorted := sort_units units).
  set (accepted := accept budget 0 sorted).
  change (units_cost (filter (is_accepted accepted) units) <= budget).
  assert (Hperm : Permutation units sorted) by apply sort_units_perm.
  rewrite (units_cost_perm _ _ (filter_perm (is_accepted accepted) _ _ Hperm)).
  destruct (accept_is_prefix budget 0 sorted) as [rejected E]. fold accepted in E.
  assert (Hnd : NoDup (map fst (accepted ++ rejected))).
  { rewrite <- E. apply (Permutation_NoDup (l := map fst units)).
    - now apply Permutation_map.
    - unfold units, prunable_units. rewrite number_from_fst. apply seq_NoDup. }
  rewrite E, filter_accepted.
  - pose proof (accept_within_budget budget 0 sorted Hb) as H. fold accepted in H. lia.
  - exact Hnd.
  - intros u Hu. now apply in_map.
  - intros u Hu Hin. rewrite map_app in Hnd.
    apply (NoDup_app_disjoint _ _ (fst u) Hnd Hin). now apply in_map.
Qed.

(** C1. A successful call of the render entry point with
    [modelMaxPromptTokens] equal to a positive budget [B] returns a result
    whose [tokenCount] is at most [B], for every prompt tree, every counting
    function and whether or not a flexible node is part of the tree. *)
Theorem render_respects_budget
    (tree : ElementNode) (B : Z) (count : Js.str -> Z) (cancelled : bool)
    (r : RenderResult) :
  0 < B ->
  renderPrompt tree B count cancelled = inr r ->
  tokenCount r <= B.
Proof.
  intros HB. unfold renderPrompt.
  destruct (B <=? 0); [discriminate|].
  destruct cancelled; [discriminate|].
  destruct (evaluate (mkSizing B count) tree) as [e|pieces]; simpl; [discriminate|].
  intros [= <-]. simpl. apply prune_cost. lia.
Qed.

Lemma render_respects_budget_witness :
  let query := Js.lit "This is a very long question that might get truncated if the budget is too small for all messages" in
  let context := Js.lit "This is also a very long context that should definitely be truncated or removed entirely if the token budget is too restrictive" in
  exists r,
    renderPrompt (ComplexPrompt query context) 50 Tokenizer.estimateTokenCount false = inr r
    /\ map role (messages r) = [RoleSystem; RoleUser]
    /\ tokenCount r <= 50.
Proof.
  intros query context.
  destruct (renderPrompt (ComplexPrompt query context) 50 Tokenizer.estimateTokenCount false)
    as [e|r] eqn:E; [vm_compute in E; discriminate|].
  exists r. split; [reflexivity|]. split.
  - vm_compute in E. injection E as <-. reflexivity.
  - apply (render_respects_budget (ComplexPrompt query context) 50
             Tokenizer.estimateTokenCount false r); [lia|exact E].
Defined.

End EngineClaims.

(** ** The cancellation source *)

Section CancellationClaims.

Import Cancellation.

Variable body : listener -> CancellationTokenSource -> list call.

Lemma run_app s cs1 cs2 : run body s (cs1 ++ cs2) = run body (run body s cs1) cs2.
Proof. apply fold_left_app. Qed.

Lemma quiet_run_not_cancelled cs s :
  quiet cs = true -> _isCancelled s = false ->
  _isCancelled (run body s cs) = false
  /\ isCancellationRequested (run body s cs) = isCancellationRequested s
  /\ calls (run body s cs) = calls s.
Proof.
  revert s. induction cs as [|c cs IH]; intros s Hq Hs; simpl; [auto|].
  simpl in Hq. apply andb_prop in Hq. destruct Hq as [Hc Hq].
  destruct c; try discriminate; simpl.
  - apply (IH (onCancellationRequested l s) Hq Hs).
  - apply (IH (dispose_registration l s) Hq Hs).
Qed.

(** On a cancelled source a call does what [step_cancelled] says, and calls
    no listener. *)
Lemma step_on_cancelled s c :
  _isCancelled s = true -> step body s c = step_cancelled s c.
Proof.
  intros Hs. destruct c; simpl; unfold dispose, cancel; rewrite ?Hs; reflexivity.
Qed.

Lemma step_cancelled_keeps s c :
  _isCancelled (step_cancelled s c) = _isCancelled s
  /\ isCancellationRequested (step_cancelled s c) = isCancellationRequested s
  /\ calls (step_cancelled s c) = calls s.
Proof. destruct c; simpl; auto. Qed.

Lemma run_cancelled cs s :
  _isCancelled s = true ->
  _isCancelled (run body s cs) = true
  /\ isCancellationRequested (run body s cs) = isCancellationRequested s
  /\ calls (run body s cs) = calls s.
Proof.
  revert s. induction cs as [|c cs IH]; intros s Hs; simpl; [auto|].
  rewrite (step_on_cancelled s c Hs).
  destruct (step_cancelled_keeps s c) as [H1 [H2 H3]].
  destruct (IH (step_cancelled s c)) as [H4 [H5 H6]]; [congruence|].
  rewrite H4, H5, H6. auto.
Qed.

(** What a listener that unregisters nothing can do to the walk: the array
    walked only grows at its end. *)
Lemma listener_step_grows it c :
  unregisters c = false ->
  (exists extra, walked (listener_step it c) = walked it ++ extra)
  /\ calls (source (listener_step it c)) = calls (source it)
  /\ _isCancelled (source (listener_step it c)) = _isCancelled (source it)
  /\ isCancellationRequested (source (listener_step it c))
     = isCancellationRequested (source it).
Proof.
  intros Hc. destruct it as [s d]. destruct c as [l|l| |]; try discriminate;
    unfold listener_step, walked; simpl.
  - split; [|auto]. destruct d; [exists []; now rewrite app_nil_r|now exists [l]].
  - split; [|auto]. exists []. now rewrite app_nil_r.
  - split; [|auto]. exists []. now rewrite app_nil_r.
Qed.

Lemma listener_steps_grow cs it :
  forallb (fun c => negb (unregisters c)) cs = true ->
  (exists extra, walked (fold_left listener_step cs it) = walked it ++ extra)
  /\ calls (source (fold_left listener_step cs it)) = calls (source it)
  /\ _isCancelled (source (fold_left listener_step cs it)) = _isCancelled (source it)
  /\ isCancellationRequested (source (fold_left listener_step cs it))
     = isCancellationRequested (source it).
Proof.
  revert it. induction cs as [|c cs IH]; intros it Hcs; simpl.
  - split; [exists []; now rewrite app_nil_r|auto].
  - simpl in Hcs. apply andb_prop in Hcs. destruct Hcs as [Hc Hcs].
    apply negb_true_iff in Hc.
    destruct (listener_step_grows it c Hc) as ([e1 E1] & C1 & F1 & G1).
    destruct (IH (listener_step it c) Hcs) as ([e2 E2] & C2 & F2 & G2).
    split; [exists (e1 ++ e2); now rewrite E2, E1, app_assoc|].
    rewrite C2, F2, G2. auto.
Qed.

Lemma firstn_nth_error {A : Type} (l : list A) (k : nat) (x : A) :
  nth_error l k = Some x -> firstn (S k) l = firstn k l ++ [x].
Proof.
  revert k. induction l as [|y l IH]; intros k; destruct k; simpl; try discriminate.
  - now intros [= ->].
  - intros H. now rewrite <- (IH k H).
Qed.

End CancellationClaims.

(** ** The cancellation source with listeners that may throw *)

Section ThrowingRefinement.

Import Cancellation Throwing.

Variable body : listener -> CancellationTokenSource -> list call.

Lemma forEach_returning todo k it :
  forEach (returning body) k todo it = (Cancellation.forEach body k todo it, false).
Proof.
  revert k it. induction todo as [|todo IH]; intros k it; simpl; [reflexivity|].
  destruct (nth_error (walked it) k) as [l|]; apply IH.
Qed.

Lemma step_returning s c :
  step (returning body) s c = (Cancellation.step body s c, false).
Proof.
  destruct c; simpl; try reflexivity;
    unfold dispose, cancel, Cancellation.dispose, Cancellation.cancel;
    destruct (negb (_isCancelled s)); try reflexivity;
    rewrite forEach_returning; reflexivity.
Qed.

(** With listeners that always return, the source behaves as in
    [Cancellation]. *)
Lemma run_returning cs s :
  run (returning body) s cs = Cancellation.run body s cs.
Proof.
  revert s. induction cs as [|c cs IH]; intros s; simpl; [reflexivity|].
  rewrite step_returning. apply IH.
Qed.

End ThrowingRefinement.

Section ThrowingClaims.

Import Cancellation Throwing.

Variable body : listener -> CancellationTokenSource -> reaction.

Lemma throwing_run_app s cs1 cs2 :
  run body s (cs1 ++ cs2) = run body (run body s cs1) cs2.
Proof. apply fold_left_app. Qed.

Lemma throwing_quiet_run cs s :
  quiet cs = true -> _isCancelled s = false ->
  _isCancelled (run body s cs) = false
  /\ isCancellationRequested (run body s cs) = isCancellationRequested s
  /\ calls (run body s cs) = calls s.
Proof.
  revert s. induction cs as [|c cs IH]; intros s Hq Hs; simpl; [auto|].
  simpl in Hq. apply andb_prop in Hq. destruct Hq as [Hc Hq].
  destruct c; try discriminate; simpl.
  - apply (IH (onCancellationRequested l s) Hq Hs).
  - apply (IH (dispose_registration l s) Hq Hs).
Qed.

(** On a cancelled source no call throws, and none calls a listener. *)
Lemma throwing_step_on_cancelled s c :
  _isCancelled s = true -> step body s c = (step_cancelled s c, false).
Proof.
  intros Hs. destruct c; simpl; unfold dispose, cancel; rewrite ?Hs; reflexivity.
Qed.

Lemma throwing_run_cancelled cs s :
  _isCancelled s = true ->
  _isCancelled (run body s cs) = true
  /\ isCancellationRequested (run body s cs) = isCancellationRequested s
  /\ calls (run body s cs) = calls s.
Proof.
  revert s. induction cs as [|c cs IH]; intros s Hs; simpl; [auto|].
  rewrite (throwing_step_on_cancelled s c Hs). simpl.
  destruct (step_cancelled_keeps s c) as [H1 [H2 H3]].
  destruct (IH (step_cancelled s c)) as [H4 [H5 H6]]; [congruence|].
  rewrite H4, H5, H6. auto.
Qed.

(** A listener that returns and unregisters nothing lets the walk go on,
    over an array that only grew at its end. *)
Lemma notify_returns it l :
  keeps_registrations body l -> returns body l ->
  exists it',
    notify body it l = (it', false)
    /\ (exists extra, walked it' = walked it ++ extra)
    /\ calls (source it') = calls (source it) ++ [l]
    /\ _isCancelled (source it') = _isCancelled (source it)
    /\ isCancellationRequested (source it') = isCancellationRequested (source it).
Proof.
  intros Hl Hr. unfold notify.
  set (called := mkSource _ _ _ _).
  destruct (listener_steps_grow (made (body l called)) (mkIteration called (detached it))
              (Hl called)) as (E & C & F & G).
  eexists. split; [cbv zeta; rewrite (Hr called); reflexivity|].
  split; [|auto]. destruct E as [e E]. exists e. rewrite E.
  unfold walked. simpl. reflexivity.
Qed.

(** When the listeners registered return and unregister nothing, [forEach]
    returns, having called each of them, in order. *)
Lemma forEach_calls_all registered todo k it :
  (forall l, In l registered -> keeps_registrations body l /\ returns body l) ->
  (k + todo = length registered)%nat ->
  (exists extra, walked it = registered ++ extra) ->
  exists it',
    forEach body k todo it = (it', false)
    /\ calls (source it') = calls (source it) ++ skipn k registered
    /\ _isCancelled (source it') = _isCancelled (source it)
    /\ isCancellationRequested (source it') = isCancellationRequested (source it).
Proof.
  intros Hreg. revert k it.
  induction todo as [|todo IH]; intros k it Hk [extra Hw]; cbn [forEach].
  - exists it. rewrite skipn_all2 by lia. rewrite app_nil_r. auto.
  - destruct (nth_error registered k) as [l|] eqn:El.
    2:{ apply nth_error_None in El. lia. }
    assert (Ew : nth_error (walked it) k = Some l).
    { rewrite Hw, nth_error_app1; [exact El|]. apply nth_error_Some. congruence. }
    rewrite Ew.
    destruct (Hreg l (nth_error_In _ _ El)) as [Hkeep Hret].
    destruct (notify_returns it l Hkeep Hret) as (it1 & N & [e E] & C & F & G).
    rewrite N.
    destruct (IH (S k) it1) as (it' & W & C' & F' & G'); [lia| |].
    { exists (extra ++ e). now rewrite E, Hw, app_assoc. }
    exists it'. split; [exact W|]. rewrite C', F', G', C, F, G. split; [|auto].
    rewrite <- app_assoc. f_equal.
    destruct (skipn_nth_error registered k) as [x [E1 E2]].
    { apply nth_error_Some. congruence. }
    rewrite E2. simpl. congruence.
Qed.

Lemma first_fire s c :
  fires c = true -> _isCancelled s = false ->
  (forall l, In l (_listeners s) -> keeps_registrations body l /\ returns body l) ->
  snd (step body s c) = false
  /\ _isCancelled (fst (step body s c)) = true
  /\ isCancellationRequested (fst (step body s c)) = true
  /\ calls (fst (step body s c)) = calls s ++ _listeners s.
Proof.
  intros Hc Hs Hreg.
  assert (H : exists s', cancel body s = (s', false)
              /\ _isCancelled s' = true
              /\ isCancellationRequested s' = true
              /\ calls s' = calls s ++ _listeners s).
  { unfold cancel. rewrite Hs. simpl.
    destruct (forEach_calls_all (_listeners s) (length (_listeners s)) 0
                (mkIteration (mkSource true true (_listeners s) (calls s)) None) Hreg)
      as (it' & W & C & F & G); [reflexivity|exists []; now rewrite app_nil_r|].
    rewrite W. exists (source it'). rewrite C, F, G. auto. }
  destruct H as (s' & E & H1 & H2 & H3).
  destruct c; try discriminate; simpl; [rewrite E; simpl; auto|].
  unfold dispose. rewrite E. simpl. auto.
Qed.

(** C5, as the code has it. Let [before] hold no [cancel()] and no
    [dispose()] of the source, let [c] be the first such call, and let the
    listeners registered at that time return when they are notified, without
    throwing, and unregister no listener. Then [c] returns and, whatever calls
    come [after], the listeners called are those registered when [c] was
    made, each once per registration in force, and no other call of a listener
    is ever made: a listener registered later is not called, although
    [isCancellationRequested] is true from [c] on, so also when that listener
    registers. *)
Theorem listeners_called_once_late_ones_never
    (before after : list call) (c : call) (l : listener) :
  quiet before = true -> fires c = true ->
  (forall l', In l' (_listeners (run body new_CancellationTokenSource before)) ->
              keeps_registrations body l' /\ returns body l') ->
  let at_cancel := run body new_CancellationTokenSource before in
  let s := run body new_CancellationTokenSource (before ++ c :: after) in
  snd (step body at_cancel c) = false
  /\ calls s = _listeners at_cancel
  /\ times_called l s = count_occ Nat.eq_dec (_listeners at_cancel) l
  /\ isCancellationRequested s = true
  /\ (~ In l (_listeners at_cancel) -> times_called l s = 0%nat).
Proof.
  intros Hq Hc Hreg at_cancel s.
  destruct (throwing_quiet_run before new_CancellationTokenSource Hq eq_refl)
    as [Q1 [Q2 Q3]].
  destruct (first_fire at_cancel c Hc Q1 Hreg) as [F0 [F1 [F2 F3]]].
  destruct (throwing_run_cancelled after (fst (step body at_cancel c)) F1)
    as [R1 [R2 R3]].
  assert (Es : s = run body (fst (step body at_cancel c)) after).
  { unfold s, at_cancel. now rewrite throwing_run_app. }
  assert (Ecalls : calls s = _listeners at_cancel).
  { rewrite Es, R3, F3. unfold at_cancel at 1. now rewrite Q3. }
  split; [exact F0|].
  split; [exact Ecalls|].
  split; [unfold times_called; now rewrite Ecalls|].
  split; [now rewrite Es, R2, F2|].
  intros Hl. unfold times_called. rewrite Ecalls.
  now apply count_occ_not_In.
Qed.

End ThrowingClaims.

Section ThrowingExamples.

Import Cancellation Throwing.

Lemma listeners_called_once_late_ones_never_witness :
  let before := [OnCancellationRequested 0; OnCancellationRequested 1;
                 OnCancellationRequested 2; DisposeRegistration 1]%nat in
  let after := [OnCancellationRequested 9; Cancel; Dispose]%nat in
  let s := run faulty new_CancellationTokenSource (before ++ Cancel :: after) in
  calls s = [0; 2]%nat
  /\ times_called 2%nat s = 1%nat
  /\ isCancellationRequested s = true
  /\ times_called 9%nat s = 0%nat.
Proof.
  intros before after s.
  assert (Hreg : forall l', In l' (_listeners (run faulty new_CancellationTokenSource before)) ->
                            keeps_registrations faulty l' /\ returns faulty l').
  { intros l' Hin. simpl in Hin. destruct Hin as [<-|[<-|[]]]; split; intros s'; reflexivity. }
  pose proof (listeners_called_once_late_ones_never faulty before after Cancel 2%nat
                eq_refl eq_refl Hreg) as [_ [H1 [H2 [H3 _]]]].
  pose proof (listeners_called_once_late_ones_never faulty before after Cancel 9%nat
                eq_refl eq_refl Hreg) as [_ [_ [_ [_ H4]]]].
  split; [exact H1|]. split; [exact H2|]. split; [exact H3|].
  apply H4. simpl. intros [H|[H|[]]]; discriminate H.
Defined.

(** A listener that throws while it is notified ends [forEach] and
    [cancel()]: the listener registered after it is not called, neither then
    nor by a later [cancel()], and a [dispose()] that runs into the throw
    leaves the listeners registered. *)
Lemma throwing_listener_hides_the_rest :
  let registered := [OnCancellationRequested 9%nat; OnCancellationRequested 1%nat] in
  let s := run faulty new_CancellationTokenSource (registered ++ [Cancel; Cancel]) in
  let d := run faulty new_CancellationTokenSource (registered ++ [Dispose]) in
  snd (step faulty (run faulty new_CancellationTokenSource registered) Cancel) = true
  /\ calls s = [9%nat] /\ times_called 1%nat s = 0%nat
  /\ isCancellationRequested s = true
  /\ _listeners d = [9%nat; 1%nat].
Proof. vm_compute. auto 6. Qed.

End ThrowingExamples.

Section CancellationExamples.

Import Cancellation.

(** C5 as the specification states it fails: a listener registered after
    [cancel()] is not notified, however often [cancel()] is called again. *)
Lemma late_listener_not_notified :
  ~ late_listener_is_notified idle [OnCancellationRequested 0%nat] [Cancel; Cancel] 1%nat.
Proof.
  unfold late_listener_is_notified. vm_compute. intros H. inversion H.
Qed.

(** A listener that unregisters itself while it is notified shortens the
    array that [forEach] walks, and the listener registered after it is
    skipped. *)
Lemma unregistering_listener_hides_the_next :
  let s :=
    run once new_CancellationTokenSource
      [OnCancellationRequested 0%nat; OnCancellationRequested 1%nat; Cancel] in
  calls s = [0%nat] /\ times_called 1%nat s = 0%nat /\ _listeners s = [1%nat].
Proof. vm_compute. auto. Qed.

End CancellationExamples.

(** ** Positions, ranges, markdown strings and URIs *)

Section TypesFacts.

Import Types.

Lemma isEqual_eq a b : isEqual a b = true <-> a = b.
Proof.
  unfold isEqual. destruct a as [l1 c1], b as [l2 c2]. simpl.
  rewrite andb_true_iff, !Z.eqb_eq. split; [intros [-> ->]; reflexivity|].
  intros [= -> ->]. auto.
Qed.

Lemma isBefore_lt a b :
  isBefore a b = true
  <-> line a < line b \/ (line a = line b /\ character a < character b).
Proof.
  unfold isBefore.
  rewrite orb_true_iff, andb_true_iff, !Z.ltb_lt, Z.eqb_eq. tauto.
Qed.

Lemma isBefore_trichotomy a b :
  match isBefore a b, isEqual a b, isBefore b a with
  | true, false, false | false, true, false | false, false, true => True
  | _, _, _ => False
  end.
Proof.
  destruct (isBefore a b) eqn:E1, (isEqual a b) eqn:E2, (isBefore b a) eqn:E3;
    try exact I;
    try (apply isBefore_lt in E1); try (apply isBefore_lt in E3);
    try (apply isEqual_eq in E2; subst b); try lia.
  exfalso.
  assert (H1 : ~ (line a < line b \/ (line a = line b /\ character a < character b))).
  { rewrite <- isBefore_lt. congruence. }
  assert (H3 : ~ (line b < line a \/ (line b = line a /\ character b < character a))).
  { rewrite <- isBefore_lt. congruence. }
  assert (H2 : a <> b) by (rewrite <- isEqual_eq; congruence).
  apply H2. destruct a, b; simpl in *. f_equal; lia.
Qed.

(** X1. [isBefore] is a strict total order on positions, of which [isEqual] is
    the equality: it is transitive and irreflexive, and of two positions
    exactly one is before the other unless they are equal. *)
Theorem isBefore_strict_total_order (a b c : Position) :
  (isBefore a b = true -> isBefore b c = true -> isBefore a c = true)
  /\ isBefore a a = false
  /\ (isEqual a b = true <-> a = b)
  /\ match isBefore a b, isEqual a b, isBefore b a with
     | true, false, false | false, true, false | false, false, true => True
     | _, _, _ => False
     end.
Proof.
  split; [|split; [|split]].
  - rewrite !isBefore_lt. lia.
  - destruct (isBefore a a) eqn:E; [|reflexivity]. apply isBefore_lt in E. lia.
  - apply isEqual_eq.
  - apply isBefore_trichotomy.
Qed.

Lemma isBefore_strict_total_order_witness :
  isBefore (mkPosition 1 9) (mkPosition 4 0) = true.
Proof.
  apply (proj1 (isBefore_strict_total_order
                  (mkPosition 1 9) (mkPosition 2 5) (mkPosition 4 0)));
    reflexivity.
Defined.

Lemma new_Range_cases args :
  let a := fst (given args) in
  let b := snd (given args) in
  new_Range args
  = if isBefore a b || isEqual a b then mkRange a b else mkRange b a.
Proof. destruct args; reflexivity. Qed.

Lemma new_Range_is_ordered_aux args :
  new_Range args = mkRange (fst (given args)) (snd (given args))
  \/ new_Range args = mkRange (snd (given args)) (fst (given args)).
Proof.
  rewrite new_Range_cases. cbv zeta.
  destruct (isBefore _ _ || isEqual _ _); auto.
Qed.

(** X2. Whatever the constructor of [Range] is given, in either overload, the
    range it builds has its start before or equal to its end; its two ends are
    the two positions given; and the order in which they are given does not
    matter. *)
Theorem new_Range_is_ordered (args : RangeArguments) :
  let a := fst (given args) in
  let b := snd (given args) in
  let r := new_Range args in
  (isBefore (start r) (end_ r) = true \/ start r = end_ r)
  /\ (r = mkRange a b \/ r = mkRange b a)
  /\ new_Range (FromPositions b a) = r
  /\ new_Range (FromPositions (start r) (end_ r)) = r
  /\ new_Range
       (FromNumbers (line b) (character b) (line a) (character a)) = r.
Proof.
  intros a b r. unfold r. rewrite new_Range_cases. fold a b.
  assert (Hnum : new_Range (FromNumbers (line b) (character b) (line a) (character a))
                 = new_Range (FromPositions b a)).
  { destruct a, b. reflexivity. }
  rewrite Hnum. rewrite !new_Range_cases. cbn [given fst snd].
  clear Hnum r. clearbody a b.
  pose proof (isBefore_trichotomy a b) as Htri.
  destruct (isBefore a b) eqn:E1, (isEqual a b) eqn:E2, (isBefore b a) eqn:E3;
    try contradiction; cbn [orb start end_].
  - rewrite E1. cbn [orb]. destruct (isEqual b a) eqn:E4.
    + apply isEqual_eq in E4. subst b. rewrite (proj2 (isEqual_eq a a) eq_refl) in E2.
      discriminate.
    + auto 6.
  - apply isEqual_eq in E2. subst b. rewrite E1, (proj2 (isEqual_eq a a) eq_refl).
    cbn [orb]. auto 6.
  - rewrite E3. cbn [orb]. auto 6.
Qed.

(** X3. A range is empty exactly when it was built from two equal positions, it
    is on a single line exactly when they are on the same line, and an empty
    range is on a single line. *)
Theorem isEmpty_isSingleLine (args : RangeArguments) :
  let a := fst (given args) in
  let b := snd (given args) in
  let r := new_Range args in
  (isEmpty r = true <-> a = b)
  /\ (isSingleLine r = true <-> line a = line b)
  /\ (isEmpty r = true -> isSingleLine r = true).
Proof.
  intros a b r.
  assert (H : r = mkRange a b \/ r = mkRange b a)
    by apply (new_Range_is_ordered_aux args).
  unfold isEmpty, isSingleLine.
  destruct H as [-> | ->]; cbn [start end_]; rewrite isEqual_eq, Z.eqb_eq;
    (split; [|split]); try (split; congruence); intros ->; reflexivity.
Qed.

End TypesFacts.

Section MarkdownFacts.

Import Types.

(** X4. Appending to a markdown string, by [appendText] or by [appendMarkdown]
    in any mix, adds the fragments as they are, in order, after the initial
    value (the empty string when none was given), and changes no other
    field. *)
Theorem markdown_appends_concatenate
    (initial : option Js.str) (icons : option bool) (cs : list append_call) :
  let m := fold_left append cs (new_MarkdownString initial icons) in
  value m = or_empty initial ++ concat (map appended cs)
  /\ supportThemeIcons m = icons
  /\ isTrusted m = None
  /\ supportHtml m = None.
Proof.
  cbv zeta.
  assert (H : forall m0,
             let m := fold_left append cs m0 in
             value m = value m0 ++ concat (map appended cs)
             /\ supportThemeIcons m = supportThemeIcons m0
             /\ isTrusted m = isTrusted m0
             /\ supportHtml m = supportHtml m0).
  { induction cs as [|c cs IH]; intros m0; simpl.
    - rewrite app_nil_r. auto.
    - destruct (IH (append m0 c)) as (H1 & H2 & H3 & H4).
      rewrite H1, H2, H3, H4. destruct c; simpl; rewrite <- app_assoc; auto. }
  destruct (H (new_MarkdownString initial icons)) as (H1 & H2 & H3 & H4).
  rewrite H1, H2, H3, H4. destruct initial; auto.
Qed.

End MarkdownFacts.

Section UriFacts.

Import Types.

Lemma take_drop_while p s : take_while p s ++ drop_while p s = s.
Proof.
  induction s as [|c s IH]; simpl; [reflexivity|].
  destruct (p c); simpl; [now rewrite IH|reflexivity].
Qed.

Lemma while_app p a b :
  forallb p a = true -> stops p b ->
  take_while p (a ++ b) = a /\ drop_while p (a ++ b) = b.
Proof.
  intros Ha Hb. induction a as [|c a IH]; simpl in *.
  - destruct b as [|d b]; simpl in *; [auto|]. rewrite Hb. auto.
  - apply andb_prop in Ha. destruct Ha as [Hc Ha]. rewrite Hc.
    destruct (IH Ha) as [E1 E2]. rewrite E1, E2. auto.
Qed.

Lemma replace_backslashes_clean p : ~ In backslash (replace_backslashes p).
Proof.
  unfold replace_backslashes. rewrite in_map_iff. intros [c [E _]].
  destruct (N.eqb_spec c backslash) as [Hc|Hc]; [discriminate E|exact (Hc E)].
Qed.

Lemma replace_backslashes_id p : ~ In backslash p -> replace_backslashes p = p.
Proof.
  unfold replace_backslashes. induction p as [|c p IH]; simpl; [reflexivity|].
  intros H. destruct (N.eqb_spec c backslash) as [Hc|Hc]; [elim H; now left|].
  f_equal. apply IH. intros Hin. apply H. now right.
Qed.

(** X5. [Uri.file] gives a [file] URI whose path is the given path with every
    backslash turned into a slash and nothing else changed; [fsPath] returns
    that path, [toString] writes it after [file:], and building a file URI
    from the [fsPath] of a file URI gives the same URI. *)
Theorem file_uri_has_no_backslash (p : Js.str) :
  let u := file p in
  ~ In backslash (path u)
  /\ length (path u) = length p
  /\ (~ In backslash p -> path u = p)
  /\ fsPath u = path u
  /\ toString u = Js.lit "file:" ++ path u
  /\ file (fsPath u) = u.
Proof.
  cbv zeta. split; [apply replace_backslashes_clean|].
  split; [apply length_map|]. split; [apply replace_backslashes_id|].
  assert (Hfs : fsPath (file p) = path (file p)).
  { unfold fsPath. now destruct (list_eq_dec _ _ _). }
  split; [exact Hfs|]. split.
  - unfold toString, file. cbn [scheme authority path query fragment].
    change (Js.lit "file") with [102%N; 105%N; 108%N; 101%N].
    change (Js.lit "file:") with [102%N; 105%N; 108%N; 101%N; colon].
    cbn [add_if app].
    destruct (replace_backslashes p); cbn [add_if app]; reflexivity.
  - rewrite Hfs. unfold file. cbn [path]. f_equal.
    apply replace_backslashes_id, replace_backslashes_clean.
Qed.


Lemma add_if_delimited guard part result :
  add_if guard part result = result ++ match guard with [] => [] | _ => part end.
Proof. destruct guard; simpl; [now rewrite app_nil_r|reflexivity]. Qed.

Lemma toString_delimited u :
  toString u
  = delimited [] (scheme u) [colon] ++ delimited [slash; slash] (authority u) []
    ++ path u ++ delimited [question] (query u) [] ++ delimited [hash] (fragment u) [].
Proof.
  unfold toString. rewrite !add_if_delimited. unfold delimited.
  destruct (scheme u), (authority u), (path u), (query u), (fragment u);
    cbn [app]; rewrite ?app_nil_r, <- ?app_assoc; reflexivity.
Qed.

Lemma scheme_group_none v :
  begins_like_scheme v = false -> scheme_group v = (None, v).
Proof.
  unfold begins_like_scheme, scheme_group.
  destruct (take_while _ v) as [|c0 run]; [reflexivity|].
  destruct (drop_while _ v) as [|c rest]; [reflexivity|].
  now intros ->.
Qed.

Lemma colon_after_run_app a b :
  begins_query_or_fragment b ->
  match drop_while (not_in [colon; slash; question; hash]) (a ++ b) with
  | c :: _ => (c =? colon)%N
  | [] => false
  end
  = match drop_while (not_in [colon; slash; question; hash]) a with
    | c :: _ => (c =? colon)%N
    | [] => false
    end.
Proof.
  intros Hb. induction a as [|c a IH]; simpl.
  - destruct b as [|d b]; [reflexivity|]. destruct Hb as [-> | ->]; reflexivity.
  - destruct (not_in _ c); [exact IH|reflexivity].
Qed.

Lemma begins_like_scheme_app a b :
  begins_query_or_fragment b ->
  begins_like_scheme (a ++ b) = begins_like_scheme a.
Proof.
  intros Hb. unfold begins_like_scheme.
  destruct a as [|c a].
  - destruct b as [|d b]; [reflexivity|]. destruct Hb as [-> | ->]; reflexivity.
  - pose proof (colon_after_run_app (c :: a) b Hb) as H.
    cbn [app take_while] in *. cbn [drop_while] in *.
    destruct (not_in [colon; slash; question; hash] c); [|reflexivity].
    destruct (drop_while _ (a ++ b)), (drop_while _ a); exact H.
Qed.

Lemma scheme_stage sch rest :
  forallb (not_in [colon; slash; question; hash]) sch = true ->
  (sch = [] -> begins_like_scheme rest = false) ->
  exists g, scheme_group (delimited [] sch [colon] ++ rest) = (g, rest)
            /\ or_empty g = sch.
Proof.
  intros Hs Hr. destruct sch as [|c sch].
  - exists None. split; [|reflexivity]. apply scheme_group_none. now apply Hr.
  - exists (Some (c :: sch)). split; [|reflexivity].
    unfold delimited. cbn [app]. rewrite <- app_assoc.
    change ([colon] ++ rest) with (colon :: rest).
    unfold scheme_group.
    destruct (while_app (not_in [colon; slash; question; hash]) (c :: sch)
                (colon :: rest) Hs eq_refl) as [E1 E2].
    cbn [app] in E1, E2. rewrite E1, E2. reflexivity.
Qed.

Lemma authority_stage auth rest :
  forallb (not_in [slash; question; hash]) auth = true ->
  (auth <> [] -> stops (not_in [slash; question; hash]) rest) ->
  (auth = [] -> begins_with_two_slashes rest = false) ->
  exists g, authority_group (delimited [slash; slash] auth [] ++ rest) = (g, rest)
            /\ or_empty g = auth.
Proof.
  intros Ha Hne He. destruct auth as [|c auth].
  - exists None. split; [|reflexivity]. specialize (He eq_refl).
    unfold authority_group, begins_with_two_slashes in *. cbn [delimited app].
    destruct rest as [|a [|b rest]]; try reflexivity. now rewrite He.
  - exists (Some (c :: auth)). split; [|reflexivity].
    unfold delimited. rewrite app_nil_r. cbn [app authority_group].
    change ((slash =? slash)%N && (slash =? slash)%N) with true. cbv iota.
    destruct (while_app (not_in [slash; question; hash]) (c :: auth) rest Ha
                (Hne ltac:(discriminate))) as [E1 E2].
    cbn [app] in E1, E2. rewrite E1, E2. reflexivity.
Qed.

Lemma query_stage q rest :
  forallb (not_in [hash]) q = true ->
  (rest = [] \/ exists f, rest = hash :: f) ->
  exists g, query_group (delimited [question] q [] ++ rest) = (g, rest)
            /\ or_empty g = q.
Proof.
  intros Hq Hr. destruct q as [|c q].
  - exists None. split; [|reflexivity]. cbn [delimited app].
    destruct Hr as [-> | [f ->]]; reflexivity.
  - exists (Some (c :: q)). split; [|reflexivity].
    unfold delimited. rewrite app_nil_r. cbn [app query_group].
    change ((question =? question)%N) with true. cbv iota.
    destruct (while_app (not_in [hash]) (c :: q) rest Hq) as [E1 E2].
    { destruct Hr as [-> | [f ->]]; [exact I|reflexivity]. }
    cbn [app] in E1, E2. rewrite E1, E2. reflexivity.
Qed.

Lemma fragment_stage f :
  forallb (fun d => negb (is_line_terminator d)) f = true ->
  exists g, fragment_group (delimited [hash] f []) = Some g /\ or_empty g = f.
Proof.
  intros Hf. destruct f as [|c f].
  - exists None. split; reflexivity.
  - exists (Some (c :: f)). split; [|reflexivity].
    unfold delimited. rewrite app_nil_r. cbn [app fragment_group].
    change ((hash =? hash)%N) with true. now rewrite Hf.
Qed.

Lemma delimited_hash f : delimited [hash] f [] = [] \/ exists f', delimited [hash] f [] = hash :: f'.
Proof. destruct f; [now left|right]. eexists. reflexivity. Qed.

Lemma query_fragment_begins q f :
  begins_query_or_fragment (delimited [question] q [] ++ delimited [hash] f []).
Proof. destruct q; [destruct f|]; simpl; auto. Qed.

Lemma begins_stops (excluded : list Js.char) s :
  In question excluded -> In hash excluded ->
  begins_query_or_fragment s -> stops (not_in excluded) s.
Proof.
  intros Hq Hh. destruct s as [|c s]; [auto|]. simpl. unfold not_in.
  intros [-> | ->]; apply negb_false_iff, existsb_exists.
  - exists question. split; [exact Hq|apply N.eqb_refl].
  - exists hash. split; [exact Hh|apply N.eqb_refl].
Qed.

(** X6. [Uri.parse] undoes [toString] on every URI whose components are
    unambiguous, in strict mode or not: it does not throw and returns the
    five components as they were. *)
Theorem parse_toString_round_trip (u : Uri) (strict : bool) :
  unambiguous u = true -> parse (toString u) strict = Returned u.
Proof.
  unfold unambiguous. rewrite !andb_true_iff.
  intros [[[[[[Hs Ha] Hp] Hq] Hf] Hauth] Hsch].
  rewrite toString_delimited.
  destruct u as [sch auth pth q f]. cbn [scheme authority path query fragment] in *.
  set (QF := delimited [question] q [] ++ delimited [hash] f []).
  assert (HQF : begins_query_or_fragment QF) by apply query_fragment_begins.
  assert (Hpath_stops : forall excluded,
             In question excluded -> In hash excluded ->
             auth <> [] -> In slash excluded -> stops (not_in excluded) (pth ++ QF)).
  { intros excluded H1 H2 Hne H3. destruct auth as [|a auth]; [now elim Hne|].
    cbn [is_empty] in Hauth. destruct pth as [|c pth].
    - now apply begins_stops.
    - simpl in Hauth. apply N.eqb_eq in Hauth. subst c. simpl. unfold not_in.
      apply negb_false_iff, existsb_exists. exists slash.
      split; [exact H3|apply N.eqb_refl]. }
  destruct (scheme_stage sch (delimited [slash; slash] auth [] ++ pth ++ QF) Hs)
    as (g2 & E2 & O2).
  { intros ->. destruct auth as [|a auth].
    - cbn [is_empty andb delimited app] in *.
      rewrite begins_like_scheme_app by exact HQF. now apply negb_true_iff.
    - reflexivity. }
  destruct (authority_stage auth (pth ++ QF) Ha) as (g4 & E4 & O4).
  { intros Hne. apply Hpath_stops; simpl; auto. }
  { intros ->. cbn [is_empty] in Hauth. apply negb_true_iff in Hauth.
    destruct pth as [|a [|b pth]]; cbn [app].
    - destruct QF as [|d QF']; [reflexivity|]. destruct QF' as [|e QF'']; [reflexivity|].
      simpl. destruct HQF as [-> | ->]; reflexivity.
    - destruct QF as [|d QF']; [reflexivity|]. simpl.
      destruct HQF as [-> | ->]; now rewrite andb_false_r.
    - exact Hauth. }
  destruct (while_app (not_in [question; hash]) pth QF Hp) as [E5 E5'].
  { apply begins_stops; simpl; auto. }
  destruct (query_stage q (delimited [hash] f []) Hq (delimited_hash f))
    as (g7 & E7 & O7).
  destruct (fragment_stage f Hf) as (g9 & E9 & O9).
  unfold parse, match_uri.
  rewrite E2, E4, E5, E5'. unfold QF. rewrite E7, E9.
  cbn [group2 group4 group5 group7 group9]. now rewrite O2, O4, O7, O9.
Qed.

Lemma parse_toString_round_trip_witness :
  parse (Js.lit "file:C:/dir/a.ts") true = Returned (file (Js.lit "C:\dir\a.ts"))
  /\ parse (Js.lit "http://www.example.com/some/path?query#fragment") false
     = Returned (mkUri (Js.lit "http") (Js.lit "www.example.com") (Js.lit "/some/path")
                       (Js.lit "query") (Js.lit "fragment")).
Proof.
  split.
  - apply (parse_toString_round_trip (file (Js.lit "C:\dir\a.ts")) true).
    reflexivity.
  - apply (parse_toString_round_trip
             (mkUri (Js.lit "http") (Js.lit "www.example.com") (Js.lit "/some/path")
                    (Js.lit "query") (Js.lit "fragment")) false).
    reflexivity.
Defined.

Lemma scheme_group_written value :
  value = written [] (fst (scheme_group value)) [colon] ++ snd (scheme_group value)
  /\ is_some_empty (fst (scheme_group value)) = false.
Proof.
  unfold scheme_group.
  pose proof (take_drop_while (not_in [colon; slash; question; hash]) value) as E.
  destruct (take_while _ value) as [|c0 run]; [now split|].
  destruct (drop_while _ value) as [|c rest]; [now split|].
  destruct (N.eqb_spec c colon) as [->|Hc]; [|now split].
  cbn [fst snd written]. split; [|reflexivity].
  rewrite <- E, <- !app_assoc. reflexivity.
Qed.

Lemma authority_group_written rest1 :
  rest1 = written [slash; slash] (fst (authority_group rest1)) []
          ++ snd (authority_group rest1).
Proof.
  unfold authority_group. destruct rest1 as [|a [|b rest]]; try reflexivity.
  destruct (N.eqb_spec a slash) as [->|Ha]; [|reflexivity].
  destruct (N.eqb_spec b slash) as [->|Hb]; [|reflexivity].
  cbn [andb fst snd written app]. rewrite app_nil_r, take_drop_while. reflexivity.
Qed.

Lemma query_group_written rest3 :
  rest3 = written [question] (fst (query_group rest3)) [] ++ snd (query_group rest3).
Proof.
  unfold query_group. destruct rest3 as [|c rest]; [reflexivity|].
  destruct (N.eqb_spec c question) as [->|Hc]; [|reflexivity].
  cbn [fst snd written app]. rewrite app_nil_r, take_drop_while. reflexivity.
Qed.

Lemma fragment_group_written rest4 g :
  fragment_group rest4 = Some g -> rest4 = written [hash] g [].
Proof.
  unfold fragment_group. destruct rest4 as [|c rest]; [now intros [= <-]|].
  destruct (N.eqb_spec c hash) as [->|Hc]; [|discriminate].
  destruct (forallb _ rest); [|discriminate].
  intros [= <-]. cbn [written app]. now rewrite app_nil_r.
Qed.

(** What a match took apart goes together again. *)
Lemma match_uri_written value m :
  match_uri value = Some m ->
  value = written [] (group2 m) [colon] ++ written [slash; slash] (group4 m) []
          ++ group5 m ++ written [question] (group7 m) [] ++ written [hash] (group9 m) []
  /\ is_some_empty (group2 m) = false.
Proof.
  unfold match_uri.
  destruct (scheme_group_written value) as [E2 N2].
  destruct (scheme_group value) as [g2 rest1]. cbn [fst snd] in E2, N2.
  pose proof (authority_group_written rest1) as E4.
  destruct (authority_group rest1) as [g4 rest2]. cbn [fst snd] in E4.
  pose proof (take_drop_while (not_in [question; hash]) rest2) as E5.
  pose proof (query_group_written (drop_while (not_in [question; hash]) rest2)) as E7.
  destruct (query_group _) as [g7 rest4]. cbn [fst snd] in E7.
  destruct (fragment_group rest4) as [g9|] eqn:E9; [|discriminate].
  apply fragment_group_written in E9.
  intros [= <-]. cbn [group2 group4 group5 group7 group9].
  split; [|exact N2]. congruence.
Qed.

Lemma written_delimited before g after :
  is_some_empty g = false ->
  delimited before (or_empty g) after = written before g after.
Proof. destruct g as [[|c s]|]; [discriminate|reflexivity|reflexivity]. Qed.

(** X7. [toString] undoes a lenient [Uri.parse] on every value in which no
    delimiter is followed by an empty component: parsing does not throw, and
    writing the URI gives the value back. *)
Theorem toString_parse_round_trip (value : Js.str) :
  delimits_nothing value = false ->
  exists u, parse value false = Returned u /\ toString u = value.
Proof.
  unfold delimits_nothing, parse.
  destruct (match_uri value) as [m|] eqn:Em.
  - rewrite !orb_false_iff. intros [[H4 H7] H9].
    eexists. split; [reflexivity|].
    destruct (match_uri_written value m Em) as [E H2].
    rewrite toString_delimited. cbn [scheme authority path query fragment].
    rewrite !written_delimited by assumption. now symmetry.
  - intros _. eexists. split; [reflexivity|].
    rewrite toString_delimited. cbn [scheme authority path query fragment delimited app].
    now rewrite app_nil_r.
Qed.

Lemma toString_parse_round_trip_witness :
  exists u,
    parse (Js.lit "http://www.example.com/some/path?query#fragment") false = Returned u
    /\ toString u = Js.lit "http://www.example.com/some/path?query#fragment".
Proof.
  apply (toString_parse_round_trip
           (Js.lit "http://www.example.com/some/path?query#fragment")).
  reflexivity.
Defined.

End UriFacts.

(** ** More on the simple tokenizer and the conversion *)

Section TokenizerMore.

Import Tokenizer.

Lemma count_words_bound inside s :
  (2 * count_words_from inside s <= length s + (if inside then 0 else 1))%nat.
Proof.
  revert inside. induction s as [|c s IH]; intros inside; simpl.
  - destruct inside; lia.
  - pose proof (IH true). pose proof (IH false).
    destruct (Js.is_space c), inside; simpl in *; lia.
Qed.

Lemma drop_space_length s : (length (Js.drop_space s) <= length s)%nat.
Proof.
  induction s as [|c s IH]; simpl; [lia|]. destruct (Js.is_space c); simpl; lia.
Qed.

Lemma trim_length s : (length (Js.trim s) <= length s)%nat.
Proof.
  unfold Js.trim. rewrite length_rev.
  pose proof (drop_space_length (rev (Js.drop_space s))) as H1.
  pose proof (drop_space_length s) as H2. rewrite length_rev in H1. lia.
Qed.

Lemma count_words_drop_space s :
  count_words_from false (Js.drop_space s) = count_words_from false s.
Proof.
  induction s as [|c s IH]; simpl; [reflexivity|].
  destruct (Js.is_space c) eqn:Hc; [exact IH|]. simpl. now rewrite Hc.
Qed.

Lemma count_words_spaces inside p :
  forallb Js.is_space p = true -> count_words_from inside p = O.
Proof.
  revert inside. induction p as [|c p IH]; intros inside Hp; simpl; [reflexivity|].
  simpl in Hp. apply andb_prop in Hp. destruct Hp as [Hc Hp]. rewrite Hc. now apply IH.
Qed.

Lemma count_words_trailing_spaces inside s p :
  forallb Js.is_space p = true ->
  count_words_from inside (s ++ p) = count_words_from inside s.
Proof.
  intros Hp. revert inside. induction s as [|c s IH]; intros inside; simpl.
  - now apply count_words_spaces.
  - destruct (Js.is_space c), inside; rewrite ?IH; reflexivity.
Qed.

(** Trimming removes white space only, so it leaves the words as they are. *)
Lemma count_words_trim s : count_words (Js.trim s) = count_words s.
Proof.
  unfold count_words, Js.trim.
  rewrite <- (count_words_drop_space s).
  destruct (drop_space_split (rev (Js.drop_space s))) as [p [E F]].
  apply (f_equal (@rev _)) in E. rewrite rev_involutive, rev_app_distr in E.
  rewrite E at 2. rewrite count_words_trailing_spaces; [reflexivity|].
  rewrite forallb_forall in *. intros c Hc. apply F. now apply in_rev.
Qed.

Lemma count_words_inside s :
  (count_words_from true s <= count_words_from false s <= S (count_words_from true s))%nat.
Proof.
  destruct s as [|c s]; simpl; [lia|]. destruct (Js.is_space c); lia.
Qed.

Lemma count_words_app_l inside s t :
  (count_words_from inside s <= count_words_from inside (s ++ t))%nat.
Proof.
  revert inside. induction s as [|c s IH]; intros inside; simpl; [lia|].
  pose proof (IH true). pose proof (IH false).
  destruct (Js.is_space c), inside; lia.
Qed.

Lemma count_words_app_r s t :
  (count_words_from false s <= count_words_from false (t ++ s))%nat
  /\ (count_words_from false s <= S (count_words_from true (t ++ s)))%nat.
Proof.
  induction t as [|c t [IH1 IH2]]; simpl.
  - pose proof (count_words_inside s). lia.
  - destruct (Js.is_space c); lia.
Qed.

Lemma ceil_div_mono a b : a <= b -> Js.ceil_div a 4 <= Js.ceil_div b 4.
Proof.
  intros H. pose proof (ceil_div_is_ceiling a). pose proof (ceil_div_is_ceiling b). lia.
Qed.

Lemma estimateTokenCount_max s :
  s <> [] ->
  estimateTokenCount s
  = Z.max (Z.of_nat (count_words s)) (Js.ceil_div (Z.of_nat (length s)) 4).
Proof.
  destruct s as [|c s]; [intros H; now elim H|]. intros _.
  now rewrite estimateTokenCount_words, count_words_trim.
Qed.

Lemma estimateTokenCount_nonneg s : 0 <= estimateTokenCount s.
Proof.
  destruct s as [|c s]; [simpl; lia|].
  rewrite estimateTokenCount_max by discriminate. lia.
Qed.

(** X8. The estimate of a non-empty text of [c] code units lies between a
    quarter and a half of [c], both rounded up: trimming does not change the
    words, there is no more than one word for two code units, and so the
    estimate never exceeds the length of the text. *)
Theorem estimate_between_quarter_and_half (text : Js.str) :
  text <> [] ->
  let c := Z.of_nat (length text) in
  let n := estimateTokenCount text in
  n = Z.max (Z.of_nat (count_words text)) (Js.ceil_div c 4)
  /\ Js.ceil_div c 4 <= n <= (c + 1) / 2
  /\ n <= c.
Proof.
  intros Hne c n. unfold n. rewrite (estimateTokenCount_max text Hne). fold c.
  assert (Hc : 1 <= c).
  { unfold c. destruct text; [now elim Hne|simpl length; lia]. }
  pose proof (count_words_bound false text) as Hw. cbv iota in Hw. unfold count_words.
  pose proof (ceil_div_is_ceiling c) as Hq.
  assert (Hhalf : (c + 1) / 2 <= c).
  { apply Z.div_le_upper_bound; lia. }
  assert (Hw2 : Z.of_nat (count_words_from false text) <= (c + 1) / 2).
  { apply Z.div_le_lower_bound; unfold c; lia. }
  assert (Hq2 : Js.ceil_div c 4 <= (c + 1) / 2).
  { apply Z.div_le_lower_bound; lia. }
  split; [reflexivity|]. split; lia.
Qed.

Lemma estimate_between_quarter_and_half_witness :
  let text := Js.lit "Hello world" in
  estimateTokenCount text = Z.max 2 3
  /\ 3 <= estimateTokenCount text <= 6
  /\ estimateTokenCount text <= 11.
Proof.
  intros text.
  apply (estimate_between_quarter_and_half text). discriminate.
Defined.

(** X9. Adding text before or after a text never lowers its estimate. *)
Theorem estimate_grows_with_text (before text after : Js.str) :
  estimateTokenCount text <= estimateTokenCount (before ++ text ++ after).
Proof.
  destruct text as [|c text].
  - simpl. apply estimateTokenCount_nonneg.
  - rewrite (estimateTokenCount_max (c :: text)) by discriminate.
    rewrite (estimateTokenCount_max (before ++ (c :: text) ++ after))
      by (destruct before; discriminate).
    assert (Hlen : Z.of_nat (length (c :: text))
                   <= Z.of_nat (length (before ++ (c :: text) ++ after))).
    { rewrite !length_app. lia. }
    pose proof (ceil_div_mono _ _ Hlen) as Hq.
    unfold count_words.
    pose proof (count_words_app_l false (c :: text) after) as H1.
    pose proof (proj1 (count_words_app_r ((c :: text) ++ after) before)) as H2.
    lia.
Qed.

End TokenizerMore.

Section StandaloneMore.

Import Standalone.

Lemma as_defined_app {A : Type} (l1 l2 : list (option A)) :
  as_defined (l1 ++ l2) = as_defined l1 ++ as_defined l2.
Proof. unfold as_defined. apply flat_map_app. Qed.

(** X10. Converting a batch of raw messages is converting its parts and putting
    the results together; it never gives more messages than it is given, and as
    many exactly when every role is one of Assistant, User, System and Tool. *)
Theorem toStandaloneChatMessages_batches (ms1 ms2 : list Raw.ChatMessage) :
  toStandaloneChatMessages (ms1 ++ ms2)
  = toStandaloneChatMessages ms1 ++ toStandaloneChatMessages ms2
  /\ length (toStandaloneChatMessages ms1)
     = length (filter (fun m => listed (Raw.role m)) ms1)
  /\ (length (toStandaloneChatMessages ms1) <= length ms1)%nat
  /\ (length (toStandaloneChatMessages ms1) = length ms1
      <-> forallb (fun m => listed (Raw.role m)) ms1 = true).
Proof.
  assert (Hlen : forall ms, length (toStandaloneChatMessages ms)
                            = length (filter (fun m => listed (Raw.role m)) ms)).
  { intros ms. unfold toStandaloneChatMessages.
    induction ms as [|m ms IH]; simpl; [reflexivity|].
    unfold toStandaloneChatMessage at 1 2.
    destruct (Raw.role m); simpl; now rewrite IH. }
  split; [|split; [|split]].
  - unfold toStandaloneChatMessages. now rewrite map_app, filter_app, as_defined_app.
  - apply Hlen.
  - rewrite Hlen. apply filter_length_le.
  - rewrite Hlen. induction ms1 as [|m ms IH]; simpl; [tauto|].
    pose proof (filter_length_le (fun m => listed (Raw.role m)) ms) as Hle.
    destruct (listed (Raw.role m)); simpl.
    + rewrite <- IH. lia.
    + split; [lia|discriminate].
Qed.

(** X11. The content of a converted message is made of the text parts alone: it
    is built part by part, in order, and a part that is no text part adds
    nothing to it. *)
Theorem onlyStringContent_is_additive
    (c1 c2 : list Raw.ChatCompletionContentPart) (part : Raw.ChatCompletionContentPart) :
  onlyStringContent (c1 ++ c2) = onlyStringContent c1 ++ onlyStringContent c2
  /\ (Raw.type part <> Raw.ChatCompletionContentPartKind_Text ->
      onlyStringContent (c1 ++ part :: c2) = onlyStringContent (c1 ++ c2))
  /\ (Raw.type part = Raw.ChatCompletionContentPartKind_Text ->
      onlyStringContent (c1 ++ part :: c2)
      = onlyStringContent c1 ++ Raw.text part ++ onlyStringContent c2).
Proof.
  assert (Happ : forall a b, onlyStringContent (a ++ b)
                             = onlyStringContent a ++ onlyStringContent b).
  { intros a b. unfold onlyStringContent. now rewrite filter_app, map_app, concat_app. }
  split; [apply Happ|]. split; intros Hp; rewrite !Happ; f_equal.
  - unfold onlyStringContent. simpl.
    destruct (Z.eqb_spec (Raw.type part) Raw.ChatCompletionContentPartKind_Text);
      [contradiction|reflexivity].
  - unfold onlyStringContent. simpl. rewrite Hp. reflexivity.
Qed.

Lemma onlyStringContent_is_additive_witness :
  let a := Raw.mkPart 1 (Js.lit "a") in
  let image := Raw.mkPart 0 (Js.lit "image") in
  let b := Raw.mkPart 1 (Js.lit "b") in
  onlyStringContent ([a] ++ image :: [b]) = onlyStringContent ([a] ++ [b])
  /\ onlyStringContent ([a] ++ b :: []) = onlyStringContent [a] ++ Js.lit "b" ++ [].
Proof.
  intros a image b. split.
  - apply (proj1 (proj2 (onlyStringContent_is_additive [a] [b] image))). discriminate.
  - apply (proj2 (proj2 (onlyStringContent_is_additive [a] [] b))). reflexivity.
Defined.

End StandaloneMore.

(** ** More on the file context tracker *)

Section TrackerMore.

Import FileContext FileContextMore.

Lemma expand_times_S k t : expand_times (S k) t = expand (expand_times k t).
Proof. reflexivity. Qed.

Lemma expand_allLines t : allLines (expand t) = allLines t.
Proof.
  destruct (expand_index t) as [i|] eqn:Ei.
  - apply (expand_reads t i Ei).
  - now rewrite (proj2 (expand_reads_nothing t Ei)).
Qed.

Lemma expand_times_allLines k t : allLines (expand_times k t) = allLines t.
Proof.
  induction k as [|k IH]; [reflexivity|].
  now rewrite expand_times_S, expand_allLines.
Qed.

Lemma expand_prefix_suffix t : prefix (expand t) = prefix t /\ suffix (expand t) = suffix t.
Proof.
  destruct (expand_index t) as [i|] eqn:Ei.
  - destruct (expand_reads t i Ei) as (_ & _ & _ & H1 & H2). auto.
  - now rewrite (proj2 (expand_reads_nothing t Ei)).
Qed.

Lemma expand_times_prefix_suffix k t :
  prefix (expand_times k t) = prefix t /\ suffix (expand_times k t) = suffix t.
Proof.
  induction k as [|k [IH1 IH2]]; [auto|].
  rewrite expand_times_S. destruct (expand_prefix_suffix (expand_times k t)) as [H1 H2].
  rewrite H1, H2. auto.
Qed.

Lemma progress_inv_new file :
  focus_in_file file -> progress_inv (focus_of file) 0 (new_FileContextTracker file).
Proof.
  unfold focus_in_file, focus_of, progress_inv.
  set (t := new_FileContextTracker file).
  change (Js.split_lines (content file)) with (allLines t).
  assert (El : lines t = []) by reflexivity.
  assert (En : nextLineIs t = above) by reflexivity.
  assert (Eb : belowLine t = aboveLine t) by reflexivity.
  clearbody t. intros Hf.
  exists (aboveLine t + 1), O. rewrite El, En, Eb.
  split; [reflexivity|]. split; [lia|]. split; [lia|]. split; [reflexivity|].
  split; [intros H; now elim H|].
  split; [lia|]. split; [lia|]. split; [reflexivity|]. intros H; now elim H.
Qed.

Lemma progress_inv_expand f k t :
  0 <= f < Z.of_nat (length (allLines t)) ->
  progress_inv f k t -> progress_inv f (S k) (expand t).
Proof.
  intros Hf. unfold progress_inv.
  intros (lo & n & Hl & Hlo & Hle & Hn & Hfoc & Hc).
  rewrite expand_allLines.
  destruct (expand_index t) as [i|] eqn:Ei.
  2:{ rewrite (proj2 (expand_reads_nothing t Ei)).
      unfold expand_index in Ei.
      destruct (nextLineIs t); cbn [is_above is_below andb] in Ei.
      - destruct (Z.geb_spec (aboveLine t) 0); [discriminate|].
        destruct Hc as (Ha & Hb & Hn0 & Hn1).
        destruct n; [specialize (Hn0 eq_refl)|destruct (Hn1 ltac:(discriminate))]; lia.
      - destruct (Z.ltb_spec (belowLine t) (Z.of_nat (length (allLines t))));
          [discriminate|].
        destruct Hc as (Ha & Hb & Hn0 & Hlt & _). lia.
      - exists lo, n. destruct Hc as [H0 Hfull].
        repeat split; try assumption; lia. }
  destruct (expand_reads t i Ei) as (_ & Hlines & _).
  rewrite Hlines. clear Hlines.
  unfold expand_index in Ei. unfold expand.
  destruct (nextLineIs t) eqn:En; cbn [is_above is_below andb] in *.
  - destruct Hc as (Ha & Hb & Hn0 & Hn1).
    destruct (Z.geb_spec (aboveLine t) 0) as [Hge|]; [|discriminate].
    injection Ei as <-.
    assert (Hslice : index (allLines t) (aboveLine t) :: lines t
                     = slice (allLines t) (Z.to_nat (lo - 1)) (S n)).
    { rewrite slice_cons by lia. rewrite index_nth_error by lia.
      rewrite Hl, Ha. do 2 f_equal. lia. }
    exists (lo - 1), (S n). rewrite Hslice.
    assert (Hn' : S n = Nat.min (S k) (length (allLines t))) by lia.
    split; [reflexivity|]. split; [lia|]. split; [lia|]. split; [exact Hn'|].
    split. { intros _. destruct n; [specialize (Hn0 eq_refl)|]; lia. }
    destruct (Z.ltb_spec (belowLine t) (Z.of_nat (length (allLines t)) - 1)) as [Hb1|Hb1];
      [|destruct (Z.gtb_spec (aboveLine t) 0) as [Ha1|Ha1]];
      cbn [nextLineIs aboveLine belowLine set_cursor].
    + split; [lia|]. split; [lia|]. split; [lia|]. split; [lia|].
      destruct n; [specialize (Hn0 eq_refl); lia|].
      destruct (Hn1 ltac:(discriminate)) as [_ [Hbal|Hbal]]; lia.
    + split; [lia|]. split; [lia|]. split; [lia|]. intros _. split; [lia|]. right.
      destruct n; [specialize (Hn0 eq_refl)|]; lia.
    + destruct n; [specialize (Hn0 eq_refl)|]; lia.
  - destruct Hc as (Ha & Hb & Hn0 & Hlt & Hbal).
    destruct (Z.ltb_spec (belowLine t) (Z.of_nat (length (allLines t)))) as [Hb'|];
      [|discriminate].
    injection Ei as <-.
    specialize (Hfoc Hn0).
    assert (Hslice : lines t ++ [index (allLines t) (belowLine t)]
                     = slice (allLines t) (Z.to_nat lo) (S n)).
    { rewrite slice_snoc by lia. rewrite index_nth_error by lia.
      rewrite Hl, Hb. do 3 f_equal. lia. }
    exists lo, (S n). rewrite Hslice.
    assert (Hn' : S n = Nat.min (S k) (length (allLines t))) by lia.
    split; [reflexivity|]. split; [lia|]. split; [lia|]. split; [exact Hn'|].
    split; [lia|].
    destruct (Z.gtb_spec (aboveLine t) 0) as [Ha1|Ha1];
      [|destruct (Z.ltb_spec (belowLine t) (Z.of_nat (length (allLines t)) - 1))
          as [Hb1|Hb1]];
      cbn [nextLineIs aboveLine belowLine set_cursor].
    + split; [lia|]. split; [lia|]. split; [lia|]. intros _. split; [lia|]. lia.
    + split; [lia|]. split; [lia|]. split; [lia|]. split; [lia|]. right. lia.
    + lia.
  - discriminate.
Qed.

Lemma progress_inv_times file k :
  focus_in_file file ->
  progress_inv (focus_of file) k (expand_times k (new_FileContextTracker file)).
Proof.
  intros Hf. induction k as [|k IH]; [now apply progress_inv_new|].
  rewrite expand_times_S. apply progress_inv_expand; [|exact IH].
  rewrite expand_times_allLines. exact Hf.
Qed.

End TrackerMore.

Section TrackerExtras.

Import FileContext FileContextMore.

Lemma join_cons sep v l :
  l <> [] ->
  join sep (v :: l) = match v with Some x => x | None => [] end ++ sep ++ join sep l.
Proof. destruct l; [intros H; now elim H|reflexivity]. Qed.

(** Joining the lines that [split('\n')] gave with line breaks gives the
    content back. *)
Lemma join_split_lines_from cur s :
  join [Js.LF] (map Some (Js.split_lines_from cur s)) = rev cur ++ s.
Proof.
  revert cur. induction s as [|c s IH]; intros cur; simpl.
  - now rewrite app_nil_r.
  - destruct (N.eqb_spec c Js.LF) as [->|Hc].
    + rewrite map_cons, join_cons.
      * rewrite IH. reflexivity.
      * pose proof (split_lines_from_nonempty [] s) as H.
        destruct (Js.split_lines_from [] s); [now elim H|discriminate].
    + rewrite IH. simpl. now rewrite <- app_assoc.
Qed.

Lemma slice_all a : slice a 0 (length a) = map Some a.
Proof. unfold slice. simpl. now rewrite firstn_all. Qed.

(** A tracker that has no next line holds the whole file. *)
Lemma done_holds_whole_file f k t :
  0 <= f -> progress_inv f k t -> nextLine t = None ->
  lines t = map Some (allLines t) /\ nextLineIs t = none.
Proof.
  unfold progress_inv. intros Hf (lo & n & Hl & Hlo & Hle & Hn & Hfoc & Hc) Hnext.
  unfold nextLine in Hnext.
  destruct (nextLineIs t).
  - destruct (Z.geb_spec (aboveLine t) 0); [discriminate|].
    destruct Hc as (Ha & Hb & Hn0 & Hn1).
    destruct n; [specialize (Hn0 eq_refl)|destruct (Hn1 ltac:(discriminate))]; lia.
  - destruct (Z.ltb_spec (belowLine t) (Z.of_nat (length (allLines t)))); [discriminate|].
    destruct Hc as (Ha & Hb & Hn0 & Hlt & _). lia.
  - destruct Hc as [-> Hfull]. split; [|reflexivity].
    rewrite Hl. replace n with (length (allLines t)) by lia. apply slice_all.
Qed.

(** X13. After [k] calls of [expand()] on the tracker of a file whose focus line
    is one of its lines, the tracker holds [min(k, number of lines)] lines, a
    slice of the file around the focus line; and as long as neither the first
    nor the last line of the file is taken, the lines were taken in turn, so
    that there are as many below the focus line as above it, or one more. *)
Theorem expand_takes_lines_in_turn (file : IFilesToInclude) (k : nat) :
  focus_in_file file ->
  let all := Js.split_lines (content file) in
  let f := focus_of file in
  let t := expand_times k (new_FileContextTracker file) in
  exists lo n : nat,
    lines t = slice all lo n
    /\ n = Nat.min k (length all)
    /\ length (lines t) = n
    /\ (lo + n <= length all)%nat
    /\ (n <> O -> Z.of_nat lo <= f < Z.of_nat (lo + n))
    /\ (n <> O -> (0 < lo)%nat -> (lo + n < length all)%nat ->
        let above := f - Z.of_nat lo in
        let below := Z.of_nat (lo + n) - 1 - f in
        below = above \/ below = above + 1).
Proof.
  intros Hf all f t.
  pose proof (progress_inv_times file k Hf) as Hinv. fold t f in Hinv.
  unfold progress_inv in Hinv.
  assert (Hall : allLines t = all) by apply expand_times_allLines.
  rewrite Hall in Hinv.
  destruct Hinv as (lo & n & Hl & Hlo & Hle & Hn & Hfoc & Hc).
  exists (Z.to_nat lo), n.
  split; [exact Hl|]. split; [exact Hn|].
  split; [rewrite Hl; apply slice_length; lia|].
  split; [lia|]. split; [intros H0; specialize (Hfoc H0); lia|].
  intros H0 H1 H2. cbv zeta.
  destruct (nextLineIs t).
  - destruct Hc as (_ & _ & _ & Hbal). destruct (Hbal H0) as [_ [H|H]]; lia.
  - destruct Hc as (_ & _ & _ & _ & [H|H]); lia.
  - lia.
Qed.

Lemma expand_takes_lines_in_turn_witness :
  let file :=
    mkFile (Js.lit "a.ts")
      (Js.lit "0" ++ [Js.LF] ++ Js.lit "1" ++ [Js.LF] ++ Js.lit "2" ++ [Js.LF]
       ++ Js.lit "3" ++ [Js.LF] ++ Js.lit "4" ++ [Js.LF] ++ Js.lit "5")
      (Some 2) in
  exists lo n : nat,
    lines (expand_times 2 (new_FileContextTracker file))
    = slice (Js.split_lines (content file)) lo n
    /\ n = 2%nat.
Proof.
  intros file.
  destruct (expand_takes_lines_in_turn file 2) as (lo & n & H1 & H2 & _).
  - vm_compute. split; [discriminate|reflexivity].
  - exists lo, n. split; [exact H1|exact H2].
Defined.

(** X14. After as many calls of [expand()] as the file has lines, on the tracker
    of a file whose focus line is one of its lines, the tracker holds every
    line of the file in order, has no next line, is left unchanged by further
    calls, and its string is the header, the whole content and the footer. *)
Theorem expand_ends_with_whole_file (file : IFilesToInclude) (k : nat) :
  focus_in_file file ->
  (length (Js.split_lines (content file)) <= k)%nat ->
  let t := expand_times k (new_FileContextTracker file) in
  lines t = map Some (Js.split_lines (content file))
  /\ nextLine t = None
  /\ expand t = t
  /\ toString t = whole_file file.
Proof.
  intros Hf Hk t.
  pose proof (progress_inv_times file k Hf) as Hinv. fold t in Hinv.
  assert (Hall : allLines t = Js.split_lines (content file))
    by apply expand_times_allLines.
  assert (Hnext : nextLine t = None).
  { unfold progress_inv in Hinv. rewrite Hall in Hinv.
    destruct Hinv as (lo & n & Hl & Hlo & Hle & Hn & Hfoc & Hc).
    unfold nextLine. destruct (nextLineIs t); [| |reflexivity].
    - destruct Hc as (_ & _ & _ & Hn1).
      assert (Hn0 : n <> O).
      { unfold focus_in_file in Hf. lia. }
      destruct (Hn1 Hn0). lia.
    - destruct Hc as (_ & _ & _ & Hlt & _). lia. }
  destruct (done_holds_whole_file _ _ _ (proj1 Hf) Hinv Hnext) as [Hlines _].
  rewrite Hall in Hlines.
  split; [exact Hlines|]. split; [exact Hnext|].
  split; [apply expand_reads_nothing; now apply nextLine_expand_index|].
  unfold toString, whole_file.
  destruct (expand_times_prefix_suffix k (new_FileContextTracker file)) as [Hp Hs].
  fold t in Hp, Hs. rewrite Hp, Hs, Hlines.
  unfold Js.split_lines. now rewrite join_split_lines_from.
Qed.

Lemma expand_ends_with_whole_file_witness :
  let file :=
    mkFile (Js.lit "a.ts") (Js.lit "one" ++ [Js.LF] ++ Js.lit "two") None in
  toString (expand_times 5 (new_FileContextTracker file))
  = Js.lit "# a.ts" ++ [Js.LF] ++ Js.lit "```" ++ [Js.LF]
    ++ Js.lit "one" ++ [Js.LF] ++ Js.lit "two" ++ [Js.LF] ++ Js.lit "```" ++ [Js.LF].
Proof.
  intros file.
  destruct (expand_ends_with_whole_file file 5) as (_ & _ & _ & H).
  - vm_compute. split; [discriminate|reflexivity].
  - vm_compute. lia.
  - exact H.
Defined.

End TrackerExtras.

(** ** More on the expansion of files *)

Section ExpansionMore.

Import FileContext FileContextMore.

Variable sizing : PromptSizing.

Lemma expanded_from_refl t : expanded_from t t.
Proof. now exists O. Qed.

Lemma expanded_from_expand t : expanded_from t (expand t).
Proof. now exists 1%nat. Qed.

Lemma expand_times_add k1 k2 t :
  expand_times (k1 + k2) t = expand_times k1 (expand_times k2 t).
Proof. unfold expand_times. apply Nat.iter_add. Qed.

Lemma expanded_from_trans t1 t2 t3 :
  expanded_from t1 t2 -> expanded_from t2 t3 -> expanded_from t1 t3.
Proof.
  intros [k1 ->] [k2 ->]. exists (k2 + k1)%nat. symmetry. apply expand_times_add.
Qed.

Lemma all_expanded_refl fs : Forall2 expanded_from fs fs.
Proof. induction fs; constructor; auto using expanded_from_refl. Qed.

Lemma all_expanded_trans fs1 fs2 fs3 :
  Forall2 expanded_from fs1 fs2 -> Forall2 expanded_from fs2 fs3 ->
  Forall2 expanded_from fs1 fs3.
Proof.
  intros H. revert fs3. induction H as [|t1 t2 l1 l2 Ht Hl IH]; intros fs3 H3.
  - inversion H3. constructor.
  - inversion H3; subst. constructor; [eapply expanded_from_trans; eauto|auto].
Qed.

Lemma for_files_expands files tc any :
  Forall2 expanded_from files (files_of (for_files sizing files tc any)).
Proof.
  revert tc any. induction files as [|file rest IH]; intros tc any; cbn [for_files].
  - constructor.
  - destruct (nextLine file) as [s|].
    + destruct (tc + countTokens sizing s >? tokenBudget sizing).
      * apply all_expanded_refl.
      * rewrite files_of_visited. constructor; [apply expanded_from_expand|apply IH].
    + rewrite files_of_visited. constructor; [apply expanded_from_refl|apply IH].
Qed.

Lemma while_true_expands rounds files tc fs :
  while_true rounds sizing files tc = Some fs -> Forall2 expanded_from files fs.
Proof.
  revert files tc. induction rounds as [|rounds IH]; intros files tc; [discriminate|].
  cbn [while_true].
  pose proof (for_files_expands files tc false) as H.
  destruct (for_files sizing files tc false) as [fs'|fs' tc' a]; simpl in H.
  - now intros [= <-].
  - destruct a; simpl.
    + intros Hw. eapply all_expanded_trans; [exact H|]. eapply IH; eauto.
    + now intros [= <-].
Qed.

Lemma for_files_flag_stays files tc fs tc' any' :
  for_files sizing files tc true = Done fs tc' any' -> any' = true.
Proof.
  revert tc fs tc' any'.
  induction files as [|file rest IH]; intros tc fs tc' any'; cbn [for_files].
  - now intros [= _ _ <-].
  - destruct (nextLine file) as [s|].
    + destruct (tc + countTokens sizing s >? tokenBudget sizing); [discriminate|].
      destruct (for_files sizing rest (tc + countTokens sizing s) true)
        as [x|x y z] eqn:E; simpl; [discriminate|].
      intros [= _ _ <-]. eapply IH; eauto.
    + destruct (for_files sizing rest tc true) as [x|x y z] eqn:E; simpl;
        [discriminate|].
      intros [= _ _ <-]. eapply IH; eauto.
Qed.

(** How one run of the [for] loop ends: by the [return], before a line that
    does not fit on top of what was counted so far; or at the end of the array,
    and then with the flag unset only if no file had a line to take. *)
Lemma for_files_stops files tc any :
  match for_files sizing files tc any with
  | Return fs =>
      exists t s,
        In t fs /\ nextLine t = Some s
        /\ tc + (content_tokens sizing fs - content_tokens sizing files)
           + countTokens sizing s > tokenBudget sizing
  | Done fs _ any' =>
      any' = false -> fs = files /\ Forall (fun t => nextLine t = None) files
  end.
Proof.
  revert tc any. induction files as [|file rest IH]; intros tc any; cbn [for_files].
  - intros _. split; [reflexivity|constructor].
  - destruct (nextLine file) as [s|] eqn:Hs.
    + destruct (Z.gtb_spec (tc + countTokens sizing s) (tokenBudget sizing)) as [Hgt|Hle].
      * exists file, s. split; [now left|]. split; [exact Hs|]. lia.
      * specialize (IH (tc + countTokens sizing s) true).
        pose proof (file_tokens_expand sizing file s Hs) as He.
        destruct (for_files sizing rest (tc + countTokens sizing s) true)
          as [fs|fs tc' a] eqn:E; simpl.
        -- destruct IH as (t & s' & Hin & Hn & Hc).
           exists t, s'. split; [now right|]. split; [exact Hn|].
           unfold content_tokens in *. simpl. lia.
        -- intros ->. apply for_files_flag_stays in E. discriminate.
    + specialize (IH tc any).
      destruct (for_files sizing rest tc any) as [fs|fs tc' a]; simpl.
      * destruct IH as (t & s' & Hin & Hn & Hc).
        exists t, s'. split; [now right|]. split; [exact Hn|].
        unfold content_tokens in *. simpl. lia.
      * intros Ha. destruct (IH Ha) as [-> Hall].
        split; [reflexivity|]. constructor; assumption.
Qed.

Lemma while_true_stops rounds files tc fs :
  while_true rounds sizing files tc = Some fs ->
  tc = content_tokens sizing files ->
  exhausted fs \/ blocked sizing fs.
Proof.
  revert files tc. induction rounds as [|rounds IH]; intros files tc; [discriminate|].
  cbn [while_true].
  pose proof (for_files_stops files tc false) as Hstop.
  pose proof (for_files_tokens sizing files tc false) as Htok. cbv zeta in Htok.
  destruct (for_files sizing files tc false) as [fs'|fs' tc' a]; simpl in Htok.
  - intros [= <-] Htc. right. destruct Hstop as (t & s & Hin & Hn & Hc).
    exists t, s. split; [exact Hin|]. split; [exact Hn|]. lia.
  - destruct Htok as [_ Htc']. destruct a; simpl.
    + intros Hw Htc. apply (IH fs' tc' Hw). lia.
    + intros [= <-] _. left. destruct (Hstop eq_refl) as [-> Hall]. exact Hall.
Qed.

End ExpansionMore.

Section ExpansionExtras.

Import FileContext FileContextMore.

Variable sizing : PromptSizing.

Lemma tracks_new file : tracks file (new_FileContextTracker file).
Proof. now exists O. Qed.

Lemma tracks_expanded file t0 t :
  tracks file t0 -> expanded_from t0 t -> tracks file t.
Proof. intros [k0 ->] [k ->]. exists (k + k0)%nat. symmetry. apply expand_times_add. Qed.

Lemma tracks_header file t :
  tracks file t ->
  prefix t = prefix (new_FileContextTracker file)
  /\ suffix t = suffix (new_FileContextTracker file)
  /\ allLines t = Js.split_lines (content file).
Proof.
  intros [k ->].
  destruct (expand_times_prefix_suffix k (new_FileContextTracker file)) as [H1 H2].
  split; [exact H1|]. split; [exact H2|]. apply expand_times_allLines.
Qed.

Lemma getExpandedFiles_tracks files fs :
  getExpandedFiles files sizing = Some fs -> Forall2 tracks files fs.
Proof.
  unfold getExpandedFiles. intros Hw. apply while_true_expands in Hw.
  remember (map new_FileContextTracker files) as ts eqn:Ets.
  revert files Ets. induction Hw as [|t0 t ts fs Ht Hl IH]; intros files Ets.
  - destruct files; [constructor|discriminate].
  - destruct files as [|file files]; [discriminate|]. injection Ets as -> ->.
    constructor; [|now apply IH].
    eapply tracks_expanded; [apply tracks_new|exact Ht].
Qed.


(** X16. [getExpandedFiles] stops only when it has to: in what it returns,
    either no file has a line left to take, or the next line of some file
    would bring the content above the budget. *)
Theorem getExpandedFiles_stops_when_it_must (files : list IFilesToInclude) :
  exists fs,
    getExpandedFiles files sizing = Some fs
    /\ (exhausted fs \/ blocked sizing fs).
Proof.
  destruct (getExpandedFiles_returns sizing files) as [fs Hfs].
  exists fs. split; [exact Hfs|].
  unfold getExpandedFiles in Hfs.
  apply (while_true_stops sizing _ _ _ _ Hfs). apply header_tokens_new.
Qed.

Lemma sum_firstn_le (g : Js.str -> Z) (n : nat) (l : list Js.str) :
  (forall s, 0 <= g s) ->
  fold_right Z.add 0 (map g (firstn n l)) <= fold_right Z.add 0 (map g l).
Proof.
  intros Hg. revert n. induction l as [|x l IH]; intros n.
  - rewrite firstn_nil. simpl. lia.
  - destruct n; simpl.
    + assert (0 <= fold_right Z.add 0 (map g l)).
      { clear IH. induction l as [|y l IHl]; simpl; [lia|]. specialize (Hg y). lia. }
      specialize (Hg x). lia.
    + specialize (IH n). lia.
Qed.

Lemma sum_skipn_le (g : Js.str -> Z) (n : nat) (l : list Js.str) :
  (forall s, 0 <= g s) ->
  fold_right Z.add 0 (map g (skipn n l)) <= fold_right Z.add 0 (map g l).
Proof.
  intros Hg. revert n. induction l as [|x l IH]; intros n.
  - rewrite skipn_nil. simpl. lia.
  - destruct n; simpl; [lia|]. specialize (IH n). specialize (Hg x). lia.
Qed.

Lemma slice_tokens a lo n :
  fold_right Z.add 0 (map (line_tokens sizing) (slice a lo n))
  = fold_right Z.add 0
      (map (fun l => countTokens sizing (l ++ [Js.LF])) (firstn n (skipn lo a))).
Proof. unfold slice. rewrite map_map. reflexivity. Qed.

Hypothesis count_nonneg : forall s, 0 <= countTokens sizing s.

Lemma tracked_tokens_le file t :
  focus_in_file file -> tracks file t ->
  file_tokens sizing t <= whole_file_tokens sizing file.
Proof.
  intros Hf [k ->].
  pose proof (progress_inv_times file k Hf) as Hinv.
  destruct (tracks_header file _ (ex_intro _ k eq_refl)) as (Hp & Hs & Ha).
  unfold progress_inv in Hinv. rewrite Ha in Hinv.
  destruct Hinv as (lo & n & Hl & _).
  unfold file_tokens, whole_file_tokens, tokenCount. rewrite Hp, Hs, Hl, slice_tokens.
  pose proof (sum_firstn_le (fun l => countTokens sizing (l ++ [Js.LF])) n
                (skipn (Z.to_nat lo) (Js.split_lines (content file)))
                (fun s => count_nonneg _)) as H1.
  pose proof (sum_skipn_le (fun l => countTokens sizing (l ++ [Js.LF])) (Z.to_nat lo)
                (Js.split_lines (content file)) (fun s => count_nonneg _)) as H2.
  apply Z.add_le_mono_l. etransitivity; [exact H1|exact H2].
Qed.

Lemma tracked_whole file t :
  focus_in_file file -> tracks file t -> nextLine t = None ->
  toString t = whole_file file
  /\ file_tokens sizing t = whole_file_tokens sizing file.
Proof.
  intros Hf [k ->] Hnext.
  pose proof (progress_inv_times file k Hf) as Hinv.
  destruct (tracks_header file _ (ex_intro _ k eq_refl)) as (Hp & Hs & Ha).
  destruct (done_holds_whole_file _ _ _ (proj1 Hf) Hinv Hnext) as [Hlines _].
  rewrite Ha in Hlines. split.
  - unfold toString, whole_file. rewrite Hp, Hs, Hlines.
    unfold Js.split_lines. now rewrite join_split_lines_from.
  - unfold file_tokens, whole_file_tokens, tokenCount. rewrite Hp, Hs, Hlines.
    rewrite map_map. reflexivity.
Qed.

Lemma content_below_whole files fs :
  Forall focus_in_file files -> Forall2 tracks files fs ->
  content_tokens sizing fs <= whole_tokens sizing files.
Proof.
  intros Hf Ht. induction Ht as [|file t files' fs' H1 H2 IH].
  - unfold content_tokens, whole_tokens. simpl. lia.
  - inversion Hf as [|? ? Hfile Hrest]; subst.
    pose proof (tracked_tokens_le file t Hfile H1). specialize (IH Hrest).
    unfold content_tokens, whole_tokens in *. simpl. lia.
Qed.

Lemma next_line_below_whole files fs t s :
  Forall focus_in_file files -> Forall2 tracks files fs ->
  In t fs -> nextLine t = Some s ->
  content_tokens sizing fs + countTokens sizing s <= whole_tokens sizing files.
Proof.
  intros Hf Ht. induction Ht as [|file t' files' fs' H1 H2 IH]; intros Hin Hs.
  - contradiction.
  - inversion Hf as [|? ? Hfile Hrest]; subst.
    destruct Hin as [->|Hin].
    + pose proof (file_tokens_expand sizing t s Hs) as He.
      pose proof (tracked_tokens_le file (expand t) Hfile
                    (tracks_expanded file t _ H1 (expanded_from_expand t))) as Hle.
      pose proof (content_below_whole files' fs' Hrest H2) as Hc.
      unfold content_tokens, whole_tokens in *. simpl. lia.
    + pose proof (tracked_tokens_le file t' Hfile H1). specialize (IH Hrest Hin Hs).
      unfold content_tokens, whole_tokens in *. simpl. lia.
Qed.

(** X18. With a budget that covers the headers, the footers and every line, a
    counting function that is never negative, and focus lines that are lines
    of their files, [getExpandedFiles] leaves nothing out: every tracker
    returned writes its whole file. *)
Theorem getExpandedFiles_takes_all_that_fits (files : list IFilesToInclude) :
  Forall focus_in_file files ->
  whole_tokens sizing files <= tokenBudget sizing ->
  exists fs,
    getExpandedFiles files sizing = Some fs
    /\ map toString fs = map whole_file files
    /\ content_tokens sizing fs = whole_tokens sizing files.
Proof.
  intros Hf Hb.
  destruct (getExpandedFiles_returns sizing files) as [fs Hfs].
  exists fs. split; [exact Hfs|].
  pose proof (getExpandedFiles_tracks files fs Hfs) as Ht.
  assert (Hex : exhausted fs).
  { unfold getExpandedFiles in Hfs.
    destruct (while_true_stops sizing _ _ _ _ Hfs (header_tokens_new sizing files))
      as [H|(t & s & Hin & Hn & Hc)]; [exact H|].
    pose proof (next_line_below_whole files fs t s Hf Ht Hin Hn). lia. }
  unfold exhausted in Hex. clear Hfs Hb.
  induction Ht as [|file t files' fs' H1 H2 IH].
  - split; reflexivity.
  - inversion Hf as [|? ? Hfile Hrest]; subst.
    inversion Hex as [|? ? Hnext Hex']; subst.
    destruct (tracked_whole file t Hfile H1 Hnext) as [E1 E2].
    destruct (IH Hrest Hex') as [E3 E4].
    unfold content_tokens, whole_tokens in *. simpl. now rewrite E1, E2, E3, E4.
Qed.

End ExpansionExtras.

Section ExpansionFairness.

Import FileContext FileContextMore.

Variable sizing : PromptSizing.

Lemma expand_adds_one_line t s :
  nextLine t = Some s -> length (lines (expand t)) = S (length (lines t)).
Proof.
  intros Hs. destruct (expand_index t) as [i|] eqn:Ei.
  - destruct (expand_reads t i Ei) as (_ & Hl & _). rewrite Hl.
    destruct (is_above (nextLineIs t)); [reflexivity|].
    rewrite length_app. simpl. lia.
  - apply nextLine_expand_index in Ei. congruence.
Qed.

Lemma level_next r t : level r t -> nextLine t = None -> level (S r) t.
Proof. intros [H|[H1 H2]] Hn; right; split; auto; lia. Qed.

Lemma level_expand r t s : level r t -> nextLine t = Some s -> level (S r) (expand t).
Proof.
  intros [H|[H1 H2]] Hs; [|congruence]. left.
  rewrite (expand_adds_one_line t s Hs). now f_equal.
Qed.

Lemma for_files_round r files tc any :
  Forall (level r) files ->
  match for_files sizing files tc any with
  | Return fs => in_round r fs
  | Done fs _ _ => Forall (level (S r)) fs
  end.
Proof.
  revert tc any. induction files as [|file rest IH]; intros tc any Hl; cbn [for_files].
  - constructor.
  - inversion Hl as [|? ? Hfile Hrest]; subst.
    destruct (nextLine file) as [s|] eqn:Hs.
    + destruct (tc + countTokens sizing s >? tokenBudget sizing).
      * exists [], (file :: rest). split; [reflexivity|]. split; [constructor|exact Hl].
      * specialize (IH (tc + countTokens sizing s) true Hrest).
        pose proof (level_expand r file s Hfile Hs) as He.
        destruct (for_files sizing rest (tc + countTokens sizing s) true)
          as [fs|fs tc' a]; simpl.
        -- destruct IH as (vis & wait & -> & Hv & Hw).
           exists (expand file :: vis), wait. split; [reflexivity|].
           split; [now constructor|exact Hw].
        -- now constructor.
    + specialize (IH tc any Hrest).
      pose proof (level_next r file Hfile Hs) as He.
      destruct (for_files sizing rest tc any) as [fs|fs tc' a]; simpl.
      * destruct IH as (vis & wait & -> & Hv & Hw).
        exists (file :: vis), wait. split; [reflexivity|].
        split; [now constructor|exact Hw].
      * now constructor.
Qed.

Lemma while_true_round rounds r files tc fs :
  Forall (level r) files ->
  while_true rounds sizing files tc = Some fs ->
  exists r', in_round r' fs.
Proof.
  revert r files tc. induction rounds as [|rounds IH]; intros r files tc Hl;
    [discriminate|].
  cbn [while_true].
  pose proof (for_files_round r files tc false Hl) as H.
  destruct (for_files sizing files tc false) as [fs'|fs' tc' a].
  - intros [= <-]. now exists r.
  - destruct a; simpl.
    + intros Hw. exact (IH (S r) fs' tc' H Hw).
    + intros [= <-]. exists r, fs', []. rewrite app_nil_r.
      split; [reflexivity|]. split; [exact H|constructor].
Qed.

Lemma level_bounds r t :
  level r t -> (length (lines t) <= r)%nat
               /\ (length (lines t) = r \/ nextLine t = None).
Proof. intros [H|[H1 H2]]; split; auto; lia. Qed.

(** X19. [getExpandedFiles] treats the files evenly. Of two trackers it returns,
    the later one never holds more lines than the earlier one, unless the
    earlier one has no line left; and the earlier one holds at most one line
    more than the later one, unless the later one has no line left. *)
Theorem getExpandedFiles_is_even_handed
    (files : list IFilesToInclude) (fs : list FileContextTracker)
    (i j : nat) (ti tj : FileContextTracker) :
  getExpandedFiles files sizing = Some fs ->
  (i < j)%nat -> nth_error fs i = Some ti -> nth_error fs j = Some tj ->
  ((length (lines tj) <= length (lines ti))%nat \/ nextLine ti = None)
  /\ ((length (lines ti) <= S (length (lines tj)))%nat \/ nextLine tj = None).
Proof.
  intros Hfs Hij Hi Hj.
  unfold getExpandedFiles in Hfs.
  assert (H0 : Forall (level 0) (map new_FileContextTracker files)).
  { apply Forall_forall. intros t Ht. apply in_map_iff in Ht.
    destruct Ht as [f [<- _]]. now left. }
  destruct (while_true_round _ O _ _ _ H0 Hfs) as (r & vis & wait & -> & Hv & Hw).
  assert (Hin : forall k t, nth_error (vis ++ wait) k = Some t ->
                  ((k < length vis)%nat /\ level (S r) t)
                  \/ ((length vis <= k)%nat /\ level r t)).
  { intros k t Hk. destruct (Nat.lt_ge_cases k (length vis)) as [Hlt|Hge].
    - left. split; [exact Hlt|]. rewrite nth_error_app1 in Hk by exact Hlt.
      rewrite Forall_forall in Hv. eapply Hv, nth_error_In; eauto.
    - right. split; [exact Hge|]. rewrite nth_error_app2 in Hk by exact Hge.
      rewrite Forall_forall in Hw. eapply Hw, nth_error_In; eauto. }
  destruct (Hin i ti Hi) as [[Hi1 Li]|[Hi1 Li]];
    destruct (Hin j tj Hj) as [[Hj1 Lj]|[Hj1 Lj]]; try lia;
    apply level_bounds in Li; apply level_bounds in Lj;
    destruct Li as [Li1 [Li2|Li2]], Lj as [Lj1 [Lj2|Lj2]]; split;
    first [left; lia|right; assumption].
Qed.

End ExpansionFairness.

Section ExpansionGrowth.

Import FileContext FileContextMore.

Variable count : Js.str -> Z.
Hypothesis count_nonneg : forall s, 0 <= count s.

Lemma lines_tokens_nonneg sizing l :
  (forall s, 0 <= countTokens sizing s) ->
  0 <= fold_right Z.add 0 (map (line_tokens sizing) l).
Proof.
  intros H. induction l as [|v l IH]; simpl; [lia|].
  unfold line_tokens at 1. specialize (H (plus v [Js.LF])). lia.
Qed.

Lemma has_grown_tokens sizing file t1 t2 :
  (forall s, 0 <= countTokens sizing s) ->
  tracks file t1 -> tracks file t2 -> has_grown t1 t2 ->
  file_tokens sizing t1 <= file_tokens sizing t2
  /\ (length (lines t1) <= length (lines t2))%nat.
Proof.
  intros Hc H1 H2 (before & after & E).
  destruct (tracks_header file t1 H1) as (P1 & S1 & _).
  destruct (tracks_header file t2 H2) as (P2 & S2 & _).
  split.
  - unfold file_tokens, tokenCount. rewrite P1, S1, P2, S2, E.
    rewrite !map_app, !sum_app.
    pose proof (lines_tokens_nonneg sizing before Hc).
    pose proof (lines_tokens_nonneg sizing after Hc). lia.
  - rewrite E, !length_app. lia.
Qed.

(** X20. A larger budget never gives less: with a counting function that is never
    negative, every file holds under the larger budget the lines it holds
    under the smaller one, at least as many lines, and the content costs at
    least as much. *)
Theorem getExpandedFiles_grows_with_budget
    (files : list IFilesToInclude) (B1 B2 : Z) :
  B1 <= B2 ->
  exists fs1 fs2,
    getExpandedFiles files (mkSizing B1 count) = Some fs1
    /\ getExpandedFiles files (mkSizing B2 count) = Some fs2
    /\ Forall2 (fun t1 t2 =>
                  has_grown t1 t2 /\ (length (lines t1) <= length (lines t2))%nat)
               fs1 fs2
    /\ content_tokens (mkSizing B1 count) fs1 <= content_tokens (mkSizing B2 count) fs2.
Proof.
  intros HB.
  destruct (getExpandedFiles_returns (mkSizing B1 count) files) as [fs1 H1].
  destruct (getExpandedFiles_returns (mkSizing B2 count) files) as [fs2 H2].
  exists fs1, fs2. split; [exact H1|]. split; [exact H2|].
  pose proof (getExpandedFiles_tracks _ files fs1 H1) as T1.
  pose proof (getExpandedFiles_tracks _ files fs2 H2) as T2.
  assert (G : Forall2 has_grown fs1 fs2).
  { unfold getExpandedFiles in H1, H2.
    exact (while_true_budgets count B1 B2 HB _ _ _ _ _ _ H1 H2). }
  clear H1 H2. revert fs2 T2 G.
  induction T1 as [|file t1 files' fs1' Ht1 Hl1 IH]; intros fs2 T2 G.
  - inversion G; subst. split; [constructor|]. unfold content_tokens. simpl. lia.
  - inversion G as [|? t2 ? fs2' Hg Hgs]; subst.
    inversion T2 as [|? ? ? ? Ht2 Hl2]; subst.
    destruct (IH fs2' Hl2 Hgs) as [IH1 IH2].
    destruct (has_grown_tokens (mkSizing B2 count) file t1 t2
                (fun s => count_nonneg s) Ht1 Ht2 Hg) as [Hle Hlen].
    split; [constructor; auto|].
    unfold content_tokens in *. simpl.
    change (file_tokens (mkSizing B1 count) t1) with (file_tokens (mkSizing B2 count) t1).
    lia.
Qed.

End ExpansionGrowth.

Section ExpansionExamples.

Import FileContext FileContextMore.

Lemma getExpandedFiles_is_even_handed_witness :
  let sizing := mkSizing 14 Tokenizer.estimateTokenCount in
  let files :=
    [mkFile (Js.lit "a.ts")
       (Js.lit "one" ++ [Js.LF] ++ Js.lit "two" ++ [Js.LF] ++ Js.lit "three") None;
     mkFile (Js.lit "b.ts") (Js.lit "x" ++ [Js.LF] ++ Js.lit "y") None] in
  exists fs ti tj,
    getExpandedFiles files sizing = Some fs
    /\ nth_error fs 0 = Some ti /\ nth_error fs 1 = Some tj
    /\ ((length (lines tj) <= length (lines ti))%nat \/ nextLine ti = None)
    /\ ((length (lines ti) <= S (length (lines tj)))%nat \/ nextLine tj = None).
Proof.
  intros sizing files.
  destruct (getExpandedFiles files sizing) as [fs|] eqn:E;
    [|vm_compute in E; discriminate].
  destruct fs as [|ti [|tj rest]];
    [vm_compute in E; discriminate|vm_compute in E; discriminate|].
  exists (ti :: tj :: rest), ti, tj.
  split; [reflexivity|]. split; [reflexivity|]. split; [reflexivity|].
  apply (getExpandedFiles_is_even_handed sizing files (ti :: tj :: rest) 0 1 ti tj E);
    [lia|reflexivity|reflexivity].
Defined.

Lemma getExpandedFiles_takes_all_that_fits_witness :
  let sizing := mkSizing 100 Tokenizer.estimateTokenCount in
  let files :=
    [mkFile (Js.lit "a.ts")
       (Js.lit "one" ++ [Js.LF] ++ Js.lit "two" ++ [Js.LF] ++ Js.lit "three") None;
     mkFile (Js.lit "b.ts") (Js.lit "x" ++ [Js.LF] ++ Js.lit "y") (Some 1)] in
  exists fs,
    getExpandedFiles files sizing = Some fs
    /\ map toString fs = map whole_file files
    /\ content_tokens sizing fs = whole_tokens sizing files.
Proof.
  intros sizing files.
  apply (getExpandedFiles_takes_all_that_fits sizing
           (fun s => estimateTokenCount_nonneg s) files).
  - repeat constructor; vm_compute; discriminate.
  - vm_compute. discriminate.
Defined.

Lemma getExpandedFiles_grows_with_budget_witness :
  let files :=
    [mkFile (Js.lit "a.ts")
       (Js.lit "one" ++ [Js.LF] ++ Js.lit "two" ++ [Js.LF] ++ Js.lit "three") None] in
  exists fs1 fs2,
    getExpandedFiles files (mkSizing 6 Tokenizer.estimateTokenCount) = Some fs1
    /\ getExpandedFiles files (mkSizing 8 Tokenizer.estimateTokenCount) = Some fs2
    /\ Forall2 (fun t1 t2 =>
                  has_grown t1 t2 /\ (length (lines t1) <= length (lines t2))%nat)
               fs1 fs2
    /\ content_tokens (mkSizing 6 Tokenizer.estimateTokenCount) fs1
       <= content_tokens (mkSizing 8 Tokenizer.estimateTokenCount) fs2.
Proof.
  intros files.
  apply (getExpandedFiles_grows_with_budget Tokenizer.estimateTokenCount
           (fun s => estimateTokenCount_nonneg s) files 6 8).
  lia.
Defined.

Lemma default_focus_in_file_witness :
  let file := mkFile (Js.lit "empty.ts") [] None in
  0 <= focus_of file < Z.of_nat (length (Js.split_lines (content file))).
Proof.
  intros file. apply (default_focus_in_file file). reflexivity.
Defined.

End ExpansionExamples.

(** ** More on the cancellation source *)

Section CancellationMore.

Import Cancellation.

Variable body : listener -> CancellationTokenSource -> list call.

Lemma listener_steps_keep cs it :
  let it' := fold_left listener_step cs it in
  calls (source it') = calls (source it)
  /\ _isCancelled (source it') = _isCancelled (source it)
  /\ isCancellationRequested (source it') = isCancellationRequested (source it).
Proof.
  revert it. induction cs as [|c cs IH]; intros it; simpl; [auto|].
  destruct (IH (listener_step it c)) as (C & F & G).
  destruct (step_cancelled_keeps (source it) c) as (F' & G' & C').
  rewrite C, F, G. unfold listener_step. simpl. auto.
Qed.

Lemma notify_keeps it l :
  calls (source (notify body it l)) = calls (source it) ++ [l]
  /\ _isCancelled (source (notify body it l)) = _isCancelled (source it)
  /\ isCancellationRequested (source (notify body it l))
     = isCancellationRequested (source it).
Proof.
  unfold notify. set (called := mkSource _ _ _ _).
  destruct (listener_steps_keep (body l called) (mkIteration called (detached it)))
    as (C & F & G).
  rewrite C, F, G. auto.
Qed.

(** Whatever the listeners do, [forEach] calls at most one listener for
    every index it goes through, and leaves the two flags alone. *)
Lemma forEach_keeps todo k it :
  let it' := forEach body k todo it in
  (exists called, calls (source it') = calls (source it) ++ called
                  /\ (length called <= todo)%nat)
  /\ _isCancelled (source it') = _isCancelled (source it)
  /\ isCancellationRequested (source it') = isCancellationRequested (source it).
Proof.
  revert k it. induction todo as [|todo IH]; intros k it; simpl.
  - split; [exists []; rewrite app_nil_r; simpl; auto|auto].
  - destruct (nth_error (walked it) k) as [l|].
    + destruct (IH (S k) (notify body it l)) as ([called [C L]] & F & G).
      destruct (notify_keeps it l) as (C' & F' & G').
      split; [|rewrite F, G; auto].
      exists (l :: called). rewrite C, C', <- app_assoc. simpl. split; [reflexivity|lia].
    + destruct (IH (S k) it) as ([called [C L]] & F & G).
      split; [|auto]. exists called. split; [exact C|lia].
Qed.

Lemma cancel_flags s :
  _isCancelled (cancel body s) = true
  /\ isCancellationRequested (cancel body s)
     = (isCancellationRequested s || negb (_isCancelled s))
  /\ (exists called, calls (cancel body s) = calls s ++ called
                     /\ (length called <= length (_listeners s))%nat).
Proof.
  unfold cancel. destruct (_isCancelled s) eqn:Hs; simpl.
  - rewrite orb_false_r. split; [exact Hs|]. split; [reflexivity|].
    exists []. rewrite app_nil_r. split; [reflexivity|simpl; lia].
  - destruct (forEach_keeps (length (_listeners s)) 0
                (mkIteration (mkSource true true (_listeners s) (calls s)) None))
      as (C & F & G).
    rewrite F, G. simpl. rewrite orb_true_r. auto.
Qed.

Lemma step_flags s c :
  isCancellationRequested s = _isCancelled s ->
  isCancellationRequested (step body s c) = _isCancelled (step body s c)
  /\ _isCancelled (step body s c) = (_isCancelled s || fires c).
Proof.
  intros E. destruct (cancel_flags s) as (F & G & _).
  destruct c; simpl; rewrite ?orb_false_r; auto; unfold dispose; simpl;
    rewrite F, G, E; destruct (_isCancelled s); auto.
Qed.

Lemma run_flags cs s :
  isCancellationRequested s = _isCancelled s ->
  isCancellationRequested (run body s cs) = _isCancelled (run body s cs)
  /\ _isCancelled (run body s cs) = (_isCancelled s || existsb fires cs).
Proof.
  revert s. induction cs as [|c cs IH]; intros s E; simpl.
  - rewrite orb_false_r. auto.
  - destruct (step_flags s c E) as [E1 E2].
    destruct (IH (step body s c) E1) as [E3 E4].
    rewrite E3, E4, E2, orb_assoc. auto.
Qed.

(** X21. Whatever the listeners do, the flag of the token and the private flag of
    the source agree after every sequence of calls, and they are set exactly
    when [cancel()] or [dispose()] was called; they are never reset. Right
    after [dispose()] no listener is registered. *)
Theorem cancellation_flags_follow_the_calls (cs more : list call) :
  let s := run body new_CancellationTokenSource cs in
  isCancellationRequested s = existsb fires cs
  /\ _isCancelled s = existsb fires cs
  /\ (isCancellationRequested s = true ->
      isCancellationRequested (run body s more) = true)
  /\ _listeners (run body s [Dispose]) = [].
Proof.
  cbv zeta.
  destruct (run_flags cs new_CancellationTokenSource eq_refl) as [E1 E2].
  simpl in E2. split; [congruence|]. split; [exact E2|]. split; [|reflexivity].
  intros Ht.
  destruct (run_flags more (run body new_CancellationTokenSource cs) E1) as [E3 E4].
  rewrite E3, E4, <- E1, Ht. reflexivity.
Qed.

(** X22. Whatever the listeners do, they are called by the first [cancel()] or
    [dispose()] only: the calls that follow call no listener, and the first
    one calls at most as many listeners as were registered when it was
    made. *)
Theorem listeners_called_by_first_fire_only
    (before after : list call) (c : call) :
  quiet before = true -> fires c = true ->
  let at_cancel := run body new_CancellationTokenSource before in
  let fired := run body new_CancellationTokenSource (before ++ [c]) in
  let s := run body new_CancellationTokenSource (before ++ c :: after) in
  calls at_cancel = []
  /\ calls s = calls fired
  /\ (length (calls s) <= length (_listeners at_cancel))%nat.
Proof.
  intros Hq Hc at_cancel fired s.
  destruct (quiet_run_not_cancelled body before new_CancellationTokenSource Hq eq_refl)
    as [Q1 [Q2 Q3]].
  fold at_cancel in Q1, Q2, Q3.
  assert (Ef : fired = step body at_cancel c).
  { unfold fired, at_cancel. now rewrite run_app. }
  assert (Es : s = run body fired after).
  { unfold s, fired. rewrite !run_app. reflexivity. }
  assert (Hfired : _isCancelled fired = true).
  { rewrite Ef. destruct (step_flags at_cancel c) as [_ E]; [now rewrite Q1, Q2|].
    rewrite E, Hc. apply orb_true_r. }
  destruct (run_cancelled body after fired Hfired) as (_ & _ & R).
  split; [exact Q3|]. split; [now rewrite Es|].
  rewrite Es, R, Ef.
  destruct (cancel_flags at_cancel) as (_ & _ & called & C & L).
  rewrite Q3 in C.
  destruct c; try discriminate; simpl; unfold dispose; simpl; rewrite C; exact L.
Qed.

End CancellationMore.

Section CancellationMoreExamples.

Import Cancellation.

Lemma listeners_called_by_first_fire_only_witness :
  let before := [OnCancellationRequested 0; OnCancellationRequested 1]%nat in
  let after := [OnCancellationRequested 2; Cancel; Dispose]%nat in
  let s := run once new_CancellationTokenSource (before ++ Cancel :: after) in
  calls s = calls (run once new_CancellationTokenSource (before ++ [Cancel]))
  /\ (length (calls s) <= 2)%nat.
Proof.
  intros before after s.
  destruct (listeners_called_by_first_fire_only once before after Cancel
              eq_refl eq_refl) as (_ & H1 & H2).
  split; [exact H1|exact H2].
Defined.

End CancellationMoreExamples.

Section RegistrationFacts.

Import Cancellation.

Lemma remove_first_count l ls x :
  count_occ Nat.eq_dec (remove_first l ls) x
  = if Nat.eqb x l then Nat.pred (count_occ Nat.eq_dec ls l)
    else count_occ Nat.eq_dec ls x.
Proof.
  induction ls as [|y ls IH]; simpl.
  - now destruct (Nat.eqb x l).
  - destruct (Nat.eqb_spec y l) as [Hy|Hy].
    + destruct (Nat.eq_dec y l) as [_|N]; [|contradiction].
      destruct (Nat.eqb_spec x l) as [Hx|Hx]; [now rewrite Hx|].
      destruct (Nat.eq_dec y x); [congruence|reflexivity].
    + destruct (Nat.eq_dec y l) as [N|_]; [contradiction|].
      simpl. rewrite IH.
      destruct (Nat.eqb_spec x l) as [Hx|Hx].
      * destruct (Nat.eq_dec y x); [congruence|reflexivity].
      * reflexivity.
Qed.

Lemma remove_first_absent l ls : ~ In l ls -> remove_first l ls = ls.
Proof.
  induction ls as [|y ls IH]; simpl; [reflexivity|]. intros H.
  destruct (Nat.eqb_spec y l) as [Hy|Hy]; [elim H; now left|].
  f_equal. apply IH. tauto.
Qed.

Lemma remove_first_last l ls : ~ In l ls -> remove_first l (ls ++ [l]) = ls.
Proof.
  induction ls as [|y ls IH]; simpl.
  - now rewrite Nat.eqb_refl.
  - intros H. destruct (Nat.eqb_spec y l) as [Hy|Hy]; [elim H; now left|].
    f_equal. apply IH. tauto.
Qed.

Lemma remove_first_oldest l pre post :
  ~ In l pre -> remove_first l (pre ++ l :: post) = pre ++ post.
Proof.
  induction pre as [|y pre IH]; simpl.
  - now rewrite Nat.eqb_refl.
  - intros H. destruct (Nat.eqb_spec y l) as [Hy|Hy]; [elim H; now left|].
    f_equal. apply IH. tauto.
Qed.

(** X23. Disposing the registration of a listener takes away one registration
    of that listener, the oldest one, and no other: the other listeners stay
    registered as often as before, a listener that is not registered changes
    nothing, and registering a listener that was not registered and disposing
    the registration leaves the source as it was. *)
Theorem registration_disposal_takes_one
    (l x : listener) (s : CancellationTokenSource) :
  count_occ Nat.eq_dec (_listeners (dispose_registration l s)) x
  = (if Nat.eqb x l then Nat.pred (count_occ Nat.eq_dec (_listeners s) l)
     else count_occ Nat.eq_dec (_listeners s) x)
  /\ (forall older newer, ~ In l older -> _listeners s = older ++ l :: newer ->
      _listeners (dispose_registration l s) = older ++ newer)
  /\ (~ In l (_listeners s) -> dispose_registration l s = s)
  /\ (~ In l (_listeners s) ->
      dispose_registration l (onCancellationRequested l s) = s)
  /\ calls (dispose_registration l s) = calls s
  /\ isCancellationRequested (dispose_registration l s) = isCancellationRequested s.
Proof.
  split; [apply remove_first_count|].
  split; [|split; [|split; [|split; reflexivity]]].
  - intros older newer H E. unfold dispose_registration. simpl. rewrite E.
    now apply remove_first_oldest.
  - intros H. unfold dispose_registration. rewrite remove_first_absent by exact H.
    now destruct s.
  - intros H. unfold dispose_registration, onCancellationRequested. simpl.
    rewrite remove_first_last by exact H. now destruct s.
Qed.

End RegistrationFacts.
